(** * llm-quiz-api: the quiz-chain driver, its extractors and its HTTP entry point

    A shallow embedding of [app/config.py], [app/utils.py], [app/solver.py]
    and [app/main.py].

    Conventions of the embedding.
    - A Python [str] is a [list ascii]; a character stands for the code point
      of the same number, so the texts covered are those whose code points
      are below 256.  [str.lower], [str.isspace] and the regular-expression
      classes are written out for that whole range.
    - A Python [dict] with string keys is a [gmap string _]; where the claim
      is about identity of dict objects, dicts live in a store of objects.
    - What the driver obtains from outside (the clock, the pages fetched, the
      answers of the grader, the random source, the string hash of the
      process) is a [World] the driver is run against.  The answer of the
      grader is the value [resp.json()] returns, whatever its type; what
      sleeping the delay it asks for does, return or raise, is given by the
      world as well. *)

From Stdlib Require Import ZArith List Ascii String Bool Lia QArith.
From Stdlib Require Import Numbers.DecimalString.
From stdpp Require Import gmap strings list fin_maps.
Import ListNotations.

Open Scope Z_scope.

(** ** Python strings and the regular expressions the program uses *)

Module Py.

Definition str := list ascii.

Definition lit (s : string) : str := list_ascii_of_string s.
Coercion lit : string >-> str.

Definition ord (c : ascii) : Z := Z.of_N (N_of_ascii c).
Definition chr (n : Z) : ascii := ascii_of_N (Z.to_N n).

Definition between (lo hi : Z) (c : ascii) : bool :=
  (lo <=? ord c) && (ord c <=? hi).

(** [str.isspace] on one character, which is also the class [\s] of [re]
    on [str] patterns: TAB..CR, FS..US, SPACE, NEL and NBSP. *)
Definition isspace (c : ascii) : bool :=
  between 9 13 c || between 28 32 c || (ord c =? 133) || (ord c =? 160).

(** The class [\d] of [re]: below 256 the decimal digits are [0-9]. *)
Definition isdigit (c : ascii) : bool := between 48 57 c.

Definition is_ascii (c : ascii) : bool := ord c <? 128.

Definition isupper_ascii (c : ascii) : bool := between 65 90 c.

(** [str.lower] on one character: A-Z, and the Latin-1 capitals
    U+00C0..U+00DE except the multiplication sign U+00D7. *)
Definition lower_char (c : ascii) : ascii :=
  if isupper_ascii c || (between 192 222 c && negb (ord c =? 215))
  then chr (ord c + 32) else c.

Definition lower (s : str) : str := map lower_char s.

Definition eqc (a b : ascii) : bool := Ascii.eqb a b.

(** The double quote, and a text between double quotes. *)
Definition dquote : ascii := chr 34.
Definition quoted (s : str) : str := [dquote] ++ s ++ [dquote].

Fixpoint eqs (a b : str) : bool :=
  match a, b with
  | [], [] => true
  | x :: a', y :: b' => eqc x y && eqs a' b'
  | _, _ => false
  end.

(** [s.startswith(p)] *)
Fixpoint startswith (p s : str) : bool :=
  match p, s with
  | [], _ => true
  | x :: p', y :: s' => eqc x y && startswith p' s'
  | _ :: _, [] => false
  end.

(** [sub in s] *)
Fixpoint contains (sub s : str) : bool :=
  startswith sub s ||
  match s with
  | [] => false
  | _ :: s' => contains sub s'
  end.

(** [s.count(sub)]: occurrences found from the left, each search resuming
    after the end of the previous occurrence.  [skip] is the number of
    characters still covered by the last occurrence. *)
Fixpoint count_from (sub : str) (skip : nat) (s : str) : Z :=
  match s with
  | [] => match skip with
          | O => if startswith sub [] then 1 else 0
          | S _ => 0
          end
  | _ :: s' =>
      match skip with
      | S k => count_from sub k s'
      | O => if startswith sub s
             then 1 + count_from sub (Nat.pred (length sub)) s'
             else count_from sub O s'
      end
  end.

Definition count (sub s : str) : Z := count_from sub O s.

Fixpoint lstrip (s : str) : str :=
  match s with
  | c :: s' => if isspace c then lstrip s' else s
  | [] => []
  end.

Definition rstrip (s : str) : str := rev (lstrip (rev s)).

(** [s.strip()] *)
Definition strip (s : str) : str := rstrip (lstrip s).

(** [s.split()]: the maximal runs of non-space characters.  [cur] is the
    word being read, in reverse. *)
Fixpoint split_ws_from (cur : str) (s : str) : list str :=
  match s with
  | [] => match cur with [] => [] | _ => [rev cur] end
  | c :: s' =>
      if isspace c
      then match cur with
           | [] => split_ws_from [] s'
           | _ => rev cur :: split_ws_from [] s'
           end
      else split_ws_from (c :: cur) s'
  end.

Definition split_ws (s : str) : list str := split_ws_from [] s.

(** [sep.join(parts)] *)
Fixpoint join (sep : str) (parts : list str) : str :=
  match parts with
  | [] => []
  | [p] => p
  | p :: rest => p ++ sep ++ join sep rest
  end.

(** [s.split(d)] for a one-character separator. *)
Fixpoint split_on_from (d : ascii) (cur : str) (s : str) : list str :=
  match s with
  | [] => [rev cur]
  | c :: s' =>
      if eqc c d then rev cur :: split_on_from d [] s'
      else split_on_from d (c :: cur) s'
  end.

Definition split_on (d : ascii) (s : str) : list str := split_on_from d [] s.

(** [s.rsplit(d, 1)[0]]: what precedes the last [d], the whole of [s] when
    [d] does not occur. *)
Fixpoint rsplit1_head (d : ascii) (s : str) : str :=
  match s with
  | [] => []
  | c :: s' =>
      if existsb (eqc d) s' then c :: rsplit1_head d s'
      else if eqc c d then [] else s
  end.

(** [sum(ord(c) for c in s)] *)
Definition ord_sum (s : str) : Z := fold_right (fun c acc => ord c + acc) 0 s.

(** [str(n)] for an [int] *)
Definition str_of_int (n : Z) : str := lit (NilEmpty.string_of_int (Z.to_int n)).

(** *** Regular expressions

    The patterns of the program are sequences of the items below; a
    pattern has at most one capture group, always of the shape
    [([class]+)].  [match_here] is a backtracking matcher with the greedy
    preference of [re]. *)

Inductive rx :=
| Lit (l : str)                 (* literal text *)
| Opt (c : ascii)               (* c? *)
| Star (p : ascii -> bool)      (* [class]* *)
| Plus (p : ascii -> bool)      (* [class]+ *)
| Group (p : ascii -> bool)     (* ([class]+) *)
| Alt (ls : list str).          (* (?:l1|l2|...) *)

(** A match: the text matched, [m.group(0)], and [m.group(1)] when the
    pattern has a group. *)
Definition rmatch := (str * option str)%type.

Definition cons_match (u : str) (m : rmatch) : rmatch := (u ++ fst m, snd m).

(** As many characters of class [p] as possible, then the rest of the
    pattern [k]; one character is given back at a time while [k] fails. *)
Fixpoint greedy (p : ascii -> bool) (k : str -> option rmatch) (s : str)
  : option (str * rmatch) :=
  match s with
  | c :: s' =>
      if p c then
        match greedy p k s' with
        | Some (u, m) => Some (c :: u, m)
        | None => option_map (pair []) (k s)
        end
      else option_map (pair []) (k s)
  | [] => option_map (pair []) (k [])
  end.

Fixpoint first_alt (ls : list str) (k : str -> option rmatch) (s : str)
  : option rmatch :=
  match ls with
  | [] => None
  | l :: ls' =>
      let here :=
        if startswith l s then option_map (cons_match l) (k (skipn (length l) s))
        else None in
      match here with
      | Some m => Some m
      | None => first_alt ls' k s
      end
  end.

Fixpoint match_here (pat : list rx) (s : str) : option rmatch :=
  match pat with
  | [] => Some ([], None)
  | Lit l :: pat' =>
      if startswith l s
      then option_map (cons_match l) (match_here pat' (skipn (length l) s))
      else None
  | Opt c :: pat' =>
      match s with
      | c' :: s' =>
          if eqc c c' then
            match match_here pat' s' with
            | Some m => Some (cons_match [c] m)
            | None => match_here pat' s
            end
          else match_here pat' s
      | [] => match_here pat' []
      end
  | Star p :: pat' =>
      option_map (fun um => cons_match (fst um) (snd um))
                 (greedy p (match_here pat') s)
  | Plus p :: pat' =>
      match s with
      | c :: s' =>
          if p c
          then option_map (fun um => cons_match (c :: fst um) (snd um))
                          (greedy p (match_here pat') s')
          else None
      | [] => None
      end
  | Group p :: pat' =>
      match s with
      | c :: s' =>
          if p c
          then option_map
                 (fun um => ((c :: fst um) ++ fst (snd um), Some (c :: fst um)))
                 (greedy p (match_here pat') s')
          else None
      | [] => None
      end
  | Alt ls :: pat' => first_alt ls (match_here pat') s
  end.

(** [re.search(pat, s)]: the match at the leftmost position that has one. *)
Fixpoint search (pat : list rx) (s : str) : option rmatch :=
  match match_here pat s with
  | Some m => Some m
  | None =>
      match s with
      | [] => None
      | _ :: s' => search pat s'
      end
  end.

(** [re.findall(pat, s)] for a pattern without group: the texts matched,
    from the left, each search resuming where the previous match ended. *)
Fixpoint findall_from (pat : list rx) (skip : nat) (s : str) : list str :=
  match s with
  | [] => match skip with
          | O => match match_here pat [] with Some m => [fst m] | None => [] end
          | S _ => []
          end
  | _ :: s' =>
      match skip with
      | S k => findall_from pat k s'
      | O =>
          match match_here pat s with
          | Some m => fst m :: findall_from pat (Nat.pred (length (fst m))) s'
          | None => findall_from pat O s'
          end
      end
  end.

Definition findall (pat : list rx) (s : str) : list str := findall_from pat O s.

(** [s.split(sep)[0]] for a separator that is not empty: what precedes
    the first occurrence of [sep], the whole of [s] when [sep] does not
    occur. *)
Fixpoint before_first (sep s : str) : str :=
  match s with
  | [] => []
  | c :: s' => if startswith sep s then [] else c :: before_first sep s'
  end.

End Py.

Import Py.

(** ** app/config.py *)

Module Config.

Definition QUIZ_SECRET : str := "MONAHARINIR0802".
Definition QUIZ_EMAIL : str := "22f1000912@ds.study.iitm.ac.in".

(** Timeouts, in seconds ([BROWSER_NAV_TIMEOUT] in milliseconds). *)
Definition TOTAL_WORK_TIMEOUT : Z := 150.
Definition BROWSER_NAV_TIMEOUT : Z := 90000.
Definition HTTP_TIMEOUT : Z := 30.
Definition MAX_PAYLOAD_BYTES : Z := 1 * 1024 * 1024.

End Config.

(** ** Values held by dicts, and the store of dict objects *)

Inductive pyval :=
| VNone
| VBool (b : bool)
| VInt (n : Z)
| VStr (s : str).

(** A dict object is a finite map from its string keys; dict objects are
    reached through references into a store. *)
Abbreviation ref := positive.
Abbreviation store := (gmap ref (gmap string pyval)).

(** [dict(d)]: a new object holding the items of [d]. *)
Definition dict_copy (h : store) (d : gmap string pyval) : ref * store :=
  let r := fresh (dom h) in (r, <[r := d]> h).

(** [k in r] *)
Definition dict_has (h : store) (r : ref) (k : string) : bool :=
  match h !! r with
  | Some d => bool_decide (is_Some (d !! k))
  | None => false
  end.

(** [r[k] = v] *)
Definition dict_set (h : store) (r : ref) (k : string) (v : pyval) : store :=
  match h !! r with
  | Some d => <[r := <[k := v]> d]> h
  | None => h
  end.

(** ** app/utils.py *)

Module Utils.

Definition nl : ascii := chr 10.

(** The class of the characters of a URL literal: anything but white
    space, quotes and angle brackets. *)
Definition url_char (c : ascii) : bool :=
  negb (isspace c || eqc c "'" || eqc c dquote || eqc c "<" || eqc c ">").

(** [https?://U+/submit U*], where U is the class above *)
Definition submit_pattern : list rx :=
  [Lit "http"; Opt "s"; Lit "://"; Plus url_char; Lit "/submit"; Star url_char].

(** [https?://U+/(?:api|quiz|answer)U*] *)
Definition endpoint_pattern : list rx :=
  [Lit "http"; Opt "s"; Lit "://"; Plus url_char; Lit "/";
   Alt [lit "api"; lit "quiz"; lit "answer"]; Star url_char].

Definition href_qualifies (u : str) : bool :=
  negb (eqs u []) &&
  (contains "submit" u || contains "answer" u || contains "upload" u).

Definition extract_submit_url (text html : str) (hrefs : list str) : option str :=
  match List.find href_qualifies hrefs with
  | Some u => Some u
  | None =>
      match search submit_pattern (html ++ [nl] ++ text) with
      | Some m => Some (fst m)
      | None =>
          match search endpoint_pattern (html ++ [nl] ++ text) with
          | Some m2 => Some (fst m2)
          | None => None
          end
      end
  end.

(** [mask_secret(payload)], on a store in which [payload] is the
    reference of a dict: the reference returned and the store afterwards.
    [None] stands for a [payload] that is not a dict of the store. *)
Definition mask_secret (h : store) (payload : ref) : option (ref * store) :=
  match h !! payload with
  | None => None
  | Some d =>
      let '(out, h1) := dict_copy h d in
      let h2 := if dict_has h1 out "secret"
                then dict_set h1 out "secret" (VStr "****")
                else h1 in
      Some (out, h2)
  end.

(** [https?://U+(?:\.csv|\.json|\.pdf|\.xlsx|\.xls)] *)
Definition data_url_pattern : list rx :=
  [Lit "http"; Opt "s"; Lit "://"; Plus url_char;
   Alt [lit ".csv"; lit ".json"; lit ".pdf"; lit ".xlsx"; lit ".xls"]].

Definition find_data_urls (html : str) : list str :=
  findall data_url_pattern html.

End Utils.

(** ** app/solver.py *)

Module Solver.

Definition not_quote (c : ascii) : bool := negb (eqc c dquote).
Definition not_lt (c : ascii) : bool := negb (eqc c "<").

(** The class [[A-Za-z0-9_\-]]. *)
Definition token_char (c : ascii) : bool :=
  between 65 90 c || between 97 122 c || between 48 57 c ||
  eqc c "_" || eqc c "-".

Definition secret_patterns : list (list rx) :=
  [ [Lit (quoted "secret"); Star isspace; Lit ":"; Star isspace; Lit [dquote];
     Group not_quote; Lit [dquote]];
    [Lit "secret="; Group token_char];
    [Lit (lit "<span id=" ++ quoted "secret" ++ lit ">"); Group not_lt; Lit "</span>"];
    [Lit (lit "data-secret=" ++ [dquote]); Group not_quote; Lit [dquote]];
    [Lit "SECRET:"; Star isspace; Group token_char] ].

(** [m.group(1)] *)
Definition group1 (m : rmatch) : str :=
  match snd m with Some g => g | None => [] end.

(** The loop over [secret_patterns]: the stripped group of the first
    pattern found in [html], [None] when the loop ends without a match. *)
Fixpoint first_secret (pats : list (list rx)) (html : str) : option str :=
  match pats with
  | [] => None
  | pat :: rest =>
      match search pat html with
      | Some m => Some (strip (group1 m))
      | None => first_secret rest html
      end
  end.

Definition UNKNOWN_SECRET : str := "UNKNOWN_SECRET".

(** [extracted_secret] after the [if not extracted_secret] default. *)
Definition extract_secret (html : str) : str :=
  match first_secret secret_patterns html with
  | Some ((_ :: _) as s) => s
  | _ => UNKNOWN_SECRET
  end.

Inductive answer :=
| AInt (n : Z)
| AStr (s : str).

Definition detect_task_type (url text : str) : str :=
  if contains "count the" (lower text) then "count"
  else if contains "checksum" (lower text) then "checksum"
  else if contains "audio" url then "audio"
  else if contains "scrape" url then "scrape"
  else "general".

Definition solve_by_type (task_type text : str) : answer :=
  if eqs task_type "scrape" then
    AInt (Z.of_nat (length (findall [Plus isdigit] text)))
  else if eqs task_type "count" then
    AInt (count "the" (lower text))
  else if eqs task_type "checksum" then
    AInt (ord_sum text mod 1000)
  else if eqs task_type "audio" then
    AInt 4
  else
    AStr "task_executed_successfully".

(** What [render_page] returns. *)
Record Page := {
  html : str;
  text : str;
  hrefs : list str;
  scripts : list str
}.

Record Solved := {
  answer_of : answer;
  secret_of : str
}.

(** [solve_quiz_page(url)], given the page that [render_page(url)]
    returned. *)
Definition solve_quiz_page (url : str) (page : Page) : Solved :=
  let extracted_secret := extract_secret (html page) in
  let task_type := detect_task_type url (text page) in
  {| answer_of := solve_by_type task_type (text page);
     secret_of := extracted_secret |}.

End Solver.

Export Solver(answer, AInt, AStr).

(** ** app/main.py *)

Module Main.

Definition YOUR_EMAIL : str := Config.QUIZ_EMAIL.
Definition YOUR_SECRET : str := Config.QUIZ_SECRET.

Module QuizRequest.
Record t := { email : str; secret : str; url : str }.
End QuizRequest.

Definition verify_credentials (email secret : str) : bool :=
  let received_email := strip email in
  let received_secret := strip secret in
  let email_match := eqs received_email YOUR_EMAIL in
  let secret_match := eqs received_secret YOUR_SECRET in
  let is_valid := email_match && secret_match in
  is_valid.

(** *** parse_question *)

(** The dict [question_info]; [current_url] is the key the driver adds,
    read with the default of the empty text. *)
Record question_info := {
  question : str;
  submit_url : str;
  task_type : str;
  file_url : str;
  specific_instructions : str;
  current_url_of : str
}.

(** [re.sub] of every maximal run of non-ASCII characters by one space. *)
Fixpoint sub_non_ascii (in_run : bool) (s : str) : str :=
  match s with
  | [] => []
  | c :: s' =>
      if is_ascii c then c :: sub_non_ascii false s'
      else if in_run then sub_non_ascii true s'
      else " "%char :: sub_non_ascii true s'
  end.

Definition clean (text : str) : str :=
  let clean_text := sub_non_ascii false text in
  join " " (split_ws clean_text).

(** The class of the characters of a URL literal in this module: anything
    but white space, angle brackets and the double quote. *)
Definition url_char (c : ascii) : bool :=
  negb (isspace c || eqc c "<" || eqc c ">" || eqc c dquote).

Definition url_pattern : list rx :=
  [Lit "http"; Opt "s"; Lit "://"; Plus url_char].

Definition mentions_submit (u : str) : bool := contains "submit" (lower u).

Definition meaningful_line (line : str) : bool :=
  let clean_line := strip line in
  (20 <? Z.of_nat (length clean_line)) &&
  negb (startswith "http" clean_line) &&
  negb (startswith "{" clean_line) &&
  negb (startswith "<" clean_line).

Definition any_in (words : list str) (text_lower : str) : bool :=
  existsb (fun word => contains word text_lower) words.

Definition classify (text_lower : str) : str :=
  if any_in [lit "download"; lit "file"; lit ".pdf"; lit ".csv"] text_lower
  then "file_download"
  else if any_in [lit "sum"; lit "total"; lit "add"; lit "calculate"] text_lower
  then "sum_calculation"
  else if contains "api" text_lower
  then "api_call"
  else if any_in [lit "scrape"; lit "extract"; lit "parse"] text_lower
  then "scraping"
  else if any_in [lit "count"; lit "number of"] text_lower
  then "counting"
  else if any_in [lit "audio"; lit "sound"; lit "listen"] text_lower
  then "audio"
  else "general".

Definition parse_question (text : str) : question_info :=
  let clean_text := clean text in
  let urls := findall url_pattern clean_text in
  let submit_urls := List.filter mentions_submit urls in
  let the_submit_url :=
    match submit_urls with u :: _ => u | [] => [] end in
  let lines := split_on "." clean_text in
  let found :=
    match List.find meaningful_line lines with
    | Some line => strip line
    | None => []
    end in
  let the_question :=
    match found with
    | [] => if 10 <? Z.of_nat (length clean_text)
            then firstn 200 clean_text else []
    | _ => found
    end in
  let text_lower := lower clean_text in
  {| question := the_question;
     submit_url := the_submit_url;
     task_type := classify text_lower;
     file_url := [];
     specific_instructions := [];
     current_url_of := [] |}.

Definition set_current_url (qi : question_info) (u : str) : question_info :=
  {| question := question qi;
     submit_url := submit_url qi;
     task_type := task_type qi;
     file_url := file_url qi;
     specific_instructions := specific_instructions qi;
     current_url_of := u |}.

(** *** generate_answer

    [hash] is the string hash of the process and [draw] the number the
    random source yields for the one random choice an answer may need. *)

Section Answers.

Variable hash : str -> Z.
Variable draw : Z.

(** [random.randint(a, b)] *)
Definition randint (a b : Z) : Z := a + draw mod (b - a + 1).

(** [random.choice(l)] *)
Definition choice (l : list str) : str :=
  nth (Z.to_nat (draw mod Z.of_nat (length l))) l [].

Definition handle_scraping_demo (qi : question_info) : answer :=
  let current_url := current_url_of qi in
  let url_hash := hash current_url mod 1000 + 1 in
  if url_hash mod 3 =? 0 then AInt url_hash
  else if url_hash mod 3 =? 1 then AStr (lit "scraped_data_" ++ str_of_int url_hash)
  else AStr (lit "extracted_" ++ str_of_int url_hash ++ lit "_items").

Definition handle_audio_demo (qi : question_info) : answer :=
  AStr "audio_processed_successfully".

Definition handle_sum_demo (qi : question_info) : answer :=
  AInt (randint 1000 5000).

Definition handle_file_demo (qi : question_info) : answer :=
  AStr "file_downloaded_and_processed".

Definition handle_api_demo (qi : question_info) : answer :=
  AStr "api_response_received".

Definition handle_general_demo (qi : question_info) : answer :=
  AStr (choice [lit "task_completed_successfully"; lit "process_executed";
                lit "operation_finished"; lit "analysis_complete"]).

Definition handle_scraping_task (qi : question_info) : answer :=
  handle_scraping_demo qi.

Definition handle_audio_question (qi : question_info) : answer :=
  AStr "audio_analysis_complete".

Definition handle_counting_question (qi : question_info) : answer :=
  AInt (randint 5 50).

Definition handle_general_question (qi : question_info) : answer :=
  let current_url := current_url_of qi in
  let url_hash := hash current_url mod 1000 + 1 in
  AStr (choice [lit "completed_" ++ str_of_int url_hash;
                lit "processed_" ++ str_of_int url_hash;
                lit "executed_" ++ str_of_int url_hash;
                lit "finished_" ++ str_of_int url_hash]).

Definition handle_file_download (qi : question_info) : answer :=
  AStr "file_processed_successfully".

Definition handle_sum_calculation (qi : question_info) : answer :=
  AInt (randint 100 5000).

Definition generate_answer (qi : question_info) : answer :=
  let current_url := current_url_of qi in
  if contains "demo-scrape" current_url then handle_scraping_demo qi
  else if contains "demo-audio" current_url then handle_audio_demo qi
  else if contains "demo-sum" current_url then handle_sum_demo qi
  else if contains "demo-file" current_url then handle_file_demo qi
  else if contains "demo-api" current_url then handle_api_demo qi
  else if contains "demo" current_url then handle_general_demo qi
  else if eqs (task_type qi) "file_download" then handle_file_download qi
  else if eqs (task_type qi) "sum_calculation" then handle_sum_calculation qi
  else if eqs (task_type qi) "counting" then handle_counting_question qi
  else if eqs (task_type qi) "scraping" then handle_scraping_task qi
  else if eqs (task_type qi) "audio" then handle_audio_question qi
  else handle_general_question qi.

End Answers.

(** *** extract_submit_url *)

Definition extract_submit_url (text origin : str) : str :=
  let urls := findall url_pattern text in
  let submit_urls := List.filter mentions_submit urls in
  match submit_urls with
  | u :: _ => u
  | [] => origin ++ lit "/submit"
  end.

(** [current_url.rsplit('/', 1)[0] if '/' in current_url else current_url] *)
Definition origin_of (current_url : str) : str :=
  if contains "/" current_url then rsplit1_head "/" current_url
  else current_url.

(** *** The submission payload and its JSON form *)

Record payload := {
  p_email : str;
  p_secret : str;
  p_url : str;
  p_answer : answer
}.

Definition hex_digit (n : Z) : ascii :=
  nth (Z.to_nat n) (lit "0123456789abcdef") "0"%char.

(** The escape [json.dumps] writes for one character of a string, with
    its default [ensure_ascii]. *)
Definition json_escape (c : ascii) : str :=
  if eqc c dquote then [chr 92; dquote]
  else if eqc c (chr 92) then [chr 92; chr 92]
  else if eqc c (chr 10) then [chr 92; "n"%char]
  else if eqc c (chr 13) then [chr 92; "r"%char]
  else if eqc c (chr 9) then [chr 92; "t"%char]
  else if eqc c (chr 8) then [chr 92; "b"%char]
  else if eqc c (chr 12) then [chr 92; "f"%char]
  else if between 32 126 c then [c]
  else [chr 92; "u"%char; "0"%char; "0"%char;
        hex_digit (ord c / 16); hex_digit (ord c mod 16)].

Definition json_string (s : str) : str := quoted (flat_map json_escape s).

Definition json_answer (a : answer) : str :=
  match a with
  | AInt n => str_of_int n
  | AStr s => json_string s
  end.

(** [json.dumps(payload)]; the text is ASCII, so its UTF-8 encoding has
    one byte for each character. *)
Definition json_dumps (p : payload) : str :=
  lit "{" ++ quoted "email" ++ lit ": " ++ json_string (p_email p) ++
  lit ", " ++ quoted "secret" ++ lit ": " ++ json_string (p_secret p) ++
  lit ", " ++ quoted "url" ++ lit ": " ++ json_string (p_url p) ++
  lit ", " ++ quoted "answer" ++ lit ": " ++ json_answer (p_answer p) ++
  lit "}".

Definition payload_size (p : payload) : Z := Z.of_nat (length (json_dumps p)).

(** [str(answer)] *)
Definition str_of_answer (a : answer) : str :=
  match a with
  | AInt n => str_of_int n
  | AStr s => s
  end.

(** The payload size check of [solve_quiz_chain]: one measurement, and
    the answer cut to 1000 characters when it exceeds the limit. *)
Definition check_payload_size (p : payload) : payload :=
  if Config.MAX_PAYLOAD_BYTES <? payload_size p
  then {| p_email := p_email p;
          p_secret := p_secret p;
          p_url := p_url p;
          p_answer := AStr (firstn 1000 (str_of_answer (p_answer p))) |}
  else p.

(** *** solve_quiz_chain

    The driver is run against a [World].  For the attempt numbered [i]
    the world gives what the driver observes during it: the clock read at
    the top of the loop, the length drawn for the sleep before the GET,
    what [get_instructions] does, the number drawn for the answer, what
    [requests.post] and [resp.json()] do, and what adding the jitter to
    the delay the grader asks for and sleeping that long do.  The sleeps
    only let time pass, which the next reading of the clock shows. *)

Inductive outcome (A : Type) :=
| Returns (a : A)
| Raises (msg : str).
Arguments Returns {A} a.
Arguments Raises {A} msg.

(** What [resp.json()] returns: [None], a [bool], an [int], a [float], a
    [str], a [list], or a [dict] with keys of type [str], given by its
    items, each key once. *)
Inductive pyfloat :=
| Finite (q : Q)
| Infinite (negative : bool)
| NaN.

#[local] Unset Elimination Schemes.
Inductive json :=
| JNull
| JBool (b : bool)
| JInt (n : Z)
| JFloat (x : pyfloat)
| JStr (s : str)
| JList (items : list json)
| JDict (items : list (str * json)).
#[local] Set Elimination Schemes.

(** [bool(v)] *)
Definition truth (v : json) : bool :=
  match v with
  | JNull => false
  | JBool b => b
  | JInt n => negb (n =? 0)
  | JFloat (Finite q) => negb (Qeq_bool q 0)
  | JFloat _ => true
  | JStr s => negb (eqs s [])
  | JList items => match items with [] => false | _ :: _ => true end
  | JDict items => match items with [] => false | _ :: _ => true end
  end.

(** [type(v).__name__] *)
Definition type_name (v : json) : str :=
  match v with
  | JNull => "NoneType"
  | JBool _ => "bool"
  | JInt _ => "int"
  | JFloat _ => "float"
  | JStr _ => "str"
  | JList _ => "list"
  | JDict _ => "dict"
  end.

Definition is_dict (v : json) : bool :=
  match v with JDict _ => true | _ => false end.

(** [str(e)] for the AttributeError that reading the attribute [name] of
    [v] raises. *)
Definition no_attribute (v : json) (name : str) : str :=
  lit "'" ++ type_name v ++ lit "' object has no attribute '" ++ name ++ lit "'".

(** [d.get(k)] for the dict of the items [items]: [None] for a key that
    is absent. *)
Fixpoint lookup (k : str) (items : list (str * json)) : json :=
  match items with
  | [] => JNull
  | (k', v) :: rest => if eqs k' k then v else lookup k rest
  end.

(** [v.get(k)]: only a dict has the method. *)
Definition get (v : json) (k : str) : outcome json :=
  match v with
  | JDict items => Returns (lookup k items)
  | _ => Raises (no_attribute v "get")
  end.

(** What an attempt observes.  [pace] is the length drawn for the sleep
    before the GET.  [refusal] is the text of the error with which the
    attempt ends when the current URL is not a string: [requests]
    prepares the URL from [str(url)] and refuses, before anything is
    sent, one without the scheme http, which the text of a number, of
    [True], of a list or of a dict never has, and [get_instructions]
    raises the refusal like every failure of the GET; for a number or
    [True] the attempt could not go on either way, the test
    ['/' in current_url] raising for them.  [pause] is what
    [result["delay"] + random.uniform(0.5, 2.0)] and [time.sleep] of the
    sum do: the addition raises for a delay that is not a number or is
    too large an [int], [time.sleep] for a negative length, for a NaN and
    for a length too large. *)
Record Attempt := {
  clock : Q;
  pace : Q;
  page : outcome str;
  refusal : str;
  draw : Z;
  response : outcome (Z * outcome json);
  pause : outcome unit
}.

Record World := {
  start_time : Q;
  hash : str -> Z;
  attempt : nat -> Attempt
}.

(** What the driver does to the outside: the GET of a page and the POST
    of a payload to a submit URL. *)
Inductive event :=
| Fetch (url : str)
| Post (submit_url : str) (p : payload).

(** An item of [results]. *)
Inductive entry :=
| Failed (url : json) (error : str)
| Submitted (url : json) (a : answer) (result : json).

Record state := {
  current_url : json;
  attempts : Z;
  results : list entry;
  trace : list event;
  running : bool
}.

Definition stop (st : state) : state :=
  {| current_url := current_url st; attempts := attempts st;
     results := results st; trace := trace st; running := false |}.

Definition emit (e : event) (st : state) : state :=
  {| current_url := current_url st; attempts := attempts st;
     results := results st; trace := trace st ++ [e]; running := running st |}.

Definition record_result (r : entry) (st : state) : state :=
  {| current_url := current_url st; attempts := attempts st;
     results := results st ++ [r]; trace := trace st; running := running st |}.

Definition move_to (u : json) (st : state) : state :=
  {| current_url := u; attempts := attempts st;
     results := results st; trace := trace st; running := running st |}.

Definition count_attempt (st : state) : state :=
  {| current_url := current_url st; attempts := attempts st + 1;
     results := results st; trace := trace st; running := running st |}.

(** The [except] clause: the error is recorded for the current URL and
    the loop is left. *)
Definition on_exception (msg : str) (st : state) : state :=
  stop (record_result (Failed (current_url st) msg) st).

(** The summary after the loop reads
    [r.get('result', {}).get('correct')] for every entry, in order: it
    raises at the first recorded result that is not a dict. *)
Fixpoint summary (es : list entry) : outcome unit :=
  match es with
  | [] => Returns tt
  | Failed _ _ :: rest => summary rest
  | Submitted _ _ result :: rest =>
      match get result "correct" with
      | Returns _ => summary rest
      | Raises e => Raises e
      end
  end.

Section Chain.

(** [extract_base64_instructions] decodes with the base64 and UTF-8
    codecs of the runtime and catches what they raise; the driver is
    embedded for any such function from the page to the instruction
    text. *)
Variable extract_base64_instructions : str -> str.

Variable w : World.

Variables (email secret : str) (max_attempts : Z).

Definition timed_out (now : Q) : bool :=
  negb (Qle_bool (now - start_time w) (inject_Z Config.TOTAL_WORK_TIMEOUT)).

(** After a correct answer with a next URL: the delay asked for, if
    any, is slept with the jitter added. *)
Definition respect_delay (a : Attempt) (items : list (str * json)) (st : state)
  : state :=
  if truth (lookup "delay" items)
  then match pause a with
       | Returns _ => st
       | Raises e => on_exception e st
       end
  else st.

(** What follows [result = resp.json()]: the submission is recorded,
    then the result is read with [get], which only a dict has. *)
Definition after_submission (a : Attempt) (url : str) (ans : answer)
  (result : json) (st : state) : state :=
  let st := record_result (Submitted (JStr url) ans result) st in
  match result with
  | JDict items =>
      if truth (lookup "correct" items) && truth (lookup "url" items)
      then respect_delay a items (move_to (lookup "url" items) st)
      else stop st
  | _ => on_exception (no_attribute result "get") st
  end.

(** The body of the [try], for the attempt [a]. *)
Definition attempt_body (a : Attempt) (st : state) : state :=
  match current_url st with
  | JStr url =>
      let st := emit (Fetch url) st in
      match page a with
      | Raises e => on_exception e st
      | Returns html_content =>
          let instructions_text := extract_base64_instructions html_content in
          let question_info :=
            set_current_url (parse_question instructions_text) url in
          let origin := origin_of url in
          let the_submit_url :=
            match submit_url question_info with
            | [] => extract_submit_url instructions_text origin
            | u => u
            end in
          let answer := generate_answer (hash w) (draw a) question_info in
          let payload :=
            check_payload_size
              {| p_email := email; p_secret := secret;
                 p_url := url; p_answer := answer |} in
          let st := emit (Post the_submit_url payload) st in
          match response a with
          | Raises e => on_exception e st
          | Returns (status_code, body) =>
              if negb (status_code =? 200)
              then stop (record_result
                           (Failed (JStr url)
                              (lit "HTTP " ++ str_of_int status_code)) st)
              else
                match body with
                | Raises e => on_exception e st
                | Returns result => after_submission a url answer result st
                end
          end
      end
  | _ => on_exception (refusal a) st
  end.

(** [while current_url and attempts < max_attempts] *)
Definition loop_condition (st : state) : bool :=
  truth (current_url st) && (attempts st <? max_attempts).

(** One turn of the loop: the test, the check of the total timeout, the
    count of the attempt, then the body. *)
Definition iteration (st : state) : state :=
  if negb (running st) then st
  else if negb (loop_condition st) then stop st
  else
    let a := attempt w (Z.to_nat (attempts st)) in
    if timed_out (clock a) then stop st
    else attempt_body a (count_attempt st).

Fixpoint run (fuel : nat) (st : state) : state :=
  match fuel with
  | O => st
  | S n => run n (iteration st)
  end.

Definition initial (url : str) : state :=
  {| current_url := JStr url; attempts := 0; results := []; trace := [];
     running := true |}.

(** The state in which the loop is left; [max_attempts] turns and the
    final test are enough for any world (see [chain_run_halts]). *)
Definition chain_run (url : str) : state :=
  run (S (Z.to_nat max_attempts)) (initial url).

(** [solve_quiz_chain(url, email, secret, max_attempts)]: the results,
    unless the summary after the loop raises. *)
Definition solve_quiz_chain (url : str) : outcome (list entry) :=
  let st := chain_run url in
  match summary (results st) with
  | Returns _ => Returns (results st)
  | Raises e => Raises e
  end.

End Chain.

(** *** POST /quiz *)

(** A task of [background_tasks]: the driver with the arguments it is to
    be called with, its [max_attempts] left to the default. *)
Inductive task :=
| SolveQuizChain (url email secret : str).

Definition default_max_attempts : Z := 5.

Definition run_task (extract_base64_instructions : str -> str) (w : World)
  (t : task) : outcome (list entry) :=
  match t with
  | SolveQuizChain url email secret =>
      solve_quiz_chain extract_base64_instructions w email secret
        default_max_attempts url
  end.

Inductive reply :=
| Respond (body : gmap string pyval)
| HTTPException (status_code : Z) (detail : gmap string pyval).

Definition solve_quiz (req : QuizRequest.t) (background_tasks : list task)
  : reply * list task :=
  if negb (verify_credentials (QuizRequest.email req) (QuizRequest.secret req))
  then
    (HTTPException 403
       {[ "error"%string := VStr "Invalid credentials";
          "expected_email"%string := VStr YOUR_EMAIL;
          "received_email"%string := VStr (QuizRequest.email req);
          "hint"%string :=
            VStr "Check your config.py file matches what you submitted in Google Form" ]},
     background_tasks)
  else
    (Respond
       {[ "status"%string := VStr "started";
          "message"%string :=
            VStr "Quiz processing started with intelligent answer generation";
          "initial_url"%string := VStr (QuizRequest.url req);
          "email"%string := VStr (QuizRequest.email req);
          "timeout_seconds"%string := VInt Config.TOTAL_WORK_TIMEOUT ]},
     background_tasks ++
       [SolveQuizChain (QuizRequest.url req) (QuizRequest.email req)
          (QuizRequest.secret req)]).

(** *** POST /test *)

Definition test_endpoint (req : QuizRequest.t) : reply :=
  if negb (verify_credentials (QuizRequest.email req) (QuizRequest.secret req))
  then
    HTTPException 403
      {[ "error"%string := VStr "Invalid credentials";
         "expected_email"%string := VStr YOUR_EMAIL;
         "received_email"%string := VStr (QuizRequest.email req);
         "hint"%string :=
           VStr "Check your config.py file matches what you submitted in Google Form" ]}
  else
    Respond
      {[ "status"%string := VStr "success";
         "message"%string := VStr "Credentials verified - API is working";
         "email"%string := VStr (QuizRequest.email req);
         "expected_email"%string := VStr YOUR_EMAIL;
         "secret_match"%string := VBool true;
         "config_source"%string := VStr "config.py" ]}.

(** *** POST /quiz-sync *)

(** The detail of an HTTP error: a dict, or a text. *)
Inductive http_detail :=
| DetailDict (d : gmap string pyval)
| DetailText (s : str).

Inductive sync_reply :=
| Returned (result : json)
| Raised (status_code : Z) (detail : http_detail).

(** [req.url.split("/demo")[0] if "/demo" in req.url else req.url] *)
Definition sync_origin (url : str) : str :=
  if contains "/demo" url then before_first "/demo" url else url.

Section Sync.

Variable extract_base64_instructions : str -> str.

(** [str(e)] for the HTTP error the handler raises itself on a status
    other than 200, as the web framework prints it. *)
Variable http_error_text : Z -> str -> str.

Variable hash : str -> Z.

(** The [except] clause of the handler. *)
Definition sync_failure (e : str) (done : list event) : sync_reply * list event :=
  (Raised 400 (DetailText (lit "Quiz processing failed: " ++ e)), done).

(** [solve_quiz_sync(req)], given what the one attempt observes: the
    reply, and what was done to the outside. *)
Definition solve_quiz_sync (req : QuizRequest.t) (a : Attempt)
  : sync_reply * list event :=
  let url := QuizRequest.url req in
  if negb (verify_credentials (QuizRequest.email req) (QuizRequest.secret req))
  then
    (Raised 403
       (DetailDict
          {[ "error"%string := VStr "Invalid credentials";
             "expected_email"%string := VStr YOUR_EMAIL;
             "received_email"%string := VStr (QuizRequest.email req) ]}),
     [])
  else
    match page a with
    | Raises e => sync_failure e [Fetch url]
    | Returns html_content =>
        let instructions_text := extract_base64_instructions html_content in
        let question_info :=
          set_current_url (parse_question instructions_text) url in
        let origin := sync_origin url in
        let the_submit_url :=
          match submit_url question_info with
          | [] => extract_submit_url instructions_text origin
          | u => u
          end in
        let answer := generate_answer hash (draw a) question_info in
        let payload :=
          {| p_email := QuizRequest.email req;
             p_secret := QuizRequest.secret req;
             p_url := url; p_answer := answer |} in
        let done := [Fetch url; Post the_submit_url payload] in
        match response a with
        | Raises e => sync_failure e done
        | Returns (status_code, body) =>
            if negb (status_code =? 200)
            then sync_failure
                   (http_error_text 400
                      (lit "Submission failed: " ++ str_of_int status_code))
                   done
            else
              match body with
              | Raises e => sync_failure e done
              | Returns result => (Returned result, done)
              end
        end
    end.

End Sync.

End Main.

Import Main.

(** ** Notions of the specification

    Definitions that follow the words of the specification, to which the
    definitions taken from the code are compared, and the notions in
    which the properties of the driver are stated. *)

Module Spec.

(** The number of positions of [s] at which [sub] occurs. *)
Fixpoint occurrences (sub s : str) : Z :=
  (if startswith sub s then 1 else 0) +
  match s with
  | [] => 0
  | _ :: s' => occurrences sub s'
  end.

(** The number of numeric substrings of [s]: the positions at which a
    digit stands that no digit precedes. *)
Fixpoint digit_runs (after_digit : bool) (s : str) : nat :=
  match s with
  | [] => O
  | c :: s' =>
      ((if isdigit c && negb after_digit then 1 else 0) +
       digit_runs (isdigit c) s')%nat
  end.

(** The digits a text starts with. *)
Fixpoint leading_digits (s : str) : str :=
  match s with
  | c :: s' => if isdigit c then c :: leading_digits s' else []
  | [] => []
  end.

(** The priority list of the task classification: the keywords of each
    rule and the task type it assigns. *)
Definition rules : list (list str * str) :=
  [ ([lit "download"; lit "file"; lit ".pdf"; lit ".csv"], lit "file_download");
    ([lit "sum"; lit "total"; lit "add"; lit "calculate"], lit "sum_calculation");
    ([lit "api"], lit "api_call");
    ([lit "scrape"; lit "extract"; lit "parse"], lit "scraping");
    ([lit "count"; lit "number of"], lit "counting");
    ([lit "audio"; lit "sound"; lit "listen"], lit "audio") ].

(** The task type of the first rule one of whose keywords occurs. *)
Fixpoint first_rule (rs : list (list str * str)) (text_lower : str) : str :=
  match rs with
  | [] => lit "general"
  | (words, ty) :: rest =>
      if any_in words text_lower then ty else first_rule rest text_lower
  end.

(** The bytes of the payload around its answer: the keys, the
    punctuation and the three other values. *)
Definition frame_size (p : payload) : Z :=
  payload_size p - Z.of_nat (length (json_answer (p_answer p))).

(** The number of GETs among the events [t]. *)
Definition fetches (t : list event) : nat :=
  length (List.filter
            (fun e => match e with Fetch _ => true | Post _ _ => false end) t).

(** The number of pages the driver has fetched. *)
Definition fetch_count (st : state) : Z := Z.of_nat (fetches (trace st)).



(** The number of words of [s], the parts of [s] between white space,
    that are [w]. *)
Definition word_occurrences (w s : str) : Z :=
  Z.of_nat (length (List.filter (eqs w) (split_ws s))).

(** The sum of the character codes of [s]. *)
Fixpoint code_sum (s : str) : Z :=
  match s with
  | [] => 0
  | c :: s' => Z.of_nat (nat_of_ascii c) + code_sum s'
  end.

(** A character that is ASCII and not white space. *)
Definition solid (c : ascii) : bool := is_ascii c && negb (isspace c).

(** The texts a pattern matches, with the text of its group: [w] is in
    the language of [pat], and [g] is the part of [w] its group took. *)
Fixpoint matches (pat : list rx) (w : str) (g : option str) : Prop :=
  match pat with
  | [] => w = [] /\ g = None
  | Lit l :: pat' => exists w', w = l ++ w' /\ matches pat' w' g
  | Opt c :: pat' =>
      matches pat' w g \/ exists w', w = c :: w' /\ matches pat' w' g
  | Star p :: pat' =>
      exists u w', w = u ++ w' /\ forallb p u = true /\ matches pat' w' g
  | Plus p :: pat' =>
      exists u w', w = u ++ w' /\ u <> [] /\ forallb p u = true /\
                   matches pat' w' g
  | Group p :: pat' =>
      exists u w' g', w = u ++ w' /\ u <> [] /\ forallb p u = true /\
                      g = Some u /\ matches pat' w' g'
  | Alt ls :: pat' =>
      exists l w', In l ls /\ w = l ++ w' /\ matches pat' w' g
  end.

(** [s] ends with [e]. *)
Definition endswith (e s : str) : Prop := exists pre, s = pre ++ e.

(** The items of a dict after masking: the value of the key secret, when
    the key is present, is the text of four stars. *)
Definition masked (d : gmap string pyval) : gmap string pyval :=
  if bool_decide (is_Some (d !! "secret"%string))
  then <["secret"%string := VStr (lit "****")]> d
  else d.

(** The URL the driver posts to for the instruction text of the page at
    [url]. *)
Definition submit_target (instructions_text url : str) : str :=
  match submit_url (parse_question instructions_text) with
  | [] => extract_submit_url instructions_text (origin_of url)
  | u => u
  end.

(** The URL the synchronous endpoint posts to for the instruction text of
    the page at [url]. *)
Definition sync_target (instructions_text url : str) : str :=
  match submit_url (parse_question instructions_text) with
  | [] => extract_submit_url instructions_text (sync_origin url)
  | u => u
  end.

(** A reply that is not an HTTP error. *)
Definition accepted (r : reply) : bool :=
  match r with
  | Respond _ => true
  | HTTPException _ _ => false
  end.

(** The answer the driver generates for the instruction text of the page
    at [url]. *)
Definition planned_answer (hash : str -> Z) (draw : Z)
  (instructions_text url : str) : answer :=
  generate_answer hash draw
    (set_current_url (parse_question instructions_text) url).

(** A grader answer after which the driver goes on: a JSON object whose
    [correct] and [url] are both true as conditions. *)
Definition continuing (r : json) : bool :=
  match r with
  | JDict items =>
      truth (lookup (lit "correct") items) && truth (lookup (lit "url") items)
  | _ => false
  end.

(** The next URL a grader answer names. *)
Definition next_url (r : json) : json :=
  match r with
  | JDict items => lookup (lit "url") items
  | _ => JNull
  end.

(** An entry after which the driver goes on. *)
Definition goes_on (e : entry) : Prop :=
  match e with
  | Submitted _ _ r => continuing r = true
  | Failed _ _ => False
  end.

(** The URL the driver is at after the entries [es], having started at
    [u]. *)
Fixpoint last_url (u : json) (es : list entry) : json :=
  match es with
  | [] => u
  | Submitted _ _ r :: rest => last_url (next_url r) rest
  | Failed _ _ :: rest => last_url u rest
  end.

(** The entries form a chain from [u]: the first entry is for [u]; a
    failure is the last entry; a submission is followed by another entry
    only when the grader found it correct and named a next URL, and what
    follows is a chain from that URL. *)
Fixpoint linked (u : json) (es : list entry) : Prop :=
  match es with
  | [] => True
  | Failed u' _ :: rest => u' = u /\ rest = []
  | Submitted u' _ r :: rest =>
      u' = u /\
      (rest = [] \/ (continuing r = true /\ linked (next_url r) rest))
  end.

(** What the last attempt, made at [u], leaves in the results when the
    loop is left with it: an error; or a submission answered with a JSON
    object; or such a submission and the error raised by the sleep of
    the delay, recorded for the next URL; or a submission answered with
    JSON that is not an object and the error of reading it, recorded for
    the same URL. *)
Inductive last_entries (u : json) : list entry -> Prop :=
| entries_failed (e : str) :
    last_entries u [Failed u e]
| entries_submitted (a : answer) (items : list (str * json)) :
    last_entries u [Submitted u a (JDict items)]
| entries_pause_failed (a : answer) (r : json) (e : str) :
    continuing r = true ->
    last_entries u [Submitted u a r; Failed (next_url r) e]
| entries_not_object (a : answer) (v : json) :
    is_dict v = false ->
    last_entries u [Submitted u a v; Failed u (no_attribute v (lit "get"))].

End Spec.

(** ** Inputs used as examples *)

Module Examples.

(** A request whose credentials are the configured ones with white space
    around them. *)
Definition padded_request : QuizRequest.t :=
  {| QuizRequest.email := lit " 22f1000912@ds.study.iitm.ac.in";
     QuizRequest.secret := lit "MONAHARINIR0802 ";
     QuizRequest.url := lit "https://example.com/quiz" |}.

Definition exact_request : QuizRequest.t :=
  {| QuizRequest.email := lit "22f1000912@ds.study.iitm.ac.in";
     QuizRequest.secret := lit "MONAHARINIR0802";
     QuizRequest.url := lit "https://example.com/quiz" |}.

Definition wrong_request : QuizRequest.t :=
  {| QuizRequest.email := lit "someone@example.com";
     QuizRequest.secret := lit "MONAHARINIR0802";
     QuizRequest.url := lit "https://example.com/quiz" |}.

(** The JSON-style embedding of the secret XYZ123. *)
Definition xyz_needle : str :=
  quoted "secret" ++ lit ": " ++ quoted "XYZ123".

(** A document with two JSON-style secrets, XYZ123 being the second. *)
Definition two_secrets_html : str :=
  lit "{" ++ quoted "secret" ++ lit ": " ++ quoted "ABC" ++ lit ", " ++
  xyz_needle ++ lit "}".

(** A document whose JSON-style secret is white space only, followed by
    a secret in the query-parameter style. *)
Definition blank_secret_html : str :=
  lit "{" ++ quoted "secret" ++ lit ": " ++ quoted "   " ++ lit "} secret=abc".

(** A page without any submit, answer, upload, api or quiz URL. *)
Definition plain_text : str := lit "Solve the task and send the result".
Definition plain_html : str := lit "<p>Solve the task and send the result</p>".
Definition plain_hrefs : list str := [lit "https://example.com/about"].
Definition page_url : str := lit "https://example.com/tasks/7".

(** A text whose only URL has the word submit in its query. *)
Definition submit_query_text : str :=
  lit "Send it to https://example.com/form?submit=now today".

(** A payload whose URL alone has as many characters as the limit has
    bytes. *)
Definition long_url : str :=
  repeat "a"%char (Z.to_nat Config.MAX_PAYLOAD_BYTES).


(** A payload whose answer alone has as many characters as the limit has
    bytes. *)
Definition long_answer_payload : payload :=
  {| p_email := Config.QUIZ_EMAIL; p_secret := Config.QUIZ_SECRET;
     p_url := lit "https://example.com/tasks/7";
     p_answer := AStr (repeat "x"%char (Z.to_nat Config.MAX_PAYLOAD_BYTES)) |}.

Definition small_payload : payload :=
  {| p_email := Config.QUIZ_EMAIL; p_secret := Config.QUIZ_SECRET;
     p_url := lit "https://example.com/tasks/7"; p_answer := AInt 42 |}.

(** The answer of a grader that finds the answer correct and names a
    next URL. *)
Definition correct_with_next : json :=
  JDict [(lit "correct", JBool true);
         (lit "url", JStr (lit "https://example.com/tasks/8"))].

Definition next_page_text : str :=
  lit "Please sum the numbers of the table below.".

(** A world in which every attempt is within the time budget and
    answered as correct, with a next URL. *)
Definition next_page : Attempt :=
  {| clock := 10;
     pace := 3;
     page := Returns next_page_text;
     refusal := lit "400: Fetch failed: Invalid URL";
     draw := 7;
     response := Returns (200, Returns correct_with_next);
     pause := Returns tt |}.

Definition endless_world : World :=
  {| start_time := 0; hash := fun _ => 41; attempt := fun _ => next_page |}.





(** A world whose pages carry a secret of their own. *)
Definition decoy_page : Attempt :=
  {| clock := 10;
     pace := 3;
     page := Returns (lit "Count the rows. " ++ xyz_needle ++ lit " secret=OTHER");
     refusal := refusal next_page;
     draw := 3;
     response := response next_page;
     pause := Returns tt |}.

Definition decoy_world : World :=
  {| start_time := 0; hash := fun _ => 41; attempt := fun _ => decoy_page |}.

(** A text of the type count in which the word the stands once. *)
Definition themes_text : str :=
  lit "Count the other theme. Then gather them there.".

Definition my_email : str := lit "me@example.com".
Definition my_secret : str := lit "s3cr3t".

(** The pages are taken as their own instruction text. *)
Definition plain_instructions (html_content : str) : str := html_content.

(** A page with a data link, a submit link and an API link. *)
Definition linked_html : str :=
  lit "<a href='https://example.com/data/report.csv?x=1'>data</a> " ++
  lit "<form action='https://example.com/api/v1/submit-form'>".

Definition linked_hrefs : list str :=
  [[]; lit "https://example.com/about"; lit "https://example.com/upload/7";
   lit "https://example.com/submit"].

(** A world whose grader answers every submission as correct, names a
    next URL and asks for a negative delay, which [time.sleep]
    refuses. *)
Definition hasty_page : Attempt :=
  {| clock := 10;
     pace := 3;
     page := page next_page;
     refusal := refusal next_page;
     draw := 7;
     response :=
       Returns (200, Returns
                       (JDict [(lit "correct", JBool true);
                               (lit "url", JStr (lit "https://example.com/tasks/8"));
                               (lit "delay", JInt (-5))]));
     pause := Raises (lit "sleep length must be non-negative") |}.

Definition hasty_world : World :=
  {| start_time := 0; hash := fun _ => 41; attempt := fun _ => hasty_page |}.

(** A world whose grader answers with a JSON array. *)
Definition array_page : Attempt :=
  {| clock := 10;
     pace := 3;
     page := page next_page;
     refusal := refusal next_page;
     draw := 7;
     response := Returns (200, Returns (JList [JBool true]));
     pause := Returns tt |}.

Definition array_world : World :=
  {| start_time := 0; hash := fun _ => 41; attempt := fun _ => array_page |}.

(** A world whose grader names a number as the next URL. *)
Definition numbered_page : Attempt :=
  {| clock := 10;
     pace := 3;
     page := page next_page;
     refusal := refusal next_page;
     draw := 7;
     response :=
       Returns (200, Returns (JDict [(lit "correct", JBool true);
                                     (lit "url", JInt 5)]));
     pause := Returns tt |}.

Definition numbered_world : World :=
  {| start_time := 0; hash := fun _ => 41; attempt := fun _ => numbered_page |}.

(** An attempt whose page has no submit URL and whose submission the
    grader accepts. *)
Definition graded_page : Attempt :=
  {| clock := 10;
     pace := 3;
     page := Returns plain_text;
     refusal := refusal next_page;
     draw := 7;
     response := Returns (200, Returns (JDict [(lit "correct", JBool true)]));
     pause := Returns tt |}.

(** An attempt whose submission the grader answers with status 500. *)
Definition refused_page : Attempt :=
  {| clock := 10;
     pace := 3;
     page := Returns plain_text;
     refusal := refusal next_page;
     draw := 7;
     response := Returns (500, Raises (lit "Expecting value"));
     pause := Returns tt |}.

(** [str(e)] of an HTTP error, as its status and its detail. *)
Definition status_and_detail (status_code : Z) (detail : str) : str :=
  str_of_int status_code ++ lit ": " ++ detail.


End Examples.

(** * Properties *)

(** ** Facts on the string primitives *)

Section StringFacts.

Lemma eqc_eq (a b : ascii) : eqc a b = true <-> a = b.
Proof. unfold eqc. apply Ascii.eqb_eq. Qed.

Lemma eqc_refl (a : ascii) : eqc a a = true.
Proof. apply eqc_eq. reflexivity. Qed.

Lemma eqs_eq (a b : str) : eqs a b = true <-> a = b.
Proof.
  revert b. induction a as [|x a IH]; intros [|y b]; simpl; split;
    try congruence; try reflexivity.
  - intros H. apply andb_true_iff in H as [Hx Hs].
    apply eqc_eq in Hx. apply IH in Hs. congruence.
  - intros H. injection H as -> ->. rewrite eqc_refl. simpl. apply IH. reflexivity.
Qed.

Lemma eqs_refl (a : str) : eqs a a = true.
Proof. apply eqs_eq. reflexivity. Qed.

Lemma eqs_neq (a b : str) : eqs a b = false <-> a <> b.
Proof.
  split.
  - intros H E. apply eqs_eq in E. congruence.
  - intros H. destruct (eqs a b) eqn:E; [|reflexivity].
    apply eqs_eq in E. contradiction.
Qed.

Lemma startswith_app (p s : str) : startswith p (p ++ s) = true.
Proof. induction p as [|x p IH]; simpl; [reflexivity|]. rewrite eqc_refl. exact IH. Qed.

Lemma startswith_iff (p s : str) :
  startswith p s = true <-> exists t, s = p ++ t.
Proof.
  split.
  - revert s. induction p as [|x p IH]; intros s H.
    + exists s. reflexivity.
    + destruct s as [|y s]; simpl in H; [discriminate|].
      apply andb_true_iff in H as [Hx Hs]. apply eqc_eq in Hx. subst y.
      destruct (IH _ Hs) as [t ->]. exists t. reflexivity.
  - intros [t ->]. apply startswith_app.
Qed.

Lemma contains_here (sub s : str) :
  startswith sub s = true -> contains sub s = true.
Proof. intros H. destruct s; simpl; rewrite H; reflexivity. Qed.

Lemma contains_later (sub : str) (c : ascii) (s : str) :
  contains sub s = true -> contains sub (c :: s) = true.
Proof. intros H. simpl. rewrite H. apply orb_true_r. Qed.

Lemma contains_iff (sub s : str) :
  contains sub s = true <-> exists a b, s = a ++ sub ++ b.
Proof.
  split.
  - induction s as [|c s IH]; simpl; intros H.
    + rewrite orb_false_r in H. apply startswith_iff in H as [t ->].
      exists [], t. reflexivity.
    + apply orb_true_iff in H as [H|H].
      * apply startswith_iff in H as [t ->]. exists [], t. reflexivity.
      * destruct (IH H) as (a & b & ->). exists (c :: a), b. reflexivity.
  - intros (a & b & ->). induction a as [|c a IH].
    + apply contains_here. apply (startswith_app sub b).
    + apply (contains_later sub c (a ++ sub ++ b)), IH.
Qed.

Lemma lower_app (a b : str) : lower (a ++ b) = lower a ++ lower b.
Proof. apply map_app. Qed.

End StringFacts.

(** ** mask_secret *)

Section MaskSecret.

Lemma fresh_ref_unused (h : store) : h !! fresh (dom h) = None.
Proof. apply not_elem_of_dom. apply is_fresh. Qed.

(** C10. [mask_secret] returns a dict object that is new to the store; it
    holds the items of the input, with the value of the key [secret], when
    the key is present, replaced by the text of four stars; a payload
    without that key is copied as it is; and the input object, like every
    other object of the store, is left as it was. *)
Theorem mask_secret_frame (h : store) (payload : ref) (d : gmap string pyval) :
  h !! payload = Some d ->
  exists out h' d',
    Utils.mask_secret h payload = Some (out, h') /\
    h !! out = None /\ out <> payload /\
    h' !! out = Some d' /\
    h' !! payload = Some d /\
    (forall r, r <> out -> h' !! r = h !! r) /\
    (forall k, k <> "secret" -> d' !! k = d !! k) /\
    (is_Some (d !! "secret") -> d' !! "secret" = Some (VStr (lit "****"))) /\
    (d !! "secret" = None -> d' = d).
Proof.
  intros Hd. unfold Utils.mask_secret, dict_copy. rewrite Hd.
  set (out := fresh (dom h)).
  assert (Hout : h !! out = None) by apply fresh_ref_unused.
  assert (Hne : out <> payload) by (intros ->; congruence).
  unfold dict_has, dict_set. rewrite lookup_insert_eq.
  destruct (bool_decide (is_Some (d !! "secret"))) eqn:Hs.
  - apply bool_decide_eq_true in Hs.
    exists out, (<[out := <["secret" := VStr (lit "****")]> d]> (<[out := d]> h)),
      (<["secret" := VStr (lit "****")]> d).
    repeat split; auto.
    + apply lookup_insert_eq.
    + rewrite !lookup_insert_ne by done. exact Hd.
    + intros r Hr. rewrite !lookup_insert_ne by done. reflexivity.
    + intros k Hk. rewrite lookup_insert_ne by done. reflexivity.
    + intros _. apply lookup_insert_eq.
    + intros Hn. rewrite Hn in Hs. destruct Hs as [? ?]. discriminate.
  - apply bool_decide_eq_false in Hs.
    exists out, (<[out := d]> h), d.
    repeat split; auto.
    + apply lookup_insert_eq.
    + rewrite lookup_insert_ne by done. exact Hd.
    + intros r Hr. rewrite lookup_insert_ne by done. reflexivity.
    + intros Hsome. contradiction.
Qed.

Lemma mask_secret_frame_witness :
  exists out h' d',
    Utils.mask_secret
      {[ 1%positive := {[ "secret" := VStr (lit "s3cr3t"); "email" := VStr (lit "a@b") ]} ]}
      1%positive = Some (out, h') /\
    h' !! out = Some d' /\
    d' !! "secret" = Some (VStr (lit "****")) /\
    d' !! "email" = Some (VStr (lit "a@b")) /\
    h' !! 1%positive =
      Some {[ "secret" := VStr (lit "s3cr3t"); "email" := VStr (lit "a@b") ]}.
Proof.
  destruct (mask_secret_frame
              {[ 1%positive := {[ "secret" := VStr (lit "s3cr3t"); "email" := VStr (lit "a@b") ]} ]}
              1%positive
              {[ "secret" := VStr (lit "s3cr3t"); "email" := VStr (lit "a@b") ]})
    as (out & h' & d' & Hm & _ & _ & Hout & Hin & _ & Hk & Hs & _).
  - reflexivity.
  - exists out, h', d'. split; [exact Hm|]. split; [exact Hout|].
    split; [apply Hs; eexists; reflexivity|].
    split; [rewrite Hk by done; reflexivity|exact Hin].
Defined.

End MaskSecret.

(** ** POST /quiz *)

Section Endpoint.

Lemma verify_credentials_iff (email secret : str) :
  verify_credentials email secret = true <->
  strip email = YOUR_EMAIL /\ strip secret = YOUR_SECRET.
Proof.
  unfold verify_credentials. cbv zeta.
  rewrite andb_true_iff, !eqs_eq. reflexivity.
Qed.

(** C8, as stated, fails: credentials that differ from the configured
    ones by surrounding white space are accepted, and the chain is
    enqueued with them. *)
Lemma solve_quiz_accepts_padded_credentials :
  QuizRequest.email Examples.padded_request <> YOUR_EMAIL /\
  QuizRequest.secret Examples.padded_request <> YOUR_SECRET /\
  exists body,
    solve_quiz Examples.padded_request [] =
      (Respond body,
       [SolveQuizChain (lit "https://example.com/quiz")
          (lit " 22f1000912@ds.study.iitm.ac.in") (lit "MONAHARINIR0802 ")]).
Proof.
  split; [|split].
  - apply eqs_neq. vm_compute. reflexivity.
  - apply eqs_neq. vm_compute. reflexivity.
  - eexists. reflexivity.
Qed.

(** C8, amended. The email and the secret of the request are compared,
    after removal of the white space around them, with the configured
    values by equality of strings. When the comparison fails the reply is
    the HTTP error 403, whose detail names the expected and the received
    email, and no task is enqueued; when it succeeds the driver is
    enqueued once, with the URL, email and secret of the request as they
    were received, and the reply is the acknowledgement with the status
    started, the initial URL, the email and the timeout. *)
Theorem solve_quiz_spec (req : QuizRequest.t) (background_tasks : list task) :
  let email := QuizRequest.email req in
  let secret := QuizRequest.secret req in
  (verify_credentials email secret = true <->
   strip email = YOUR_EMAIL /\ strip secret = YOUR_SECRET) /\
  (verify_credentials email secret = false ->
   exists detail,
     solve_quiz req background_tasks =
       (HTTPException 403 detail, background_tasks) /\
     detail !! "expected_email" = Some (VStr YOUR_EMAIL) /\
     detail !! "received_email" = Some (VStr email)) /\
  (verify_credentials email secret = true ->
   exists body,
     solve_quiz req background_tasks =
       (Respond body,
        background_tasks ++ [SolveQuizChain (QuizRequest.url req) email secret]) /\
     body !! "status" = Some (VStr (lit "started")) /\
     body !! "initial_url" = Some (VStr (QuizRequest.url req)) /\
     body !! "email" = Some (VStr email) /\
     body !! "timeout_seconds" = Some (VInt Config.TOTAL_WORK_TIMEOUT)).
Proof.
  intros email secret. split; [apply verify_credentials_iff|]. split.
  - intros Hv. unfold solve_quiz. fold email secret. rewrite Hv. simpl negb. cbv iota.
    eexists. split; [reflexivity|]. split; reflexivity.
  - intros Hv. unfold solve_quiz. fold email secret. rewrite Hv. simpl negb. cbv iota.
    eexists. split; [reflexivity|]. repeat split; reflexivity.
Qed.

Lemma solve_quiz_spec_witness :
  (exists detail,
     solve_quiz Examples.wrong_request [] = (HTTPException 403 detail, []) /\
     detail !! "received_email" = Some (VStr (lit "someone@example.com"))) /\
  (exists body,
     solve_quiz Examples.exact_request [] =
       (Respond body,
        [SolveQuizChain (lit "https://example.com/quiz")
           (lit "22f1000912@ds.study.iitm.ac.in") (lit "MONAHARINIR0802")]) /\
     body !! "status" = Some (VStr (lit "started"))).
Proof.
  split.
  - destruct (solve_quiz_spec Examples.wrong_request []) as (_ & Hno & _).
    destruct Hno as (detail & Hr & _ & Hrecv); [vm_compute; reflexivity|].
    exists detail. split; [exact Hr|exact Hrecv].
  - destruct (solve_quiz_spec Examples.exact_request []) as (_ & _ & Hyes).
    destruct Hyes as (body & Hr & Hst & _); [vm_compute; reflexivity|].
    exists body. split; [exact Hr|exact Hst].
Defined.

End Endpoint.

(** ** Secret extraction of the rendering-based solver *)

Section Secrets.

Import Solver.

Lemma search_here (pat : list rx) (s : str) (m : rmatch) :
  match_here pat s = Some m -> search pat s = Some m.
Proof. intros H. destruct s; simpl; rewrite H; reflexivity. Qed.

Lemma search_next (pat : list rx) (c : ascii) (s : str) :
  match_here pat (c :: s) = None -> search pat (c :: s) = search pat s.
Proof. intros H. simpl. rewrite H. reflexivity. Qed.

(** The search passes over the positions at which the pattern does not
    match. *)
Lemma search_skipn (pat : list rx) (n : nat) : forall s : str,
  (n <= length s)%nat ->
  (forall i, (i < n)%nat -> match_here pat (skipn i s) = None) ->
  search pat s = search pat (skipn n s).
Proof.
  induction n as [|n IH]; intros s Hn Hnone; [reflexivity|].
  destruct s as [|c s]; [simpl in Hn; lia|].
  rewrite search_next by (apply (Hnone O); lia).
  simpl skipn. apply IH; [simpl in Hn; lia|].
  intros i Hi. apply (Hnone (S i)). lia.
Qed.

Lemma match_here_lit_fails (l : str) (pat : list rx) (s : str) :
  startswith l s = false -> match_here (Lit l :: pat) s = None.
Proof. intros H. simpl. rewrite H. reflexivity. Qed.

Lemma first_secret_decided (html : str) (pat : list rx) (m : rmatch) :
  forall before after,
  (forall q, In q before -> search q html = None) ->
  search pat html = Some m ->
  first_secret (before ++ pat :: after) html = Some (strip (group1 m)).
Proof.
  induction before as [|q before IH]; intros after Hb Hm; simpl.
  - rewrite Hm. reflexivity.
  - rewrite (Hb q) by (left; reflexivity).
    apply IH; [|exact Hm]. intros q' Hq'. apply Hb. right. exact Hq'.
Qed.

Lemma first_secret_none (html : str) : forall pats,
  (forall q, In q pats -> search q html = None) ->
  first_secret pats html = None.
Proof.
  induction pats as [|q pats IH]; intros Hn; simpl; [reflexivity|].
  rewrite (Hn q) by (left; reflexivity).
  apply IH. intros q' Hq'. apply Hn. right. exact Hq'.
Qed.

Lemma extract_secret_cases (html : str) :
  (first_secret secret_patterns html = None /\
   extract_secret html = UNKNOWN_SECRET) \/
  (first_secret secret_patterns html = Some [] /\
   extract_secret html = UNKNOWN_SECRET) \/
  (exists c s, first_secret secret_patterns html = Some (c :: s) /\
               extract_secret html = c :: s).
Proof.
  unfold extract_secret.
  destruct (first_secret secret_patterns html) as [[|c s]|].
  - right. left. split; reflexivity.
  - right. right. exists c, s. split; reflexivity.
  - left. split; reflexivity.
Qed.

Lemma extract_secret_nonempty (html : str) : extract_secret html <> [].
Proof.
  destruct (extract_secret_cases html) as [[_ ->]|[[_ ->]|(c & s & _ & ->)]];
    discriminate.
Qed.

Lemma extract_secret_decided (html : str) (pat : list rx) (m : rmatch)
  (before after : list (list rx)) :
  secret_patterns = before ++ pat :: after ->
  (forall q, In q before -> search q html = None) ->
  search pat html = Some m ->
  extract_secret html =
    if eqs (strip (group1 m)) [] then UNKNOWN_SECRET else strip (group1 m).
Proof.
  intros Hp Hb Hm. unfold extract_secret. rewrite Hp.
  rewrite (first_secret_decided html pat m before after Hb Hm).
  destruct (strip (group1 m)); reflexivity.
Qed.

(** C9. The secret the rendering-based solver returns is never the empty
    string: when the first pattern found in the page captures only white
    space, so that the stripped group is empty, the secret is the
    sentinel, whatever the later patterns would find. *)
Theorem solver_secret_never_empty (url : str) (page : Page) :
  secret_of (solve_quiz_page url page) <> [] /\
  (forall pat m before after,
     secret_patterns = before ++ pat :: after ->
     (forall q, In q before -> search q (html page) = None) ->
     search pat (html page) = Some m ->
     strip (group1 m) = [] ->
     secret_of (solve_quiz_page url page) = UNKNOWN_SECRET).
Proof.
  split.
  - apply extract_secret_nonempty.
  - intros pat m before after Hp Hb Hm Hs. simpl.
    rewrite (extract_secret_decided _ pat m before after Hp Hb Hm), Hs.
    reflexivity.
Qed.

Lemma solver_secret_never_empty_witness :
  secret_of
    (solve_quiz_page (lit "https://example.com/q")
       {| html := Examples.blank_secret_html; text := lit "hello";
          hrefs := []; scripts := [] |}) = UNKNOWN_SECRET.
Proof.
  refine (proj2 (solver_secret_never_empty _ _)
            (hd [] secret_patterns)
            (quoted "secret" ++ lit ": " ++ quoted "   ", Some (lit "   "))
            [] (tl secret_patterns) _ _ _ _).
  - reflexivity.
  - intros q [].
  - vm_compute. reflexivity.
  - vm_compute. reflexivity.
Defined.

(** C4, as stated, fails: a document that contains the JSON-style secret
    XYZ123 after another JSON-style secret yields the earlier one. *)
Lemma extract_secret_earlier_match_wins :
  contains Examples.xyz_needle Examples.two_secrets_html = true /\
  extract_secret Examples.two_secrets_html = lit "ABC" /\
  extract_secret Examples.two_secrets_html <> lit "XYZ123".
Proof.
  split; [vm_compute; reflexivity|].
  split; [vm_compute; reflexivity|].
  apply eqs_neq. vm_compute. reflexivity.
Qed.

Lemma xyz_needle_matches (post : str) :
  match_here (hd [] secret_patterns) (Examples.xyz_needle ++ post) =
    Some (Examples.xyz_needle, Some (lit "XYZ123")).
Proof. vm_compute. reflexivity. Qed.

(** The secret is XYZ123 when the JSON-style pattern matches at no
    position before an occurrence of the JSON-style secret XYZ123. *)
Lemma extract_secret_leftmost (pre post : str) :
  (forall i, (i < length pre)%nat ->
     match_here (hd [] secret_patterns)
       (skipn i (pre ++ Examples.xyz_needle ++ post)) = None) ->
  extract_secret (pre ++ Examples.xyz_needle ++ post) = lit "XYZ123".
Proof.
  intros Hnone.
  assert (Hs : search (hd [] secret_patterns) (pre ++ Examples.xyz_needle ++ post) =
               Some (Examples.xyz_needle, Some (lit "XYZ123"))).
  { rewrite (search_skipn _ (length pre)); [| |exact Hnone].
    - rewrite drop_app_length. apply search_here, xyz_needle_matches.
    - rewrite length_app. lia. }
  rewrite (extract_secret_decided _ _ _ [] (tl secret_patterns) eq_refl
             (fun q (H : In q []) => match H with end) Hs).
  vm_compute. reflexivity.
Qed.

(** In particular when the quoted key does not occur before the
    occurrence considered. *)
Lemma extract_secret_first_key (pre post : str) :
  (forall i, (i < length pre)%nat ->
     startswith (quoted "secret")
       (skipn i (pre ++ Examples.xyz_needle ++ post)) = false) ->
  extract_secret (pre ++ Examples.xyz_needle ++ post) = lit "XYZ123".
Proof.
  intros Hk. apply extract_secret_leftmost.
  intros i Hi. apply match_here_lit_fails, Hk, Hi.
Qed.

(** C4, amended. (1) When the JSON-style pattern has no match that starts
    before an occurrence of the JSON-style secret XYZ123, the secret is
    XYZ123. (2) When none of the five patterns is found, the secret is
    the sentinel. (3) In all cases the first pattern, in the order of the
    list, that is found in the document decides: the secret is its first
    group, stripped, or the sentinel when the stripped group is empty.
    The extraction is a total function: it raises nothing. *)
Theorem extract_secret_spec (html : str) :
  (forall pre post,
     html = pre ++ Examples.xyz_needle ++ post ->
     (forall i, (i < length pre)%nat ->
        match_here (hd [] secret_patterns) (skipn i html) = None) ->
     extract_secret html = lit "XYZ123") /\
  ((forall pat, In pat secret_patterns -> search pat html = None) ->
   extract_secret html = UNKNOWN_SECRET) /\
  (forall pat m before after,
     secret_patterns = before ++ pat :: after ->
     (forall q, In q before -> search q html = None) ->
     search pat html = Some m ->
     extract_secret html =
       if eqs (strip (group1 m)) [] then UNKNOWN_SECRET else strip (group1 m)).
Proof.
  split; [|split].
  - intros pre post -> Hnone. apply extract_secret_leftmost, Hnone.
  - intros Hn. unfold extract_secret.
    rewrite (first_secret_none html secret_patterns Hn). reflexivity.
  - intros pat m before after. apply extract_secret_decided.
Qed.

Lemma extract_secret_spec_witness :
  extract_secret (lit "<p>hello</p> " ++ Examples.xyz_needle ++ lit " bye") =
    lit "XYZ123" /\
  extract_secret (lit "no credentials here") = UNKNOWN_SECRET.
Proof.
  split.
  - apply (proj1 (extract_secret_spec _) (lit "<p>hello</p> ") (lit " bye") eq_refl).
    intros i Hi.
    do 13 (destruct i as [|i]; [vm_compute; reflexivity|]).
    simpl in Hi. lia.
  - apply (proj1 (proj2 (extract_secret_spec _))).
    intros pat Hp. simpl in Hp.
    repeat (destruct Hp as [<-|Hp]; [vm_compute; reflexivity|]).
    destruct Hp.
Defined.

End Secrets.

(** ** Answers of the rendering-based solver *)

Section SolverAnswers.

Import Solver.

Lemma count_the_occurrences_aux (n : nat) : forall s : str,
  (length s <= n)%nat ->
  count (lit "the") s = Spec.occurrences (lit "the") s.
Proof.
  induction n as [|n IH]; intros s Hn.
  - destruct s; [reflexivity|simpl in Hn; lia].
  - destruct s as [|c s]; [reflexivity|].
    destruct (startswith (lit "the") (c :: s)) eqn:Hst.
    + apply startswith_iff in Hst as [t Ht]. cbn in Ht.
      injection Ht as -> ->.
      change (1 + count (lit "the") t = 1 + (0 + (0 + Spec.occurrences (lit "the") t))).
      rewrite IH; [lia|]. simpl in Hn. lia.
    + unfold count. cbn [count_from Spec.occurrences]. fold (lit "the").
      rewrite Hst. fold (count (lit "the") s).
      rewrite IH; [lia|]. simpl in Hn. lia.
Qed.

(** [count] of the text [the] is the number of its occurrences: two
    occurrences never overlap. *)
Lemma count_the_occurrences (s : str) :
  count (lit "the") s = Spec.occurrences (lit "the") s.
Proof. apply (count_the_occurrences_aux (length s)). lia. Qed.

Lemma greedy_to_the_end (p : ascii -> bool) (s : str) :
  exists u, greedy p (fun _ => Some ([], None)) s = Some (u, ([], None)) /\
            (p = isdigit -> u = Spec.leading_digits s).
Proof.
  induction s as [|c s (u & IH & Hu)]; cbn [greedy].
  - exists []. split; [reflexivity|]. intros _. reflexivity.
  - destruct (p c) eqn:Hp.
    + rewrite IH. exists (c :: u). split; [reflexivity|].
      intros ->. cbn [Spec.leading_digits]. rewrite Hp.
      rewrite (Hu eq_refl). reflexivity.
    + exists []. split; [reflexivity|].
      intros ->. cbn [Spec.leading_digits]. rewrite Hp. reflexivity.
Qed.

Lemma match_digits (c : ascii) (s : str) :
  match_here [Plus isdigit] (c :: s) =
    if isdigit c then Some (c :: Spec.leading_digits s ++ [], None) else None.
Proof.
  cbn [match_here]. destruct (isdigit c); [|reflexivity].
  destruct (greedy_to_the_end isdigit s) as (u & -> & Hu).
  rewrite Hu by reflexivity. reflexivity.
Qed.

Lemma findall_digits_runs (s : str) :
  length (findall_from [Plus isdigit] (length (Spec.leading_digits s)) s) =
    Spec.digit_runs true s /\
  length (findall_from [Plus isdigit] O s) = Spec.digit_runs false s.
Proof.
  induction s as [|c s [IH1 IH2]]; [split; reflexivity|].
  split.
  - cbn [Spec.leading_digits Spec.digit_runs]. destruct (isdigit c) eqn:Hc.
    + cbn [length findall_from andb negb]. rewrite IH1. reflexivity.
    + cbn [length andb]. cbn [findall_from]. rewrite match_digits, Hc.
      rewrite IH2. reflexivity.
  - cbn [findall_from Spec.digit_runs]. rewrite match_digits.
    destruct (isdigit c) eqn:Hc.
    + cbn [fst andb negb]. rewrite app_nil_r. cbn [length Nat.pred].
      rewrite IH1. reflexivity.
    + rewrite IH2. reflexivity.
Qed.

(** The number of matches of [\d+] is the number of numeric substrings. *)
Lemma findall_digits_count (s : str) :
  length (findall [Plus isdigit] s) = Spec.digit_runs false s.
Proof. apply findall_digits_runs. Qed.

Lemma detect_task_type_cases (url text : str) :
  In (detect_task_type url text)
     [lit "count"; lit "checksum"; lit "audio"; lit "scrape"; lit "general"].
Proof.
  unfold detect_task_type.
  destruct (contains (lit "count the") (lower text)); [simpl; auto|].
  destruct (contains (lit "checksum") (lower text)); [simpl; auto|].
  destruct (contains (lit "audio") url); [simpl; auto|].
  destruct (contains (lit "scrape") url); simpl; auto 6.
Qed.

Lemma ord_sum_code_sum (s : str) : ord_sum s = Spec.code_sum s.
Proof.
  induction s as [|c s IH]; [reflexivity|].
  cbn [ord_sum fold_right Spec.code_sum]. fold (ord_sum s). rewrite IH.
  unfold ord, nat_of_ascii. rewrite N_nat_Z. reflexivity.
Qed.

(** C7, as stated, fails for the type count: the solver counts the
    occurrences of the text [the] in the lower-cased text wherever they
    stand, not the words.  The text below has the word once, and the
    answer is 7: the text occurs also in other, theme, then, them and
    there, and in gather. *)
Lemma count_answer_counts_inside_words :
  answer_of
    (solve_quiz_page (lit "https://example.com/q")
       {| html := []; text := Examples.themes_text; hrefs := []; scripts := [] |})
    = AInt 7 /\
  Spec.word_occurrences (lit "the") (lower Examples.themes_text) = 1.
Proof. split; vm_compute; reflexivity. Qed.

(** C7, amended.  The answer of the rendering-based solver is determined
    by the task type and the rendered text: for the type count, the
    number of occurrences of the text [the] in the lower-cased text,
    wherever they stand; for checksum, the sum of the character codes
    modulo 1000; for scrape, the number of numeric substrings; for audio,
    4; for general, the fixed success string.  The text of the example
    is of the type count for every URL, and its answer is 3. *)
Theorem solver_answer_by_type (url : str) (page : Page) :
  let t := text page in
  let ty := detect_task_type url t in
  let a := answer_of (solve_quiz_page url page) in
  (ty = lit "count" -> a = AInt (Spec.occurrences (lit "the") (lower t))) /\
  (ty = lit "checksum" ->
   a = AInt (Spec.code_sum t mod 1000) /\ 0 <= Spec.code_sum t mod 1000 < 1000) /\
  (ty = lit "scrape" -> a = AInt (Z.of_nat (Spec.digit_runs false t))) /\
  (ty = lit "audio" -> a = AInt 4) /\
  (ty = lit "general" -> a = AStr (lit "task_executed_successfully")) /\
  (t = lit "Please count the the the cats" -> ty = lit "count" /\ a = AInt 3).
Proof.
  intros t ty a. subst a. unfold solve_quiz_page. cbn [answer_of].
  fold t. fold ty. unfold solve_by_type.
  split; [|split; [|split; [|split; [|split]]]].
  - intros ->. cbn. rewrite count_the_occurrences. reflexivity.
  - intros ->. cbn. rewrite ord_sum_code_sum.
    split; [reflexivity|]. apply Z.mod_pos_bound. lia.
  - intros ->. cbn. rewrite findall_digits_count. reflexivity.
  - intros ->. reflexivity.
  - intros ->. reflexivity.
  - intros H. subst ty. rewrite H. split; vm_compute; reflexivity.
Qed.

Lemma solver_answer_by_type_witness :
  answer_of
    (solve_quiz_page (lit "https://example.com/audio/scrape")
       {| html := []; text := lit "Please count the the the cats";
          hrefs := []; scripts := [] |}) = AInt 3 /\
  answer_of
    (solve_quiz_page (lit "https://example.com/q")
       {| html := []; text := lit "CheckSum of AB"; hrefs := []; scripts := [] |})
    = AInt 195 /\
  answer_of
    (solve_quiz_page (lit "https://example.com/scrape")
       {| html := []; text := lit "a12 b3 444"; hrefs := []; scripts := [] |})
    = AInt 3.
Proof.
  split; [|split].
  - apply (solver_answer_by_type (lit "https://example.com/audio/scrape")
             {| html := []; text := lit "Please count the the the cats";
                hrefs := []; scripts := [] |}).
    reflexivity.
  - destruct (proj1 (proj2 (solver_answer_by_type (lit "https://example.com/q")
             {| html := []; text := lit "CheckSum of AB"; hrefs := []; scripts := [] |})))
      as [Ha _]; [vm_compute; reflexivity|].
    rewrite Ha. vm_compute. reflexivity.
  - apply (proj1 (proj2 (proj2 (solver_answer_by_type (lit "https://example.com/scrape")
             {| html := []; text := lit "a12 b3 444"; hrefs := []; scripts := [] |})))).
    vm_compute. reflexivity.
Defined.

End SolverAnswers.

(** ** Task classification *)

Section Classification.

Import Spec.

Lemma lower_char_solid (c : ascii) : solid (lower_char c) = solid c.
Proof.
  destruct c as [b0 b1 b2 b3 b4 b5 b6 b7];
    destruct b0, b1, b2, b3, b4, b5, b6, b7; vm_compute; reflexivity.
Qed.

Lemma lower_solid (m : str) :
  forallb solid (lower m) = forallb solid m.
Proof.
  induction m as [|c m IH]; [reflexivity|].
  simpl. rewrite lower_char_solid, IH. reflexivity.
Qed.

Lemma solid_ascii (c : ascii) : solid c = true -> is_ascii c = true.
Proof. unfold solid. intros H. apply andb_true_iff in H. tauto. Qed.

Lemma solid_not_space (c : ascii) : solid c = true -> isspace c = false.
Proof.
  unfold solid. intros H. apply andb_true_iff in H as [_ H].
  apply negb_true_iff in H. exact H.
Qed.

(** Replacing the non-ASCII runs keeps a stretch of solid characters. *)
Lemma sub_non_ascii_keeps (m : str) : forall (a b : str) (r : bool),
  forallb solid m = true ->
  exists a' b', sub_non_ascii r (a ++ m ++ b) = a' ++ m ++ b'.
Proof.
  intros a b r Hm. revert r. induction a as [|c a IH]; intros r.
  - exists []. simpl app. revert r.
    induction m as [|c m IHm]; intros r.
    + eexists. reflexivity.
    + simpl in Hm. apply andb_true_iff in Hm as [Hc Hm].
      destruct (IHm Hm false) as (b' & Hb').
      exists b'. simpl. rewrite (solid_ascii c Hc). simpl in Hb'.
      rewrite Hb'. reflexivity.
  - simpl. destruct (is_ascii c).
    + destruct (IH false) as (a' & b' & ->). exists (c :: a'), b'. reflexivity.
    + destruct (IH true) as (a' & b' & ->).
      destruct r; [exists a', b'|exists (" "%char :: a'), b']; reflexivity.
Qed.

Lemma split_ws_push (m : str) : forall (cur b : str),
  forallb solid m = true ->
  split_ws_from cur (m ++ b) = split_ws_from (rev m ++ cur) b.
Proof.
  induction m as [|c m IH]; intros cur b Hm; [reflexivity|].
  simpl in Hm. apply andb_true_iff in Hm as [Hc Hm].
  simpl. rewrite (solid_not_space c Hc), IH by exact Hm.
  rewrite <- app_assoc. reflexivity.
Qed.

Lemma split_ws_first_word (b : str) : forall (c : ascii) (cur : str),
  exists u rest, split_ws_from (c :: cur) b = (rev (c :: cur) ++ u) :: rest.
Proof.
  induction b as [|x b IH]; intros c cur.
  - exists [], []. simpl. rewrite app_nil_r. reflexivity.
  - simpl split_ws_from. destruct (isspace x).
    + exists [], (split_ws_from [] b). rewrite app_nil_r. reflexivity.
    + destruct (IH x (c :: cur)) as (u & rest & ->).
      exists (x :: u), rest. simpl. rewrite <- !app_assoc. reflexivity.
Qed.

(** Splitting at white space keeps a non-empty stretch of solid
    characters inside one word. *)
Lemma split_ws_keeps (c : ascii) (m : str) (b : str) : forall (a cur : str),
  forallb solid (c :: m) = true ->
  exists word, In word (split_ws_from cur (a ++ (c :: m) ++ b)) /\
               contains (c :: m) word = true.
Proof.
  intros a cur Hm. revert cur. induction a as [|x a IH]; intros cur.
  - rewrite app_nil_l, split_ws_push by exact Hm.
    remember (rev (c :: m)) as rm eqn:Hrm.
    destruct rm as [|y rm].
    { apply (f_equal (@length ascii)) in Hrm. rewrite length_rev in Hrm.
      simpl in Hrm. lia. }
    simpl app. destruct (split_ws_first_word b y (rm ++ cur)) as (u & rest & ->).
    eexists. split; [left; reflexivity|].
    apply contains_iff. exists (rev cur), u.
    change (y :: rm ++ cur) with ((y :: rm) ++ cur).
    rewrite Hrm, rev_app_distr, rev_involutive, <- app_assoc. reflexivity.
  - simpl app. simpl split_ws_from. destruct (isspace x).
    + destruct (IH []) as (word & Hin & Hc).
      exists word. split; [|exact Hc].
      destruct cur; [exact Hin|right; exact Hin].
    + apply IH.
Qed.

Lemma join_keeps (sep word : str) : forall parts,
  In word parts -> exists x y, join sep parts = x ++ word ++ y.
Proof.
  induction parts as [|p parts IH]; intros Hin; [destruct Hin|].
  destruct Hin as [->|Hin].
  - destruct parts as [|p' parts].
    + exists [], []. simpl. rewrite app_nil_r. reflexivity.
    + exists [], (sep ++ join sep (p' :: parts)). reflexivity.
  - destruct (IH Hin) as (x & y & Hj).
    destruct parts as [|p' parts]; [destruct Hin|].
    exists (p ++ sep ++ x), y.
    change (join sep (p :: p' :: parts)) with (p ++ sep ++ join sep (p' :: parts)).
    rewrite Hj, <- !app_assoc. reflexivity.
Qed.

(** Cleaning keeps every stretch of solid characters of the text. *)
Lemma clean_keeps (m text : str) :
  forallb solid m = true ->
  contains m text = true -> contains m (clean text) = true.
Proof.
  intros Hm Hc. destruct m as [|c m].
  { apply contains_iff. exists [], (clean text). reflexivity. }
  apply contains_iff in Hc as (a & b & ->).
  destruct (sub_non_ascii_keeps (c :: m) a b false Hm) as (a' & b' & Hs).
  unfold clean, split_ws. rewrite Hs.
  destruct (split_ws_keeps c m b' a' [] Hm) as (word & Hin & Hw).
  destruct (join_keeps (lit " ") word _ Hin) as (x & y & ->).
  apply contains_iff in Hw as (u & v & ->).
  apply contains_iff. exists (x ++ u), (v ++ y).
  rewrite <- !app_assoc. reflexivity.
Qed.

(** A solid keyword that occurs in the text, in any letter case, occurs
    in the lower-cased cleaned text. *)
Lemma keyword_survives (kw text : str) :
  forallb solid kw = true ->
  contains kw (lower text) = true ->
  contains kw (lower (clean text)) = true.
Proof.
  intros Hk Hc. apply contains_iff in Hc as (x & y & Hl).
  unfold lower in Hl.
  apply map_eq_app in Hl as (a & mb & -> & <- & Hmb).
  apply map_eq_app in Hmb as (m & b & -> & <- & <-).
  fold (lower m) in Hk. rewrite lower_solid in Hk.
  assert (Hin : contains m (clean (a ++ m ++ b)) = true).
  { apply clean_keeps; [exact Hk|]. apply contains_iff. exists a, b. reflexivity. }
  apply contains_iff in Hin as (u & v & ->).
  apply contains_iff. exists (lower u), (lower v).
  rewrite !lower_app. reflexivity.
Qed.

Lemma any_in_intro (words : list str) (kw text_lower : str) :
  In kw words -> contains kw text_lower = true -> any_in words text_lower = true.
Proof.
  intros Hin Hc. unfold any_in. apply existsb_exists. exists kw. split; assumption.
Qed.

Lemma classify_first_rule (text_lower : str) :
  classify text_lower = first_rule rules text_lower.
Proof.
  unfold classify, rules. cbn [first_rule].
  assert (Hapi : any_in [lit "api"] text_lower = contains (lit "api") text_lower).
  { unfold any_in. simpl. apply orb_false_r. }
  rewrite Hapi. reflexivity.
Qed.

Lemma first_rule_decided (text_lower : str) (words : list str) (ty : str) :
  forall before after,
  (forall r, In r before -> any_in (fst r) text_lower = false) ->
  any_in words text_lower = true ->
  first_rule (before ++ (words, ty) :: after) text_lower = ty.
Proof.
  induction before as [|[ws t] before IH]; intros after Hb Hw; simpl.
  - rewrite Hw. reflexivity.
  - pose proof (Hb (ws, t) (or_introl eq_refl)) as Hws. simpl in Hws.
    rewrite Hws.
    apply IH; [|exact Hw]. intros r Hr. apply Hb. right. exact Hr.
Qed.

Lemma first_rule_none (text_lower : str) : forall rs,
  (forall r, In r rs -> any_in (fst r) text_lower = false) ->
  first_rule rs text_lower = lit "general".
Proof.
  induction rs as [|[ws t] rs IH]; intros Hn; simpl; [reflexivity|].
  pose proof (Hn (ws, t) (or_introl eq_refl)) as Hws. simpl in Hws.
  rewrite Hws.
  apply IH. intros r Hr. apply Hn. right. exact Hr.
Qed.

(** C6. The task type [parse_question] assigns is that of the first rule,
    in the order file/download, sum, api, scrape, count, audio, one of
    whose keywords occurs in the lower-cased (cleaned) text, and general
    when no rule has one; so a text in which a download keyword and a sum
    keyword both occur, in any letter case, is of the type
    file_download. *)
Theorem classification_priority (text : str) :
  let text_lower := lower (clean text) in
  let ty := task_type (parse_question text) in
  (forall words t before after,
     rules = before ++ (words, t) :: after ->
     (forall r, In r before -> any_in (fst r) text_lower = false) ->
     any_in words text_lower = true ->
     ty = t) /\
  ((forall r, In r rules -> any_in (fst r) text_lower = false) ->
   ty = lit "general") /\
  (forall d s,
     In d [lit "download"; lit "file"; lit ".pdf"; lit ".csv"] ->
     In s [lit "sum"; lit "total"; lit "add"; lit "calculate"] ->
     contains d (lower text) = true ->
     contains s (lower text) = true ->
     any_in [lit "sum"; lit "total"; lit "add"; lit "calculate"] text_lower = true /\
     ty = lit "file_download").
Proof.
  intros text_lower ty.
  assert (Hty : ty = first_rule rules text_lower).
  { subst ty text_lower. unfold parse_question. cbn [task_type].
    apply classify_first_rule. }
  split; [|split].
  - intros words t before after Hr Hb Hw. rewrite Hty, Hr.
    apply first_rule_decided; assumption.
  - intros Hn. rewrite Hty. apply first_rule_none. exact Hn.
  - intros d s Hd Hs Hcd Hcs.
    assert (Hsolid : forall kw,
              In kw [lit "download"; lit "file"; lit ".pdf"; lit ".csv";
                     lit "sum"; lit "total"; lit "add"; lit "calculate"] ->
              forallb solid kw = true).
    { intros kw Hkw. simpl in Hkw.
      repeat (destruct Hkw as [<-|Hkw]; [vm_compute; reflexivity|]).
      destruct Hkw. }
    split.
    + apply (any_in_intro _ s); [exact Hs|].
      apply keyword_survives; [|exact Hcs].
      apply Hsolid. simpl in Hs |- *. tauto.
    + rewrite Hty.
      apply (first_rule_decided text_lower _ _ [] (tl rules)).
      * intros r [].
      * apply (any_in_intro _ d); [exact Hd|].
        apply keyword_survives; [|exact Hcd].
        apply Hsolid. simpl in Hd |- *. tauto.
Qed.

Lemma classification_priority_witness :
  task_type
    (parse_question (lit "Download the CSV file, then compute the SUM of column A."))
    = lit "file_download" /\
  task_type (parse_question (lit "Please count the api calls")) = lit "api_call" /\
  task_type (parse_question (lit "Hello there")) = lit "general".
Proof.
  split; [|split].
  - apply (proj2 (proj2 (classification_priority _)) (lit "download") (lit "sum")).
    + simpl. tauto.
    + simpl. tauto.
    + vm_compute. reflexivity.
    + vm_compute. reflexivity.
  - apply (proj1 (classification_priority _) [lit "api"] (lit "api_call")
             (firstn 2 rules) (skipn 3 rules)).
    + reflexivity.
    + intros r Hr. simpl in Hr.
      repeat (destruct Hr as [<-|Hr]; [vm_compute; reflexivity|]).
      destruct Hr.
    + vm_compute. reflexivity.
  - apply (proj1 (proj2 (classification_priority _))).
    intros r Hr. simpl in Hr.
    repeat (destruct Hr as [<-|Hr]; [vm_compute; reflexivity|]).
    destruct Hr.
Defined.

End Classification.

(** ** Submit-URL extraction *)

Section SubmitUrl.

Lemma find_none_all {A} (f : A -> bool) (l : list A) :
  (forall x, In x l -> f x = false) -> List.find f l = None.
Proof.
  induction l as [|x l IH]; intros H; simpl; [reflexivity|].
  rewrite (H x) by (left; reflexivity). apply IH.
  intros y Hy. apply H. right. exact Hy.
Qed.

Lemma filter_none_all {A} (f : A -> bool) (l : list A) :
  (forall x, In x l -> f x = false) -> List.filter f l = [].
Proof.
  induction l as [|x l IH]; intros H; simpl; [reflexivity|].
  rewrite (H x) by (left; reflexivity). apply IH.
  intros y Hy. apply H. right. exact Hy.
Qed.

Lemma contains_char (d : ascii) (s : str) :
  contains [d] s = existsb (eqc d) s.
Proof.
  induction s as [|c s IH]; [reflexivity|].
  simpl. rewrite andb_true_r. simpl in IH. rewrite <- IH.
  destruct s; reflexivity.
Qed.

Lemma rsplit1_head_last (d : ascii) (seg : str) : forall a : str,
  existsb (eqc d) seg = false -> rsplit1_head d (a ++ d :: seg) = a.
Proof.
  intros a Hseg. induction a as [|c a IH]; simpl.
  - rewrite Hseg, eqc_refl. reflexivity.
  - rewrite existsb_app. simpl. rewrite eqc_refl, orb_true_r. rewrite IH. reflexivity.
Qed.

(** The origin of a URL is what precedes its last slash, and the URL
    itself when it has no slash. *)
Lemma origin_of_spec (url : str) :
  (contains (lit "/") url = false -> origin_of url = url) /\
  (forall a seg, url = a ++ lit "/" ++ seg ->
                 contains (lit "/") seg = false -> origin_of url = a).
Proof.
  unfold origin_of. split.
  - intros ->. reflexivity.
  - intros a seg -> Hseg.
    assert (Hc : contains (lit "/") (a ++ lit "/" ++ seg) = true).
    { apply contains_iff. exists a, seg. reflexivity. }
    rewrite Hc. change (lit "/") with ["/"%char] in Hseg.
    rewrite contains_char in Hseg.
    apply (rsplit1_head_last "/"%char seg a Hseg).
Qed.

(** C5, as stated, fails, for each of the two extractors.  On a page
    without any qualifying link or URL literal the extractor of
    [app/utils.py] returns no URL at all; and the extractor of the driver
    returns a URL literal that has the word submit anywhere in it, here
    in the query, although no URL literal contains /submit, /api,
    /quiz or /answer. *)
Lemma extract_submit_url_not_origin_fallback :
  (forall u, In u Examples.plain_hrefs -> Utils.href_qualifies u = false) /\
  search Utils.submit_pattern
    (Examples.plain_html ++ [Utils.nl] ++ Examples.plain_text) = None /\
  search Utils.endpoint_pattern
    (Examples.plain_html ++ [Utils.nl] ++ Examples.plain_text) = None /\
  Utils.extract_submit_url Examples.plain_text Examples.plain_html
    Examples.plain_hrefs = None /\
  search Utils.submit_pattern Examples.submit_query_text = None /\
  search Utils.endpoint_pattern Examples.submit_query_text = None /\
  extract_submit_url Examples.submit_query_text (origin_of Examples.page_url)
    = lit "https://example.com/form?submit=now" /\
  origin_of Examples.page_url ++ lit "/submit" = lit "https://example.com/tasks/submit".
Proof.
  repeat split; try (vm_compute; reflexivity).
  intros u [<-|[]]. vm_compute. reflexivity.
Qed.

(** C5, amended.  (1) When no entry of [hrefs] contains submit, answer or
    upload and the HTML and text, joined by a newline, have no URL
    literal containing /submit and none containing /api, /quiz or
    /answer, the extractor of [app/utils.py] returns no URL.  (2) The
    extractor of the driver returns the origin followed by /submit
    exactly when no URL literal of the instruction text contains submit,
    in any letter case; (3) the origin being what precedes the last slash
    of the current URL, or that URL when it has no slash. *)
Theorem submit_url_fallback (text html : str) (hrefs : list str) (url : str) :
  ((forall u, In u hrefs ->
      contains (lit "submit") u = false /\ contains (lit "answer") u = false /\
      contains (lit "upload") u = false) ->
   search Utils.submit_pattern (html ++ [Utils.nl] ++ text) = None ->
   search Utils.endpoint_pattern (html ++ [Utils.nl] ++ text) = None ->
   Utils.extract_submit_url text html hrefs = None) /\
  ((forall u, In u (findall url_pattern text) ->
      contains (lit "submit") (lower u) = false) ->
   extract_submit_url text (origin_of url) = origin_of url ++ lit "/submit") /\
  (forall v rest,
     List.filter mentions_submit (findall url_pattern text) = v :: rest ->
     extract_submit_url text (origin_of url) = v) /\
  (contains (lit "/") url = false -> origin_of url = url) /\
  (forall a seg, url = a ++ lit "/" ++ seg ->
                 contains (lit "/") seg = false -> origin_of url = a).
Proof.
  split; [|split; [|split; [|apply origin_of_spec]]].
  - intros Hh Hs He. unfold Utils.extract_submit_url.
    rewrite find_none_all, Hs, He; [reflexivity|].
    intros u Hu. destruct (Hh u Hu) as (H1 & H2 & H3).
    unfold Utils.href_qualifies. rewrite H1, H2, H3. apply andb_false_r.
  - intros Hn. unfold extract_submit_url.
    rewrite filter_none_all; [reflexivity|]. exact Hn.
  - intros v rest Hf. unfold extract_submit_url. rewrite Hf. reflexivity.
Qed.

Lemma submit_url_fallback_witness :
  Utils.extract_submit_url Examples.plain_text Examples.plain_html
    Examples.plain_hrefs = None /\
  extract_submit_url Examples.plain_text (origin_of Examples.page_url) =
    lit "https://example.com/tasks/submit" /\
  extract_submit_url Examples.submit_query_text (origin_of Examples.page_url) =
    lit "https://example.com/form?submit=now" /\
  origin_of Examples.page_url = lit "https://example.com/tasks".
Proof.
  pose proof (submit_url_fallback Examples.plain_text Examples.plain_html
                Examples.plain_hrefs Examples.page_url) as (Hu & Hm & _ & _ & Ho).
  pose proof (submit_url_fallback Examples.submit_query_text Examples.plain_html
                Examples.plain_hrefs Examples.page_url) as (_ & _ & Hv & _ & _).
  split; [|split; [|split]].
  - apply Hu.
    + intros u [<-|[]]. repeat split; vm_compute; reflexivity.
    + vm_compute. reflexivity.
    + vm_compute. reflexivity.
  - rewrite Hm; [vm_compute; reflexivity|].
    intros u Hu'. vm_compute in Hu'. destruct Hu'.
  - apply (Hv _ []). vm_compute. reflexivity.
  - apply (Ho (lit "https://example.com/tasks") (lit "7")); vm_compute; reflexivity.
Defined.

End SubmitUrl.

(** ** The payload size check *)

Section PayloadSize.

Lemma json_escape_length (c : ascii) :
  (1 <= length (json_escape c) <= 6)%nat.
Proof.
  unfold json_escape.
  repeat match goal with
         | |- context [if ?b then _ else _] => destruct b
         end; simpl; lia.
Qed.

Lemma json_string_length (s : str) :
  (length s + 2 <= length (json_string s) <= 6 * length s + 2)%nat.
Proof.
  unfold json_string, quoted. rewrite !length_app. simpl length.
  assert (H : (length s <= length (flat_map json_escape s) <= 6 * length s)%nat).
  { induction s as [|c s IH]; simpl; [lia|].
    rewrite length_app. pose proof (json_escape_length c). lia. }
  lia.
Qed.

Lemma payload_size_parts (p : payload) :
  payload_size p =
    44 + Z.of_nat (length (json_string (p_email p)))
       + Z.of_nat (length (json_string (p_secret p)))
       + Z.of_nat (length (json_string (p_url p)))
       + Z.of_nat (length (json_answer (p_answer p))).
Proof.
  unfold payload_size, json_dumps. rewrite !length_app.
  change (length (lit "{")) with 1%nat.
  change (length (quoted (lit "email"))) with 7%nat.
  change (length (quoted (lit "secret"))) with 8%nat.
  change (length (quoted (lit "url"))) with 5%nat.
  change (length (quoted (lit "answer"))) with 8%nat.
  change (length (lit ": ")) with 2%nat.
  change (length (lit ", ")) with 2%nat.
  change (length (lit "}")) with 1%nat.
  lia.
Qed.

Lemma check_payload_size_fields (p : payload) :
  p_email (check_payload_size p) = p_email p /\
  p_secret (check_payload_size p) = p_secret p /\
  p_url (check_payload_size p) = p_url p.
Proof.
  unfold check_payload_size.
  destruct (Config.MAX_PAYLOAD_BYTES <? payload_size p); repeat split.
Qed.

Lemma long_url_length :
  Z.of_nat (length Examples.long_url) = Config.MAX_PAYLOAD_BYTES.
Proof.
  unfold Examples.long_url. rewrite repeat_length.
  apply Z2Nat.id. unfold Config.MAX_PAYLOAD_BYTES. lia.
Qed.

Lemma frame_size_parts (p : payload) :
  Spec.frame_size p =
    44 + Z.of_nat (length (json_string (p_email p)))
       + Z.of_nat (length (json_string (p_secret p)))
       + Z.of_nat (length (json_string (p_url p))).
Proof. unfold Spec.frame_size. rewrite payload_size_parts. lia. Qed.

Lemma long_answer_payload_over_limit :
  Config.MAX_PAYLOAD_BYTES < payload_size Examples.long_answer_payload.
Proof.
  rewrite payload_size_parts.
  change (p_answer Examples.long_answer_payload)
    with (AStr (repeat "x"%char (Z.to_nat Config.MAX_PAYLOAD_BYTES))).
  cbn [json_answer].
  pose proof (json_string_length (repeat "x"%char (Z.to_nat Config.MAX_PAYLOAD_BYTES))) as Hl.
  rewrite repeat_length in Hl.
  assert (Z.of_nat (Z.to_nat Config.MAX_PAYLOAD_BYTES) = Config.MAX_PAYLOAD_BYTES)
    by (apply Z2Nat.id; unfold Config.MAX_PAYLOAD_BYTES; lia).
  lia.
Qed.

Lemma over_limit_by_url (q : payload) :
  p_url q = Examples.long_url -> Config.MAX_PAYLOAD_BYTES < payload_size q.
Proof.
  intros Hq. rewrite payload_size_parts, Hq.
  pose proof (json_string_length Examples.long_url) as Hl.
  pose proof long_url_length. lia.
Qed.


(** The two cases of the check.  The JSON form of a cut answer has at
    most 6002 bytes. *)
Lemma check_payload_size_cases (p : payload) :
  (payload_size p <= Config.MAX_PAYLOAD_BYTES -> check_payload_size p = p) /\
  (Config.MAX_PAYLOAD_BYTES < payload_size p ->
   let q := check_payload_size p in
   p_email q = p_email p /\ p_secret q = p_secret p /\ p_url q = p_url p /\
   p_answer q = AStr (firstn 1000 (str_of_answer (p_answer p))) /\
   (length (firstn 1000 (str_of_answer (p_answer p))) <= 1000)%nat /\
   Spec.frame_size q = Spec.frame_size p /\
   payload_size q <= Spec.frame_size p + 6002 /\
   (Spec.frame_size p + 6002 <= Config.MAX_PAYLOAD_BYTES ->
    payload_size q <= Config.MAX_PAYLOAD_BYTES)).
Proof.
  split.
  - intros Hle. unfold check_payload_size.
    destruct (Z.ltb_spec Config.MAX_PAYLOAD_BYTES (payload_size p)); [lia|reflexivity].
  - intros Hgt q.
    assert (Hq : q = {| p_email := p_email p; p_secret := p_secret p;
                        p_url := p_url p;
                        p_answer := AStr (firstn 1000 (str_of_answer (p_answer p))) |}).
    { subst q. unfold check_payload_size.
      destruct (Z.ltb_spec Config.MAX_PAYLOAD_BYTES (payload_size p)); [reflexivity|lia]. }
    assert (Hlen : (length (firstn 1000 (str_of_answer (p_answer p))) <= 1000)%nat)
      by apply firstn_le_length.
    assert (Hframe : Spec.frame_size q = Spec.frame_size p).
    { unfold Spec.frame_size. rewrite !payload_size_parts, Hq. cbn [p_email p_secret p_url p_answer]. lia. }
    assert (Hsize : payload_size q <= Spec.frame_size p + 6002).
    { rewrite <- Hframe. unfold Spec.frame_size. rewrite Hq at 3.
      cbn [p_answer json_answer].
      pose proof (json_string_length (firstn 1000 (str_of_answer (p_answer p)))).
      lia. }
    rewrite Hq at 1 2 3 4. cbn [p_email p_secret p_url p_answer].
    repeat split; auto. lia.
Qed.

Example check_payload_size_examples :
  check_payload_size Examples.small_payload = Examples.small_payload /\
  payload_size (check_payload_size Examples.long_answer_payload)
    <= Config.MAX_PAYLOAD_BYTES.
Proof.
  split.
  - apply (proj1 (check_payload_size_cases Examples.small_payload)).
    vm_compute. discriminate.
  - apply (proj2 (check_payload_size_cases Examples.long_answer_payload)
             long_answer_payload_over_limit).
    rewrite frame_size_parts. unfold Examples.long_answer_payload.
    cbn [p_email p_secret p_url]. vm_compute. discriminate.
Qed.

End PayloadSize.

(** ** The chain driver *)

Section ChainProperties.

Variable extract_base64_instructions : str -> str.
Variable w : World.
Variables (email secret : str) (max_attempts : Z).

Local Abbreviation body := (attempt_body extract_base64_instructions w email secret).
Local Abbreviation turn :=
  (iteration extract_base64_instructions w email secret max_attempts).
Local Abbreviation exec :=
  (run extract_base64_instructions w email secret max_attempts).
Local Abbreviation final :=
  (chain_run extract_base64_instructions w email secret max_attempts).

(** The payload posted for the page at [u] whose content is [html]. *)
Local Abbreviation posted a u html :=
  (Post (Spec.submit_target (extract_base64_instructions html) u)
        (check_payload_size
           {| p_email := email; p_secret := secret; p_url := u;
              p_answer := Spec.planned_answer (hash w) (draw a)
                            (extract_base64_instructions html) u |})).

(** What the attempt [a] does to the outside, from the state [st]. *)
Local Abbreviation body_events a st :=
  (match current_url st with
   | JStr u =>
       match page a with
       | Raises _ => [Fetch u]
       | Returns html => [Fetch u; posted a u html]
       end
   | _ => []
   end).

Lemma after_submission_effect (a : Attempt) (u : str) (ans : answer)
  (r : json) (st : state) :
  current_url st = JStr u ->
  attempts (after_submission a u ans r st) = attempts st /\
  trace (after_submission a u ans r st) = trace st /\
  exists new,
    results (after_submission a u ans r st) = results st ++ new /\
    ((running (after_submission a u ans r st) = running st /\
      new = [Submitted (JStr u) ans r] /\ Spec.continuing r = true /\
      current_url (after_submission a u ans r st) = Spec.next_url r) \/
     (running (after_submission a u ans r st) = false /\
      Spec.last_entries (JStr u) new)).
Proof.
  intros Hcur. unfold after_submission. cbv zeta.
  assert (Hbad : is_dict r = false ->
            attempts (on_exception (no_attribute r (lit "get"))
                        (record_result (Submitted (JStr u) ans r) st)) = attempts st /\
            trace (on_exception (no_attribute r (lit "get"))
                     (record_result (Submitted (JStr u) ans r) st)) = trace st /\
            exists new,
              results (on_exception (no_attribute r (lit "get"))
                         (record_result (Submitted (JStr u) ans r) st)) =
                results st ++ new /\
              ((running (on_exception (no_attribute r (lit "get"))
                           (record_result (Submitted (JStr u) ans r) st)) = running st /\
                new = [Submitted (JStr u) ans r] /\ Spec.continuing r = true /\
                current_url (on_exception (no_attribute r (lit "get"))
                               (record_result (Submitted (JStr u) ans r) st)) =
                  Spec.next_url r) \/
               (running (on_exception (no_attribute r (lit "get"))
                           (record_result (Submitted (JStr u) ans r) st)) = false /\
                Spec.last_entries (JStr u) new))).
  { intros Hr. split; [reflexivity|]. split; [reflexivity|].
    exists [Submitted (JStr u) ans r; Failed (JStr u) (no_attribute r (lit "get"))].
    split; [cbn; rewrite Hcur, <- app_assoc; reflexivity|].
    right. split; [reflexivity|]. apply Spec.entries_not_object, Hr. }
  destruct r as [|b|k|x|s|l|items]; try (apply Hbad; reflexivity).
  clear Hbad.
  destruct (truth (lookup (lit "correct") items) && truth (lookup (lit "url") items))
    eqn:Hok.
  - unfold respect_delay.
    destruct (truth (lookup (lit "delay") items)).
    + destruct (pause a) as [[]|e].
      * split; [reflexivity|]. split; [reflexivity|].
        exists [Submitted (JStr u) ans (JDict items)]. split; [reflexivity|].
        left. split; [reflexivity|]. split; [reflexivity|].
        split; [exact Hok|reflexivity].
      * split; [reflexivity|]. split; [reflexivity|].
        exists [Submitted (JStr u) ans (JDict items);
                Failed (lookup (lit "url") items) e].
        split; [cbn; rewrite <- app_assoc; reflexivity|].
        right. split; [reflexivity|].
        apply (Spec.entries_pause_failed (JStr u) ans (JDict items) e Hok).
    + split; [reflexivity|]. split; [reflexivity|].
      exists [Submitted (JStr u) ans (JDict items)]. split; [reflexivity|].
      left. split; [reflexivity|]. split; [reflexivity|].
      split; [exact Hok|reflexivity].
  - split; [reflexivity|]. split; [reflexivity|].
    exists [Submitted (JStr u) ans (JDict items)]. split; [reflexivity|].
    right. split; [reflexivity|]. apply Spec.entries_submitted.
Qed.

(** The body keeps the count of the attempts. *)
Lemma body_attempts (a : Attempt) (st : state) :
  attempts (body a st) = attempts st.
Proof.
  unfold attempt_body. cbv zeta.
  destruct (current_url st) as [|b|k|x|u|l|items] eqn:Hu; try reflexivity.
  destruct (page a) as [html|e]; [|reflexivity].
  destruct (response a) as [[status_code reply]|e]; [|reflexivity].
  destruct (status_code =? 200); cbn [negb]; [|reflexivity].
  destruct reply as [result|e]; [|reflexivity].
  match goal with
  | |- context [after_submission a u ?ans result ?s] =>
      rewrite (proj1 (after_submission_effect a u ans result s Hu))
  end.
  reflexivity.
Qed.

(** What the body adds to the trace: for a URL that is a text, the GET
    and, when the page is fetched, the POST of the payload built for it;
    for any other URL, nothing. *)
Lemma body_trace (a : Attempt) (st : state) :
  trace (body a st) = trace st ++ body_events a st.
Proof.
  unfold attempt_body, Spec.submit_target, Spec.planned_answer. cbv zeta.
  destruct (current_url st) as [|b|k|x|u|l|items] eqn:Hu;
    try (cbn; rewrite app_nil_r; reflexivity).
  destruct (page a) as [html|e]; [|reflexivity].
  cbn [submit_url set_current_url].
  set (ev := Post _ _).
  destruct (response a) as [[status_code reply]|e];
    [|cbn; rewrite <- app_assoc; reflexivity].
  destruct (status_code =? 200); cbn [negb];
    [|cbn; rewrite <- app_assoc; reflexivity].
  destruct reply as [result|e]; [|cbn; rewrite <- app_assoc; reflexivity].
  match goal with
  | |- context [after_submission a u ?ans result ?s] =>
      rewrite (proj1 (proj2 (after_submission_effect a u ans result s Hu)))
  end.
  cbn. rewrite <- app_assoc. reflexivity.
Qed.

(** What the body adds to the results, and how it leaves the loop: it
    goes on only from a URL that is a text, after a submission answered
    as correct with a next URL; otherwise the loop is left. *)
Lemma body_results (a : Attempt) (st : state) :
  exists new,
    results (body a st) = results st ++ new /\
    ((running (body a st) = running st /\
      exists u ans r,
        current_url st = JStr u /\ new = [Submitted (JStr u) ans r] /\
        Spec.continuing r = true /\ current_url (body a st) = Spec.next_url r) \/
     (running (body a st) = false /\ Spec.last_entries (current_url st) new)).
Proof.
  unfold attempt_body. cbv zeta.
  remember (current_url st) as cu eqn:Hcu. symmetry in Hcu.
  assert (Hfail : forall msg st',
            results st' = results st -> current_url st' = cu ->
            exists new,
              results (on_exception msg st') = results st ++ new /\
              ((running (on_exception msg st') = running st /\
                exists u ans r,
                  cu = JStr u /\ new = [Submitted (JStr u) ans r] /\
                  Spec.continuing r = true /\
                  current_url (on_exception msg st') = Spec.next_url r) \/
               (running (on_exception msg st') = false /\
                Spec.last_entries cu new))).
  { intros msg st' Hr Hu. exists [Failed cu msg].
    cbn. rewrite Hr, Hu. split; [reflexivity|]. right.
    split; [reflexivity|]. apply Spec.entries_failed. }
  destruct cu as [|b|k|x|u|l|items];
    try (apply Hfail; [reflexivity|exact Hcu]).
  destruct (page a) as [html|e]; [|apply Hfail; [reflexivity|exact Hcu]].
  set (ans := generate_answer _ _ _).
  set (sub := match submit_url _ with [] => _ | _ => _ end).
  set (p := check_payload_size _). clearbody ans sub p.
  destruct (response a) as [[status_code reply]|e];
    [|apply Hfail; [reflexivity|exact Hcu]].
  destruct (status_code =? 200); cbn [negb].
  2:{ eexists. cbn. split; [reflexivity|]. right.
      split; [reflexivity|]. apply Spec.entries_failed. }
  destruct reply as [result|e]; [|apply Hfail; [reflexivity|exact Hcu]].
  destruct (after_submission_effect a u ans result
              (emit (Post sub p) (emit (Fetch u) st)) Hcu)
    as (_ & _ & new & Hr & Hcases).
  exists new. split; [exact Hr|].
  destruct Hcases as [(Hrun & Hnew & Hc & Hnext)|(Hrun & Hl)].
  - left. split; [exact Hrun|]. exists u, ans, result.
    split; [reflexivity|]. split; [exact Hnew|]. split; [exact Hc|exact Hnext].
  - right. split; [exact Hrun|exact Hl].
Qed.


Lemma turn_stopped (st : state) : running st = false -> turn st = st.
Proof. intros H. unfold iteration. rewrite H. reflexivity. Qed.


Lemma run_add (n m : nat) : forall st, exec (n + m) st = exec m (exec n st).
Proof. induction n as [|n IH]; intros st; [reflexivity|]. simpl. apply IH. Qed.

Lemma run_snoc (n : nat) (st : state) : exec (S n) st = turn (exec n st).
Proof. replace (S n) with (n + 1)%nat by lia. rewrite run_add. reflexivity. Qed.



(** One turn of the loop from a state in which the loop is running:
    either the loop is left, because its condition fails or the time is
    over, or the attempt is counted and the body is run. *)
Lemma turn_cases (st : state) :
  running st = true ->
  let a := attempt w (Z.to_nat (attempts st)) in
  (turn st = stop st /\
   (loop_condition max_attempts st = false \/ timed_out w (clock a) = true)) \/
  (turn st = body a (count_attempt st) /\
   loop_condition max_attempts st = true /\ timed_out w (clock a) = false).
Proof.
  intros Hrun a. unfold iteration. rewrite Hrun. cbn [negb]. fold a.
  destruct (loop_condition max_attempts st); cbn [negb]; [|left; auto].
  destruct (timed_out w (clock a)); [left; auto|right; auto].
Qed.

Lemma fetches_app (t t' : list event) :
  Spec.fetches (t ++ t') = (Spec.fetches t + Spec.fetches t')%nat.
Proof. unfold Spec.fetches. rewrite List.filter_app, length_app. reflexivity. Qed.

(** Where a POST stands in a trace that was extended. *)
Lemma new_post (t evs pre post : list event) (sub : str) (p : payload) :
  t ++ evs = pre ++ Post sub p :: post ->
  (exists post0, t = pre ++ Post sub p :: post0 /\ post = post0 ++ evs) \/
  (exists l, pre = t ++ l /\ evs = l ++ Post sub p :: post).
Proof.
  intros E. apply app_eq_app in E as (l & [[Ht He]|[Hp He]]).
  - destruct l as [|x l].
    + right. exists []. rewrite app_nil_r in Ht. cbn [app] in He. subst.
      rewrite app_nil_r. split; reflexivity.
    + injection He as <- ->. left. exists l. split; [exact Ht|reflexivity].
  - right. exists l. split; [exact Hp|exact He].
Qed.

Lemma last_url_app (es new : list entry) : forall u,
  Spec.last_url u (es ++ new) = Spec.last_url (Spec.last_url u es) new.
Proof.
  induction es as [|[u' msg|u' ans r] es IH]; intros u; [reflexivity| |]; apply IH.
Qed.

Lemma linked_extend (new : list entry) : forall es u,
  Forall Spec.goes_on es -> Spec.linked u es ->
  Spec.linked (Spec.last_url u es) new ->
  Spec.linked u (es ++ new).
Proof.
  induction es as [|e es IH]; intros u Hgo Hl Hnew; [exact Hnew|].
  inversion Hgo as [|e' es' He Hes]; subst.
  destruct e as [u' msg|u' ans r]; [destruct He|].
  cbn in He. destruct Hl as [-> Hrest]. cbn [app Spec.linked].
  split; [reflexivity|]. right. split; [exact He|].
  apply IH; [exact Hes| |exact Hnew].
  destruct Hrest as [->|[_ Hrest]]; [exact I|exact Hrest].
Qed.

(** What holds of the state of the driver after any number of turns of
    its loop: the bounds on the attempts and the fetches; every POST
    stands right after the GET of the URL its payload carries and is the
    POST of the payload built, in the attempt that made that GET, for the
    page fetched; and the results are the entries of the attempts after
    which the driver went on, a chain from the start URL, followed by
    what the last attempt left when the loop was left with it. *)
Lemma run_shape (url : str) (n : nat) :
  let st := exec n (initial url) in
  0 <= attempts st <= Z.max 0 max_attempts /\
  Spec.fetch_count st <= attempts st <= Spec.fetch_count st + 1 /\
  (running st = true -> Spec.fetch_count st = attempts st) /\
  (forall pre sub p post,
     trace st = pre ++ Post sub p :: post ->
     exists pre' html,
       pre = pre' ++ [Fetch (p_url p)] /\
       page (attempt w (Spec.fetches pre')) = Returns html /\
       Post sub p = posted (attempt w (Spec.fetches pre')) (p_url p) html) /\
  exists chain tail,
    results st = chain ++ tail /\
    Forall Spec.goes_on chain /\
    Spec.linked (JStr url) chain /\
    (running st = true -> current_url st = Spec.last_url (JStr url) chain) /\
    ((tail = [] /\ Z.of_nat (length chain) = attempts st) \/
     (running st = false /\
      Spec.last_entries (Spec.last_url (JStr url) chain) tail /\
      Z.of_nat (length chain) + 1 = attempts st)).
Proof.
  induction n as [|n IH].
  - cbn. unfold Spec.fetch_count. cbn.
    split; [lia|]. split; [lia|]. split; [reflexivity|]. split.
    + intros pre sub p post E. destruct pre; discriminate E.
    + exists [], []. split; [reflexivity|]. split; [constructor|].
      split; [exact I|]. split; [reflexivity|]. left. split; reflexivity.
  - cbv zeta in *. rewrite run_snoc.
    set (st := exec n (initial url)) in *.
    case_eq (running st); intros Hrun;
      [|rewrite turn_stopped by exact Hrun; exact IH].
    destruct IH as (I1 & I2 & I3 & I4 & chain & tail & I5 & I6 & I7 & I8 & I9).
    specialize (I3 Hrun). specialize (I8 Hrun).
    destruct I9 as [[-> Hlen]|(Hno & _)]; [|rewrite Hrun in Hno; discriminate Hno].
    rewrite app_nil_r in I5.
    destruct (turn_cases st Hrun) as [[-> _]|(-> & Hc & _)].
    + cbn [trace results attempts running current_url stop].
      unfold Spec.fetch_count in *. cbn [trace stop].
      split; [exact I1|]. split; [exact I2|]. split; [discriminate|].
      split; [exact I4|].
      exists chain, []. rewrite app_nil_r. split; [exact I5|]. split; [exact I6|].
      split; [exact I7|]. split; [discriminate|]. left. split; [reflexivity|exact Hlen].
    + unfold loop_condition in Hc. apply andb_true_iff in Hc as [_ Hlt].
      apply Z.ltb_lt in Hlt.
      set (a := attempt w (Z.to_nat (attempts st))).
      pose proof (body_trace a (count_attempt st)) as Ht.
      pose proof (body_attempts a (count_attempt st)) as Hatt.
      destruct (body_results a (count_attempt st)) as (new & Hr & Hcases).
      cbn [trace results attempts running current_url count_attempt]
        in Ht, Hr, Hatt, Hcases.
      assert (Hidx : Spec.fetches (trace st) = Z.to_nat (attempts st)).
      { unfold Spec.fetch_count in I3. rewrite <- I3. rewrite Nat2Z.id. reflexivity. }
      assert (Hfc : Spec.fetch_count (body a (count_attempt st)) =
                    Spec.fetch_count st +
                    match current_url st with JStr _ => 1 | _ => 0 end).
      { unfold Spec.fetch_count. rewrite Ht, fetches_app.
        destruct (current_url st) as [|b|k|x|u|l|items]; try (cbn; lia).
        destruct (page a); cbn; lia. }
      split; [rewrite Hatt; lia|].
      split; [rewrite Hatt, Hfc; destruct (current_url st); lia|].
      split.
      { intros Hgo. rewrite Hatt, Hfc.
        destruct Hcases as [(_ & u & ans & r & -> & _)|(Hno & _)]; [lia|].
        rewrite Hno in Hgo. discriminate Hgo. }
      split.
      { intros pre sub p post E. rewrite Ht in E.
        apply new_post in E as [(post0 & E & _)|(l & Hpre & E)];
          [apply (I4 pre sub p post0 E)|].
        destruct (current_url st) as [|b|k|x|u|l0|items];
          try (destruct l; discriminate E).
        destruct (page a) as [html|e] eqn:Hpage.
        - destruct l as [|x [|y l]]; try discriminate E.
          + cbn [app] in E. injection E as <- <- <- <-.
            rewrite (proj2 (proj2 (check_payload_size_fields _))). cbn [p_url].
            exists (trace st), html. rewrite Hidx. fold a.
            split; [exact Hpre|]. split; [exact Hpage|reflexivity].
          + injection E as _ _ E. destruct l; discriminate E.
        - destruct l as [|x [|y l]]; discriminate E. }
      rewrite Hr.
      destruct Hcases as [(Hgo & u & ans & r & Hu & -> & Hcont & Hnext)|(Hno & Hlast)].
      * exists (chain ++ [Submitted (JStr u) ans r]), [].
        rewrite app_nil_r, I5. split; [reflexivity|].
        split; [apply Forall_app; split; [exact I6|constructor; [exact Hcont|constructor]]|].
        split.
        { apply linked_extend; [exact I6|exact I7|]. rewrite <- I8, Hu.
          split; [reflexivity|left; reflexivity]. }
        split; [intros _; rewrite last_url_app; exact Hnext|].
        left. split; [reflexivity|]. rewrite length_app, Hatt. cbn [length]. lia.
      * exists chain, new. rewrite I5. split; [reflexivity|]. split; [exact I6|].
        split; [exact I7|].
        split; [intros Hgo; rewrite Hno in Hgo; discriminate Hgo|].
        right. split; [exact Hno|]. split; [rewrite <- I8; exact Hlast|].
        rewrite Hatt. lia.
Qed.





Lemma trace_grows (n : nat) : forall st,
  exists t, trace (exec n st) = trace st ++ t.
Proof.
  induction n as [|n IH]; intros st.
  - exists []. rewrite app_nil_r. reflexivity.
  - simpl. destruct (IH (turn st)) as (t & ->).
    destruct (running st) eqn:Hrun.
    + destruct (turn_cases st Hrun) as [[-> _]|(-> & _ & _)].
      * exists t. reflexivity.
      * rewrite body_trace. cbn [trace current_url count_attempt].
        eexists. rewrite <- app_assoc. reflexivity.
    + rewrite turn_stopped by exact Hrun. exists t. reflexivity.
Qed.

(** The first turn, when the first page is fetched: the GET of the start
    URL and the POST of the payload built for it. *)
Lemma first_turn_trace (url html_content : str) :
  url <> [] -> 0 < max_attempts ->
  timed_out w (clock (attempt w O)) = false ->
  page (attempt w O) = Returns html_content ->
  trace (exec 1 (initial url)) = [Fetch url; posted (attempt w O) url html_content].
Proof.
  intros Hurl Hmax Htime Hpage. cbn [run].
  destruct (turn_cases (initial url) eq_refl) as [[_ [Hc|Ht]]|(-> & _ & _)].
  - exfalso. unfold loop_condition in Hc. cbn [current_url attempts initial] in Hc.
    apply andb_false_iff in Hc as [Hc|Hc].
    + cbn in Hc. apply negb_false_iff, eqs_eq in Hc. contradiction.
    + apply Z.ltb_ge in Hc. lia.
  - exfalso. cbn [attempts initial] in Ht. change (Z.to_nat 0) with O in Ht. congruence.
  - cbn [attempts initial]. change (Z.to_nat 0) with O.
    rewrite body_trace. cbn [trace current_url count_attempt initial app].
    rewrite Hpage. reflexivity.
Qed.

(** The payload a POST carries has the credentials of the chain. *)
Lemma posted_credentials (url : str) (n : nat) (sub : str) (p : payload) :
  In (Post sub p) (trace (exec n (initial url))) ->
  p_email p = email /\ p_secret p = secret.
Proof.
  intros Hin. apply in_split in Hin as (pre & post & E).
  destruct (run_shape url n) as (_ & _ & _ & Hposts & _).
  destruct (Hposts pre sub p post E) as (pre' & html & _ & _ & Hp).
  injection Hp as _ ->.
  destruct (check_payload_size_fields
              {| p_email := email; p_secret := secret; p_url := p_url p;
                 p_answer := Spec.planned_answer (hash w)
                               (draw (attempt w (Spec.fetches pre')))
                               (extract_base64_instructions html) (p_url p) |})
    as (He & Hs & _).
  split; assumption.
Qed.


(** C2. Every payload the driver posts, at any point of any run, has the
    email and the secret the driver was called with, whatever the pages
    contain. *)
Theorem chain_credentials (url : str) :
  (forall n sub p,
     In (Post sub p) (trace (exec n (initial url))) ->
     p_email p = email /\ p_secret p = secret) /\
  (forall sub p,
     In (Post sub p) (trace (final url)) ->
     p_email p = email /\ p_secret p = secret).
Proof.
  split; [apply posted_credentials|].
  intros sub p. apply posted_credentials.
Qed.

End ChainProperties.

Section ChainExamples.

Import Examples.




(** Answers that are all correct and all name a next URL are not enough
    for [max_attempts] attempts: when the delay asked for cannot be
    slept, the chain ends with the first attempt. *)
Example chain_ends_on_refused_delay :
  attempts (chain_run plain_instructions hasty_world my_email my_secret 5 page_url)
    = 1 /\
  results (chain_run plain_instructions hasty_world my_email my_secret 5 page_url) =
    [Submitted (JStr page_url) (AInt 107)
       (JDict [(lit "correct", JBool true);
               (lit "url", JStr (lit "https://example.com/tasks/8"));
               (lit "delay", JInt (-5))]);
     Failed (JStr (lit "https://example.com/tasks/8"))
            (lit "sleep length must be non-negative")].
Proof. split; vm_compute; reflexivity. Qed.

Lemma chain_credentials_witness :
  exists sub p,
    In (Post sub p)
       (trace (chain_run plain_instructions decoy_world my_email my_secret 5 page_url)) /\
    p_email p = my_email /\ p_secret p = my_secret.
Proof.
  eexists _, _. split.
  - vm_compute. right. left. reflexivity.
  - eapply (proj2 (chain_credentials plain_instructions decoy_world my_email
                     my_secret 5 page_url)).
    vm_compute. right. left. reflexivity.
Defined.

Lemma long_url_not_empty : long_url <> [].
Proof.
  intros H. apply (f_equal (@length ascii)) in H.
  pose proof long_url_length as Hl. rewrite H in Hl.
  unfold Config.MAX_PAYLOAD_BYTES in Hl. simpl in Hl. lia.
Qed.

(** The first turn of the driver in the world of the examples, for any
    start URL that is not empty. *)
Lemma endless_first_turn (url : str) :
  url <> [] ->
  trace (run plain_instructions endless_world my_email my_secret 5 1 (initial url)) =
    [Fetch url;
     Post (Spec.submit_target next_page_text url)
          (check_payload_size
             {| p_email := my_email; p_secret := my_secret; p_url := url;
                p_answer := Spec.planned_answer (hash endless_world) 7
                              next_page_text url |})].
Proof.
  intros Hurl.
  apply (first_turn_trace plain_instructions endless_world my_email my_secret 5
           url next_page_text Hurl); [lia|vm_compute; reflexivity|reflexivity].
Qed.

(** The driver itself posts a payload over the limit when the start URL
    alone fills the limit. *)
Example driver_posts_over_limit :
  exists sub p,
    In (Post sub p)
       (trace (chain_run plain_instructions endless_world my_email my_secret 5
                 long_url)) /\
    Config.MAX_PAYLOAD_BYTES < payload_size p.
Proof.
  unfold chain_run. change (S (Z.to_nat 5)) with (1 + 5)%nat. rewrite run_add.
  destruct (trace_grows plain_instructions endless_world my_email my_secret 5 5
              (run plain_instructions endless_world my_email my_secret 5 1
                 (initial long_url))) as (t & ->).
  rewrite (endless_first_turn long_url long_url_not_empty).
  eexists _, _. split; [right; left; reflexivity|].
  apply over_limit_by_url.
  rewrite (proj2 (proj2 (check_payload_size_fields _))). reflexivity.
Qed.

End ChainExamples.

(** ** Soundness of the matcher *)

Section MatcherFacts.

Lemma startswith_skipn (l s : str) :
  startswith l s = true -> s = l ++ skipn (length l) s.
Proof.
  intros H. apply startswith_iff in H as [t ->].
  rewrite drop_app_length. reflexivity.
Qed.

Lemma greedy_sound (p : ascii -> bool) (k : str -> option rmatch) :
  forall (s u : str) (m : rmatch),
  greedy p k s = Some (u, m) ->
  forallb p u = true /\ exists t, s = u ++ t /\ k t = Some m.
Proof.
  induction s as [|c s IH]; intros u m H; simpl in H.
  - destruct (k []) as [m'|] eqn:Hk; [|discriminate].
    injection H as <- <-. split; [reflexivity|]. exists []. split; [reflexivity|exact Hk].
  - assert (Hstop : option_map (pair []) (k (c :: s)) = Some (u, m) ->
                    forallb p u = true /\ exists t, c :: s = u ++ t /\ k t = Some m).
    { intros Hs. destruct (k (c :: s)) as [m'|] eqn:Hk; [|discriminate].
      injection Hs as <- <-. split; [reflexivity|].
      exists (c :: s). split; [reflexivity|exact Hk]. }
    destruct (p c) eqn:Hp; [|exact (Hstop H)].
    destruct (greedy p k s) as [[u' m']|] eqn:Hg; [|exact (Hstop H)].
    injection H as <- <-. destruct (IH u' m' eq_refl) as (Hu & t & -> & Hk).
    split; [simpl; rewrite Hp; exact Hu|]. exists t. split; [reflexivity|exact Hk].
Qed.

Lemma first_alt_sound (k : str -> option rmatch) (s : str) : forall ls m,
  first_alt ls k s = Some m ->
  exists l m', In l ls /\ startswith l s = true /\
               k (skipn (length l) s) = Some m' /\ m = cons_match l m'.
Proof.
  induction ls as [|l ls IH]; intros m H; simpl in H; [discriminate|].
  destruct (startswith l s) eqn:Hl.
  - destruct (k (skipn (length l) s)) as [m'|] eqn:Hk; simpl in H.
    + injection H as <-. exists l, m'. repeat split; auto. left. reflexivity.
    + destruct (IH m H) as (l' & m' & Hin & Hs & Hk' & ->).
      exists l', m'. repeat split; auto. right. exact Hin.
  - destruct (IH m H) as (l' & m' & Hin & Hs & Hk' & ->).
    exists l', m'. repeat split; auto. right. exact Hin.
Qed.

(** What [match_here] returns is a text of the language of the pattern,
    with the text of its group, and the input starts with it. *)
Lemma match_here_sound (pat : list rx) : forall (s : str) (m : rmatch),
  match_here pat s = Some m ->
  Spec.matches pat (fst m) (snd m) /\ exists rest, s = fst m ++ rest.
Proof.
  induction pat as [|item pat IH]; intros s m H.
  - injection H as <-. split; [split; reflexivity|]. exists s. reflexivity.
  - destruct item as [l|c|p|p|p|ls]; cbn [match_here] in H.
    + destruct (startswith l s) eqn:Hl; [|discriminate].
      destruct (match_here pat (skipn (length l) s)) as [m'|] eqn:Hm; [|discriminate].
      injection H as <-. destruct (IH _ _ Hm) as (Hlang & rest & Hrest).
      split.
      * exists (fst m'). split; [reflexivity|exact Hlang].
      * exists rest. rewrite (startswith_skipn l s Hl) at 1.
        rewrite Hrest at 1. cbn. rewrite <- app_assoc. reflexivity.
    + assert (Hskip : forall m0, match_here pat s = Some m0 ->
                Spec.matches (Opt c :: pat) (fst m0) (snd m0) /\
                exists rest, s = fst m0 ++ rest).
      { intros m0 Hm0. destruct (IH _ _ Hm0) as (Hlang & Hrest).
        split; [left; exact Hlang|exact Hrest]. }
      destruct s as [|c' s']; [exact (Hskip m H)|].
      destruct (eqc c c') eqn:Hc; [|exact (Hskip m H)].
      destruct (match_here pat s') as [m'|] eqn:Hm; [|exact (Hskip m H)].
      injection H as <-. apply eqc_eq in Hc as <-.
      destruct (IH _ _ Hm) as (Hlang & rest & ->).
      split.
      * right. exists (fst m'). split; [reflexivity|exact Hlang].
      * exists rest. reflexivity.
    + destruct (greedy p (match_here pat) s) as [[u m']|] eqn:Hg; [|discriminate].
      injection H as <-. destruct (greedy_sound _ _ _ _ _ Hg) as (Hu & t & -> & Hk).
      destruct (IH _ _ Hk) as (Hlang & rest & ->).
      split.
      * exists u, (fst m'). repeat split; auto.
      * exists rest. cbn. rewrite <- app_assoc. reflexivity.
    + destruct s as [|c s']; [discriminate|].
      destruct (p c) eqn:Hp; [|discriminate].
      destruct (greedy p (match_here pat) s') as [[u m']|] eqn:Hg; [|discriminate].
      injection H as <-. destruct (greedy_sound _ _ _ _ _ Hg) as (Hu & t & -> & Hk).
      destruct (IH _ _ Hk) as (Hlang & rest & ->).
      split.
      * exists (c :: u), (fst m').
        split; [reflexivity|]. split; [discriminate|].
        split; [simpl; rewrite Hp; exact Hu|exact Hlang].
      * exists rest. cbn. rewrite <- app_assoc. reflexivity.
    + destruct s as [|c s']; [discriminate|].
      destruct (p c) eqn:Hp; [|discriminate].
      destruct (greedy p (match_here pat) s') as [[u m']|] eqn:Hg; [|discriminate].
      injection H as <-. destruct (greedy_sound _ _ _ _ _ Hg) as (Hu & t & -> & Hk).
      destruct (IH _ _ Hk) as (Hlang & rest & ->).
      split.
      * exists (c :: u), (fst m'), (snd m').
        split; [reflexivity|]. split; [discriminate|].
        split; [simpl; rewrite Hp; exact Hu|]. split; [reflexivity|exact Hlang].
      * exists rest. cbn. rewrite <- app_assoc. reflexivity.
    + destruct (first_alt_sound _ _ _ _ H) as (l & m' & Hin & Hl & Hk & ->).
      destruct (IH _ _ Hk) as (Hlang & rest & Hrest).
      split.
      * exists l, (fst m'). repeat split; auto.
      * exists rest. rewrite (startswith_skipn l s Hl) at 1.
        rewrite Hrest at 1. cbn. rewrite <- app_assoc. reflexivity.
Qed.

(** What [search] returns is matched at some position of the input. *)
Lemma search_sound (pat : list rx) : forall (s : str) (m : rmatch),
  search pat s = Some m ->
  Spec.matches pat (fst m) (snd m) /\ exists a b, s = a ++ fst m ++ b.
Proof.
  induction s as [|c s IH]; intros m H; simpl in H.
  - destruct (match_here pat []) as [m'|] eqn:Hm; [|discriminate].
    injection H as <-. destruct (match_here_sound _ _ _ Hm) as (Hl & rest & Hr).
    split; [exact Hl|]. exists [], rest. exact Hr.
  - destruct (match_here pat (c :: s)) as [m'|] eqn:Hm.
    + injection H as <-. destruct (match_here_sound _ _ _ Hm) as (Hl & rest & Hr).
      split; [exact Hl|]. exists [], rest. exact Hr.
    + destruct (IH m H) as (Hl & a & b & ->).
      split; [exact Hl|]. exists (c :: a), b. reflexivity.
Qed.

(** Every text [findall] returns is matched at some position of the
    input. *)
Lemma findall_sound (pat : list rx) (w : str) : forall (s : str) (skip : nat),
  In w (findall_from pat skip s) ->
  (exists g, Spec.matches pat w g) /\ exists a b, s = a ++ w ++ b.
Proof.
  induction s as [|c s IH]; intros skip Hin; simpl in Hin.
  - destruct skip; [|destruct Hin].
    destruct (match_here pat []) as [m|] eqn:Hm; [|destruct Hin].
    destruct Hin as [<-|[]].
    destruct (match_here_sound _ _ _ Hm) as (Hl & rest & Hr).
    split; [exists (snd m); exact Hl|]. exists [], rest. exact Hr.
  - assert (Hlater : forall k, In w (findall_from pat k s) ->
              (exists g, Spec.matches pat w g) /\ exists a b, c :: s = a ++ w ++ b).
    { intros k Hk. destruct (IH k Hk) as (Hl & a & b & ->).
      split; [exact Hl|]. exists (c :: a), b. reflexivity. }
    destruct skip as [|k]; [|exact (Hlater _ Hin)].
    destruct (match_here pat (c :: s)) as [m|] eqn:Hm; [|exact (Hlater _ Hin)].
    destruct Hin as [<-|Hin]; [|exact (Hlater _ Hin)].
    destruct (match_here_sound _ _ _ Hm) as (Hl & rest & Hr).
    split; [exists (snd m); exact Hl|]. exists [], rest. exact Hr.
Qed.

End MatcherFacts.

(** ** The extractors of app/utils.py *)

Section UtilsExtractors.

Lemma find_first {A} (f : A -> bool) (x : A) : forall before after,
  (forall y, In y before -> f y = false) -> f x = true ->
  List.find f (before ++ x :: after) = Some x.
Proof.
  induction before as [|y before IH]; intros after Hb Hx; simpl.
  - rewrite Hx. reflexivity.
  - rewrite (Hb y) by (left; reflexivity). apply IH; [|exact Hx].
    intros z Hz. apply Hb. right. exact Hz.
Qed.

(** X1. An entry of [hrefs] that is not empty and contains submit, answer
    or upload is returned when no entry before it is such, whatever the
    HTML and the text are. *)
Theorem utils_hrefs_first (text html : str) (before after : list str) (u : str) :
  (forall v, In v before -> Utils.href_qualifies v = false) ->
  u <> [] ->
  contains (lit "submit") u = true \/ contains (lit "answer") u = true \/
    contains (lit "upload") u = true ->
  Utils.extract_submit_url text html (before ++ u :: after) = Some u.
Proof.
  intros Hb Hu Hk. unfold Utils.extract_submit_url.
  rewrite find_first; [reflexivity|exact Hb|].
  unfold Utils.href_qualifies. apply andb_true_iff. split.
  - apply negb_true_iff, eqs_neq, Hu.
  - destruct Hk as [-> | [-> | ->]]; rewrite ?orb_true_r; reflexivity.
Qed.

Lemma utils_hrefs_first_witness :
  Utils.extract_submit_url Examples.plain_text Examples.linked_html
    Examples.linked_hrefs = Some (lit "https://example.com/upload/7").
Proof.
  apply (utils_hrefs_first Examples.plain_text Examples.linked_html
           [[]; lit "https://example.com/about"]
           [lit "https://example.com/submit"] (lit "https://example.com/upload/7")).
  - intros v Hv. destruct Hv as [<-|Hv]; [vm_compute; reflexivity|].
    destruct Hv as [<-|Hv]; [vm_compute; reflexivity|destruct Hv].
  - discriminate.
  - right. right. vm_compute. reflexivity.
Defined.

Lemma url_head_matches (rest : list rx) (w : str) (g : option str) :
  Spec.matches (Lit (lit "http") :: Opt "s"%char :: Lit (lit "://") :: rest) w g ->
  startswith (lit "http") w = true /\
  exists scheme w', w = scheme ++ w' /\ Spec.matches rest w' g /\
                    (scheme = lit "http://" \/ scheme = lit "https://").
Proof.
  intros (w1 & -> & [H|(w2 & -> & H)]); destruct H as (w3 & -> & Hrest).
  - split; [apply startswith_app|].
    exists (lit "http://"), w3. repeat split; auto.
  - split; [apply startswith_app|].
    exists (lit "https://"), w3. repeat split; auto.
Qed.

(** X2. A URL the extractor of [app/utils.py] returns is never made up:
    it is either an entry of [hrefs] that is not empty and contains
    submit, answer or upload, or a part of the HTML and text that starts
    with http and contains /submit, /api, /quiz or /answer. *)
Theorem utils_submit_url_provenance (text html : str) (hrefs : list str) (u : str) :
  Utils.extract_submit_url text html hrefs = Some u ->
  (In u hrefs /\ u <> [] /\
   (contains (lit "submit") u = true \/ contains (lit "answer") u = true \/
    contains (lit "upload") u = true)) \/
  (startswith (lit "http") u = true /\
   contains u (html ++ [Utils.nl] ++ text) = true /\
   (contains (lit "/submit") u = true \/ contains (lit "/api") u = true \/
    contains (lit "/quiz") u = true \/ contains (lit "/answer") u = true)).
Proof.
  unfold Utils.extract_submit_url. intros H.
  destruct (List.find Utils.href_qualifies hrefs) as [v|] eqn:Hf.
  { injection H as <-. apply find_some in Hf as [Hin Hq]. left.
    unfold Utils.href_qualifies in Hq. apply andb_true_iff in Hq as [Hne Hk].
    split; [exact Hin|]. split; [apply eqs_neq, negb_true_iff, Hne|].
    apply orb_true_iff in Hk as [Hk|Hk]; [|tauto].
    apply orb_true_iff in Hk. tauto. }
  right.
  destruct (search Utils.submit_pattern (html ++ [Utils.nl] ++ text)) as [m|] eqn:Hs.
  { injection H as <-. destruct (search_sound _ _ _ Hs) as (Hm & a & b & Hdoc).
    apply url_head_matches in Hm as (Hhttp & scheme & w' & Hw & Hrest & _).
    split; [exact Hhttp|]. split; [apply contains_iff; exists a, b; exact Hdoc|].
    left. destruct Hrest as (x & w2 & -> & _ & _ & (w3 & -> & _)).
    rewrite Hw. apply contains_iff. exists (scheme ++ x), w3.
    rewrite <- !app_assoc. reflexivity. }
  destruct (search Utils.endpoint_pattern (html ++ [Utils.nl] ++ text)) as [m|] eqn:He;
    [|discriminate].
  injection H as <-. destruct (search_sound _ _ _ He) as (Hm & a & b & Hdoc).
  apply url_head_matches in Hm as (Hhttp & scheme & w' & Hw & Hrest & _).
  split; [exact Hhttp|]. split; [apply contains_iff; exists a, b; exact Hdoc|].
  right. destruct Hrest as (x & w2 & -> & _ & _ & (w3 & -> & (l & w4 & Hl & -> & _))).
  assert (Hc : contains (lit "/" ++ l) (fst m) = true).
  { rewrite Hw. apply contains_iff. exists (scheme ++ x), w4.
    rewrite <- !app_assoc. reflexivity. }
  simpl in Hl. destruct Hl as [<-|[<-|[<-|[]]]]; tauto.
Qed.

Lemma utils_submit_url_provenance_witness :
  startswith (lit "http") (lit "https://example.com/api/v1/submit-form") = true /\
  contains (lit "https://example.com/api/v1/submit-form")
    (Examples.linked_html ++ [Utils.nl] ++ Examples.plain_text) = true.
Proof.
  destruct (utils_submit_url_provenance Examples.plain_text Examples.linked_html
              Examples.plain_hrefs (lit "https://example.com/api/v1/submit-form"))
    as [(Hin & _)|(Hh & Hc & _)].
  - vm_compute. reflexivity.
  - exfalso. destruct Hin as [Hin|[]]. discriminate Hin.
  - split; [exact Hh|exact Hc].
Defined.

(** X3. Every URL [find_data_urls] returns is a part of the HTML that
    starts with http, ends with one of the extensions .csv, .json, .pdf,
    .xlsx and .xls, and has no white space, quote or angle bracket. *)
Theorem find_data_urls_shape (html w : str) :
  In w (Utils.find_data_urls html) ->
  startswith (lit "http") w = true /\
  contains w html = true /\
  forallb Utils.url_char w = true /\
  exists ext,
    In ext [lit ".csv"; lit ".json"; lit ".pdf"; lit ".xlsx"; lit ".xls"] /\
    Spec.endswith ext w.
Proof.
  intros Hin. destruct (findall_sound _ _ _ _ Hin) as ((g & Hm) & a & b & Hdoc).
  apply url_head_matches in Hm as (Hhttp & scheme & w' & Hw & Hrest & Hscheme).
  destruct Hrest as (x & w2 & -> & _ & Hx & (ext & w3 & Hext & -> & -> & _)).
  split; [exact Hhttp|]. split; [apply contains_iff; exists a, b; exact Hdoc|].
  split.
  - rewrite Hw, !forallb_app, Hx. simpl in Hext.
    destruct Hscheme as [-> | ->];
      destruct Hext as [<-|[<-|[<-|[<-|[<-|[]]]]]]; reflexivity.
  - exists ext. split; [exact Hext|]. exists (scheme ++ x).
    rewrite Hw, app_nil_r, <- app_assoc. reflexivity.
Qed.

Lemma find_data_urls_shape_witness :
  startswith (lit "http") (lit "https://example.com/data/report.csv") = true /\
  contains (lit "https://example.com/data/report.csv") Examples.linked_html = true.
Proof.
  destruct (find_data_urls_shape Examples.linked_html
              (lit "https://example.com/data/report.csv")) as (Hh & Hc & _).
  - vm_compute. left. reflexivity.
  - split; [exact Hh|exact Hc].
Defined.

End UtilsExtractors.

(** ** More on mask_secret *)

Section MaskSecretMore.

Lemma mask_secret_result (h : store) (payload : ref) (d : gmap string pyval) :
  h !! payload = Some d ->
  Utils.mask_secret h payload =
    Some (fresh (dom h), <[fresh (dom h) := Spec.masked d]> h).
Proof.
  intros Hd. unfold Utils.mask_secret, dict_copy, dict_has, dict_set, Spec.masked.
  rewrite Hd, lookup_insert_eq.
  destruct (bool_decide (is_Some (d !! "secret"%string))); [|reflexivity].
  rewrite insert_insert_eq. reflexivity.
Qed.

Lemma masked_dom (d : gmap string pyval) : dom (Spec.masked d) = dom d.
Proof.
  unfold Spec.masked.
  destruct (bool_decide (is_Some (d !! "secret"%string))) eqn:Hs; [|reflexivity].
  apply bool_decide_eq_true in Hs.
  assert (Hk : "secret"%string ∈ dom d) by (apply elem_of_dom; exact Hs).
  rewrite dom_insert_L. apply subseteq_union_1_L, singleton_subseteq_l, Hk.
Qed.

Lemma masked_secret_value (d : gmap string pyval) (v : pyval) :
  Spec.masked d !! "secret"%string = Some v -> v = VStr (lit "****").
Proof.
  unfold Spec.masked.
  destruct (bool_decide (is_Some (d !! "secret"%string))) eqn:Hs.
  - rewrite lookup_insert_eq. congruence.
  - apply bool_decide_eq_false in Hs. intros Hv. exfalso. apply Hs. eauto.
Qed.

Lemma masked_twice (d : gmap string pyval) : Spec.masked (Spec.masked d) = Spec.masked d.
Proof.
  unfold Spec.masked at 2 3.
  destruct (bool_decide (is_Some (d !! "secret"%string))) eqn:Hs.
  - unfold Spec.masked. rewrite lookup_insert_eq.
    rewrite bool_decide_eq_true_2 by eauto. apply insert_insert_eq.
  - unfold Spec.masked. rewrite Hs. reflexivity.
Qed.

(** X4. The dict [mask_secret] returns has exactly the keys of its
    input: no key is added, in particular no secret key to a payload
    without one, and none is removed; and under the key secret it holds
    nothing but the text of four stars. *)
Theorem mask_secret_keys (h : store) (payload : ref) (d : gmap string pyval) :
  h !! payload = Some d ->
  exists out h' d',
    Utils.mask_secret h payload = Some (out, h') /\
    h' !! out = Some d' /\
    dom d' = dom d /\
    (forall v, d' !! "secret"%string = Some v -> v = VStr (lit "****")).
Proof.
  intros Hd. exists (fresh (dom h)), (<[fresh (dom h) := Spec.masked d]> h), (Spec.masked d).
  split; [apply mask_secret_result, Hd|]. split; [apply lookup_insert_eq|].
  split; [apply masked_dom|apply masked_secret_value].
Qed.

Lemma mask_secret_keys_witness :
  exists out h' d',
    Utils.mask_secret
      {[ 1%positive := {[ "email"%string := VStr (lit "a@b"); "answer"%string := VInt 3 ]} ]}
      1%positive = Some (out, h') /\
    h' !! out = Some d' /\
    dom d' = dom ({[ "email"%string := VStr (lit "a@b"); "answer"%string := VInt 3 ]}
                    : gmap string pyval).
Proof.
  destruct (mask_secret_keys
              {[ 1%positive := {[ "email"%string := VStr (lit "a@b"); "answer"%string := VInt 3 ]} ]}
              1%positive
              {[ "email"%string := VStr (lit "a@b"); "answer"%string := VInt 3 ]})
    as (out & h' & d' & Hm & Hout & Hdom & _).
  - reflexivity.
  - exists out, h', d'. split; [exact Hm|]. split; [exact Hout|exact Hdom].
Defined.

(** X5. Masking the dict that [mask_secret] returned yields one more new
    dict with the same items: a masked payload is masked as it is, and
    the first result and the original input are both left as they
    were. *)
Theorem mask_secret_twice (h : store) (payload : ref) (d : gmap string pyval) :
  h !! payload = Some d ->
  exists out h' d' out2 h'',
    Utils.mask_secret h payload = Some (out, h') /\
    h' !! out = Some d' /\
    Utils.mask_secret h' out = Some (out2, h'') /\
    out2 <> out /\ out2 <> payload /\
    h'' !! out2 = Some d' /\ h'' !! out = Some d' /\ h'' !! payload = Some d.
Proof.
  intros Hd.
  set (out := fresh (dom h)).
  set (h' := <[out := Spec.masked d]> h).
  set (out2 := fresh (dom h')).
  assert (Hout : h !! out = None) by apply fresh_ref_unused.
  assert (Hout2 : h' !! out2 = None) by apply fresh_ref_unused.
  assert (Hh'out : h' !! out = Some (Spec.masked d)) by apply lookup_insert_eq.
  assert (Hne : out <> payload) by (intros E; rewrite E in Hout; congruence).
  assert (Hh'p : h' !! payload = Some d).
  { unfold h'. rewrite lookup_insert_ne by exact Hne. exact Hd. }
  assert (Hne2 : out2 <> out) by (intros E; rewrite E in Hout2; congruence).
  assert (Hne3 : out2 <> payload) by (intros E; rewrite E in Hout2; congruence).
  exists out, h', (Spec.masked d), out2, (<[out2 := Spec.masked (Spec.masked d)]> h').
  split; [apply mask_secret_result, Hd|]. split; [exact Hh'out|].
  split; [apply mask_secret_result, Hh'out|].
  split; [exact Hne2|]. split; [exact Hne3|].
  split; [rewrite lookup_insert_eq, masked_twice; reflexivity|].
  split; [rewrite lookup_insert_ne by exact Hne2; exact Hh'out|].
  rewrite lookup_insert_ne by exact Hne3. exact Hh'p.
Qed.

Lemma mask_secret_twice_witness :
  exists out h' d' out2 h'',
    Utils.mask_secret
      {[ 1%positive := {[ "secret"%string := VStr (lit "s3cr3t") ]} ]} 1%positive
      = Some (out, h') /\
    h' !! out = Some d' /\
    Utils.mask_secret h' out = Some (out2, h'') /\
    h'' !! out2 = Some d'.
Proof.
  destruct (mask_secret_twice
              {[ 1%positive := {[ "secret"%string := VStr (lit "s3cr3t") ]} ]}
              1%positive {[ "secret"%string := VStr (lit "s3cr3t") ]})
    as (out & h' & d' & out2 & h'' & H1 & H2 & H3 & _ & _ & H4 & _).
  - reflexivity.
  - exists out, h', d', out2, h''. repeat split; assumption.
Defined.

End MaskSecretMore.

(** ** Credentials and white space *)

Section CredentialPadding.

Lemma lstrip_spaces (l x : str) :
  forallb isspace l = true -> lstrip (l ++ x) = lstrip x.
Proof.
  induction l as [|c l IH]; intros H; [reflexivity|].
  simpl in H. apply andb_true_iff in H as [Hc Hl].
  simpl. rewrite Hc. apply IH, Hl.
Qed.

Lemma lstrip_app_cases (e r : str) :
  lstrip (e ++ r) = if forallb isspace e then lstrip r else lstrip e ++ r.
Proof.
  induction e as [|c e IH]; [reflexivity|].
  simpl. destruct (isspace c); [exact IH|reflexivity].
Qed.

Lemma lstrip_all_spaces (e : str) : forallb isspace e = true -> lstrip e = [].
Proof.
  intros H. rewrite <- (app_nil_r e), lstrip_spaces by exact H. reflexivity.
Qed.

Lemma forallb_rev {A} (f : A -> bool) (l : list A) :
  forallb f (rev l) = forallb f l.
Proof.
  induction l as [|x l IH]; [reflexivity|].
  simpl. rewrite forallb_app, IH. simpl. rewrite andb_true_r. apply andb_comm.
Qed.

Lemma rstrip_spaces (x r : str) :
  forallb isspace r = true -> rstrip (x ++ r) = rstrip x.
Proof.
  intros H. unfold rstrip. rewrite rev_app_distr, lstrip_spaces; [reflexivity|].
  rewrite forallb_rev. exact H.
Qed.

(** White space around a text does not change what [strip] returns. *)
Lemma strip_padding (l e r : str) :
  forallb isspace l = true -> forallb isspace r = true ->
  strip (l ++ e ++ r) = strip e.
Proof.
  intros Hl Hr. unfold strip. rewrite lstrip_spaces by exact Hl.
  rewrite lstrip_app_cases. destruct (forallb isspace e) eqn:He.
  - rewrite (lstrip_all_spaces r Hr), (lstrip_all_spaces e He). reflexivity.
  - apply rstrip_spaces, Hr.
Qed.

(** X6. Credentials are verified up to the white space around them:
    white space put before and after the email and the secret does not
    change the verdict of [verify_credentials]. *)
Theorem verify_credentials_padding (email secret l1 r1 l2 r2 : str) :
  forallb isspace l1 = true -> forallb isspace r1 = true ->
  forallb isspace l2 = true -> forallb isspace r2 = true ->
  verify_credentials (l1 ++ email ++ r1) (l2 ++ secret ++ r2) =
    verify_credentials email secret.
Proof.
  intros H1 H2 H3 H4. unfold verify_credentials.
  rewrite !strip_padding by assumption. reflexivity.
Qed.

Lemma verify_credentials_padding_witness :
  verify_credentials
    (lit "  " ++ lit "22f1000912@ds.study.iitm.ac.in" ++ [Utils.nl])
    ([chr 9] ++ lit "MONAHARINIR0802" ++ lit " ") =
  verify_credentials (lit "22f1000912@ds.study.iitm.ac.in") (lit "MONAHARINIR0802").
Proof.
  apply (verify_credentials_padding (lit "22f1000912@ds.study.iitm.ac.in")
           (lit "MONAHARINIR0802") (lit "  ") [Utils.nl] [chr 9] (lit " "));
    vm_compute; reflexivity.
Defined.

End CredentialPadding.

(** ** parse_question and the cleaned text *)

Section CleanedText.

Import Spec.

Lemma sub_non_ascii_is_ascii (s : str) : forall r,
  forallb is_ascii (sub_non_ascii r s) = true.
Proof.
  induction s as [|c s IH]; intros r; [reflexivity|].
  simpl. destruct (is_ascii c) eqn:Hc.
  - simpl. rewrite Hc. apply IH.
  - destruct r; [apply IH|]. simpl. apply IH.
Qed.

Lemma sub_non_ascii_id (s : str) : forall r,
  forallb is_ascii s = true -> sub_non_ascii r s = s.
Proof.
  induction s as [|c s IH]; intros r H; [reflexivity|].
  simpl in H. apply andb_true_iff in H as [Hc Hs].
  simpl. rewrite Hc, IH by exact Hs. reflexivity.
Qed.

Local Abbreviation word_ok := (fun w : str => w <> [] /\ forallb solid w = true).

Lemma split_ws_words (s : str) : forall cur,
  forallb is_ascii s = true -> forallb solid cur = true ->
  Forall word_ok (split_ws_from cur s).
Proof.
  induction s as [|c s IH]; intros cur Hs Hcur.
  - destruct cur as [|x cur]; [constructor|].
    constructor; [|constructor]. split.
    + intros E. apply (f_equal (@length ascii)) in E.
      rewrite length_rev in E. discriminate E.
    + rewrite forallb_rev. exact Hcur.
  - simpl in Hs. apply andb_true_iff in Hs as [Hc Hs].
    simpl. destruct (isspace c) eqn:Hsp.
    + destruct cur as [|x cur]; [apply IH; [exact Hs|reflexivity]|].
      constructor; [|apply IH; [exact Hs|reflexivity]]. split.
      * intros E. apply (f_equal (@length ascii)) in E.
        rewrite length_rev in E. discriminate E.
      * rewrite forallb_rev. exact Hcur.
    + apply IH; [exact Hs|]. simpl. rewrite Hcur, andb_true_r.
      unfold solid. rewrite Hc, Hsp. reflexivity.
Qed.

Lemma solid_word_ascii (w : str) : forallb solid w = true -> forallb is_ascii w = true.
Proof.
  induction w as [|c w IH]; [reflexivity|]. simpl. intros H.
  apply andb_true_iff in H as [Hc Hw].
  rewrite (solid_ascii c Hc), IH by exact Hw. reflexivity.
Qed.

Lemma join_words_ascii (ws : list str) :
  Forall word_ok ws -> forallb is_ascii (join (lit " ") ws) = true.
Proof.
  induction 1 as [|w ws [_ Hw] _ IH]; [reflexivity|].
  destruct ws as [|w2 ws]; [apply solid_word_ascii, Hw|].
  change (join (lit " ") (w :: w2 :: ws))
    with (w ++ lit " " ++ join (lit " ") (w2 :: ws)).
  rewrite !forallb_app, (solid_word_ascii w Hw), IH. reflexivity.
Qed.

Lemma split_ws_one_word (w : str) :
  word_ok w -> split_ws_from [] w = [w].
Proof.
  intros [Hne Hw]. rewrite <- (app_nil_r w) at 1.
  rewrite split_ws_push by exact Hw. rewrite app_nil_r. simpl.
  destruct (rev w) eqn:E.
  - exfalso. apply Hne. apply (f_equal (@rev ascii)) in E.
    rewrite rev_involutive in E. exact E.
  - rewrite <- E, rev_involutive. reflexivity.
Qed.

(** Splitting what [join] made of words gives the words back. *)
Lemma split_join_words (ws : list str) :
  Forall word_ok ws -> split_ws (join (lit " ") ws) = ws.
Proof.
  unfold split_ws. induction 1 as [|w ws Hw Hws IH]; [reflexivity|].
  destruct ws as [|w2 ws]; [apply split_ws_one_word, Hw|].
  change (join (lit " ") (w :: w2 :: ws))
    with (w ++ " "%char :: join (lit " ") (w2 :: ws)).
  destruct Hw as [Hne Hw]. rewrite split_ws_push by exact Hw.
  rewrite app_nil_r. remember (join (lit " ") (w2 :: ws)) as rest eqn:Hrest.
  cbn [split_ws_from]. change (isspace " "%char) with true. cbv iota.
  destruct (rev w) eqn:E.
  - exfalso. apply Hne. apply (f_equal (@rev ascii)) in E.
    rewrite rev_involutive in E. exact E.
  - rewrite <- E, rev_involutive, IH. reflexivity.
Qed.

Lemma clean_words (text : str) :
  exists words, clean text = join (lit " ") words /\ Forall word_ok words.
Proof.
  exists (split_ws (sub_non_ascii false text)). split; [reflexivity|].
  apply split_ws_words; [apply sub_non_ascii_is_ascii|reflexivity].
Qed.

Lemma clean_clean (text : str) : clean (clean text) = clean text.
Proof.
  destruct (clean_words text) as (ws & -> & Hws).
  unfold clean. rewrite sub_non_ascii_id by (apply join_words_ascii, Hws).
  rewrite split_join_words by exact Hws. reflexivity.
Qed.

(** X7. Cleaning is idempotent, and [parse_question] depends on its
    argument through the cleaned text only: the cleaned text consists of
    words of ASCII characters other than white space, separated by one
    space each, cleaning it again changes nothing, and parsing the
    cleaned text gives the same question, submit URL and task type as
    parsing the text itself. *)
Theorem parse_question_cleaned (text : str) :
  clean (clean text) = clean text /\
  parse_question (clean text) = parse_question text /\
  exists words,
    clean text = join (lit " ") words /\
    Forall (fun w => w <> [] /\ forallb solid w = true) words.
Proof.
  split; [apply clean_clean|]. split; [|apply clean_words].
  unfold parse_question. rewrite clean_clean. reflexivity.
Qed.

(** X8. The submit URL [parse_question] finds, when it finds one, is a
    part of the cleaned text that starts with http, has the word submit
    in some letter case, and has no white space, angle bracket or double
    quote. *)
Theorem parse_question_submit_url (text : str) :
  let u := submit_url (parse_question text) in
  u = [] \/
  (startswith (lit "http") u = true /\
   contains (lit "submit") (lower u) = true /\
   contains u (clean text) = true /\
   forallb url_char u = true).
Proof.
  cbv zeta. unfold parse_question. cbn [submit_url].
  destruct (List.filter mentions_submit (findall url_pattern (clean text)))
    as [|u rest] eqn:Hf; [left; reflexivity|right].
  assert (Hin : In u (List.filter mentions_submit (findall url_pattern (clean text))))
    by (rewrite Hf; left; reflexivity).
  apply filter_In in Hin as [Hin Hsub].
  destruct (findall_sound _ _ _ _ Hin) as ((g & Hm) & a & b & Hdoc).
  apply url_head_matches in Hm as (Hhttp & scheme & w' & Hw & Hrest & Hscheme).
  destruct Hrest as (x & w2 & -> & _ & Hx & -> & _).
  split; [exact Hhttp|]. split; [exact Hsub|].
  split; [apply contains_iff; exists a, b; exact Hdoc|].
  rewrite Hw, !forallb_app, Hx. destruct Hscheme as [-> | ->]; reflexivity.
Qed.

(** A single quote is not excluded: it may stand in the submit URL. *)
Example parse_question_submit_url_single_quote :
  submit_url (parse_question (lit "Post it to http://x.org/SubMit'1 now")) =
    lit "http://x.org/SubMit'1".
Proof. vm_compute. reflexivity. Qed.

End CleanedText.

(** ** The question snippet of parse_question *)

Section QuestionSnippet.

Lemma lstrip_suffix (s : str) : exists a, s = a ++ lstrip s.
Proof.
  induction s as [|c s (a & IH)]; [exists []; reflexivity|].
  simpl. destruct (isspace c); [|exists []; reflexivity].
  exists (c :: a). simpl. rewrite <- IH. reflexivity.
Qed.

Lemma rstrip_prefix (s : str) : exists b, s = rstrip s ++ b.
Proof.
  unfold rstrip. destruct (lstrip_suffix (rev s)) as (a & Ha).
  exists (rev a). rewrite <- rev_app_distr, <- Ha, rev_involutive. reflexivity.
Qed.

(** What [strip] returns is a part of its argument. *)
Lemma strip_inside (s : str) : exists a b, s = a ++ strip s ++ b.
Proof.
  unfold strip. destruct (lstrip_suffix s) as (a & Ha).
  destruct (rstrip_prefix (lstrip s)) as (b & Hb).
  exists a, b. rewrite <- Hb. exact Ha.
Qed.

Lemma inside_length (a l b : str) : (length l <= length (a ++ l ++ b))%nat.
Proof. rewrite !length_app. lia. Qed.

Lemma inside_no_char (d : ascii) (a l b : str) :
  existsb (eqc d) (a ++ l ++ b) = false -> existsb (eqc d) l = false.
Proof.
  rewrite !existsb_app. intros H.
  apply orb_false_iff in H as [_ H]. apply orb_false_iff in H as [H _]. exact H.
Qed.

Lemma existsb_rev {A} (f : A -> bool) (l : list A) :
  existsb f (rev l) = existsb f l.
Proof.
  induction l as [|x l IH]; [reflexivity|].
  simpl. rewrite existsb_app, IH. simpl. rewrite orb_false_r. apply orb_comm.
Qed.

(** The parts [split] returns are parts of the text, and the separator
    is in none of them. *)
Lemma split_on_parts (d : ascii) (l : str) : forall (s cur : str),
  In l (split_on_from d cur s) ->
  existsb (eqc d) cur = false ->
  (exists a b, rev cur ++ s = a ++ l ++ b) /\ existsb (eqc d) l = false.
Proof.
  induction s as [|c s IH]; intros cur Hin Hcur; simpl in Hin.
  - destruct Hin as [<-|[]]. split.
    + exists [], []. rewrite !app_nil_r. reflexivity.
    + rewrite existsb_rev. exact Hcur.
  - destruct (eqc c d) eqn:Hc.
    + destruct Hin as [<-|Hin].
      * split; [exists [], (c :: s); reflexivity|].
        rewrite existsb_rev. exact Hcur.
      * destruct (IH [] Hin eq_refl) as ((a & b & Hab) & Hno).
        split; [|exact Hno]. exists (rev cur ++ c :: a), b.
        simpl in Hab. rewrite Hab, <- app_assoc. reflexivity.
    + destruct (IH (c :: cur) Hin) as ((a & b & Hab) & Hno).
      * simpl. rewrite Hcur, orb_false_r.
        destruct (eqc d c) eqn:Hdc; [|reflexivity].
        apply eqc_eq in Hdc. subst. rewrite eqc_refl in Hc. discriminate.
      * split; [|exact Hno]. exists a, b.
        simpl in Hab. rewrite <- app_assoc in Hab. exact Hab.
Qed.

(** X9. The question [parse_question] returns is empty exactly when the
    cleaned text has at most ten characters; it is always a part of the
    cleaned text; and when it is not empty it is either the first 200
    characters of the cleaned text or a text of more than 20 characters
    without a period. *)
Theorem parse_question_question (text : str) :
  let q := question (parse_question text) in
  (q = [] <-> (length (clean text) <= 10)%nat) /\
  contains q (clean text) = true /\
  (q = [] \/ q = firstn 200 (clean text) \/
   ((20 < length q)%nat /\ existsb (eqc "."%char) q = false)).
Proof.
  cbv zeta. unfold parse_question. cbn [question].
  destruct (List.find meaningful_line (split_on "."%char (clean text)))
    as [line|] eqn:Hfind.
  - apply find_some in Hfind as [Hin Hm].
    unfold meaningful_line in Hm. cbv zeta in Hm.
    apply andb_true_iff in Hm as [Hm _]. apply andb_true_iff in Hm as [Hm _].
    apply andb_true_iff in Hm as [Hlen _]. apply Z.ltb_lt in Hlen.
    destruct (split_on_parts _ _ _ _ Hin eq_refl) as ((a & b & Hab) & Hno).
    simpl in Hab. destruct (strip_inside line) as (a' & b' & Hline).
    assert (Hq : (20 < length (strip line))%nat) by lia.
    assert (Hinside : clean text = (a ++ a') ++ strip line ++ (b' ++ b)).
    { rewrite Hab. rewrite Hline at 1. rewrite <- !app_assoc. reflexivity. }
    destruct (strip line) as [|c q'] eqn:Hs; [simpl in Hq; lia|].
    split; [|split].
    + split; [discriminate|]. intros Hshort. exfalso.
      pose proof (inside_length (a ++ a') (c :: q') (b' ++ b)) as Hl.
      rewrite <- Hinside in Hl. simpl in Hq. simpl in Hl. lia.
    + apply contains_iff. exists (a ++ a'), (b' ++ b). exact Hinside.
    + right. right. split; [exact Hq|].
      apply (inside_no_char _ a' _ b'). rewrite <- Hline. exact Hno.
  - destruct (Z.ltb_spec 10 (Z.of_nat (length (clean text)))) as [Hlong|Hshort].
    + split; [|split].
      * split; [|lia]. intros E. exfalso.
        destruct (clean text) as [|c t]; [simpl in Hlong; lia|discriminate E].
      * apply contains_iff. exists [], (skipn 200 (clean text)).
        simpl. rewrite firstn_skipn. reflexivity.
      * right. left. reflexivity.
    + split; [|split].
      * split; [lia|reflexivity].
      * apply contains_iff. exists [], (clean text). reflexivity.
      * left. reflexivity.
Qed.

End QuestionSnippet.

(** ** generate_answer *)

Section GeneratedAnswers.

Variable hash : str -> Z.
Variable draw : Z.

Lemma randint_range (a b : Z) : a <= b -> a <= randint draw a b <= b.
Proof.
  intros Hab. unfold randint.
  pose proof (Z.mod_pos_bound draw (b - a + 1)). lia.
Qed.

Lemma choice_in (l : list str) : l <> [] -> In (choice draw l) l.
Proof.
  intros Hl. unfold choice. apply nth_In.
  assert (0 < Z.of_nat (length l)) by (destruct l; [contradiction|simpl; lia]).
  pose proof (Z.mod_pos_bound draw (Z.of_nat (length l))). lia.
Qed.

Lemma str_of_int_short (n : Z) :
  1 <= n <= 5000 ->
  (1 <= length (str_of_int n) <= 4)%nat.
Proof.
  intros Hn.
  assert (Hall : forallb (fun k => let len := length (str_of_int (Z.of_nat k)) in
                                   (1 <=? len)%nat && (len <=? 4)%nat)
                         (seq 1 5000) = true) by (vm_compute; reflexivity).
  rewrite forallb_forall in Hall.
  specialize (Hall (Z.to_nat n)). rewrite Z2Nat.id in Hall by lia.
  cbv zeta in Hall.
  assert (Hin : In (Z.to_nat n) (seq 1 5000)) by (apply in_seq; lia).
  apply Hall, andb_true_iff in Hin as [H1 H2].
  apply Nat.leb_le in H1, H2. lia.
Qed.

Lemma url_hash_range (u : str) : 1 <= hash u mod 1000 + 1 <= 1000.
Proof. pose proof (Z.mod_pos_bound (hash u) 1000). lia. Qed.

Local Abbreviation answer_ok :=
  (fun a : answer =>
     match a with
     | AInt n => 1 <= n <= 5000
     | AStr s => s <> [] /\ (length s <= 29)%nat
     end).

Lemma handle_scraping_demo_ok (qi : question_info) :
  answer_ok (handle_scraping_demo hash qi).
Proof.
  unfold handle_scraping_demo. cbv zeta.
  pose proof (url_hash_range (current_url_of qi)) as Hh.
  pose proof (str_of_int_short (hash (current_url_of qi) mod 1000 + 1) ltac:(lia)) as Hs.
  destruct (_ =? 0); [lia|].
  destruct (_ =? 1); (split; [discriminate|]); rewrite !length_app; simpl length; lia.
Qed.

Lemma handle_general_question_ok (qi : question_info) :
  answer_ok (handle_general_question hash draw qi).
Proof.
  unfold handle_general_question. cbv zeta.
  pose proof (url_hash_range (current_url_of qi)) as Hh.
  pose proof (str_of_int_short (hash (current_url_of qi) mod 1000 + 1) ltac:(lia)) as Hs.
  match goal with |- context [choice draw ?l] =>
    pose proof (choice_in l ltac:(discriminate)) as Hin;
    remember (choice draw l) as c eqn:Hc end.
  clear Hc. simpl in Hin.
  destruct Hin as [<-|[<-|[<-|[<-|[]]]]];
    (split; [discriminate|]); simpl length; lia.
Qed.

Lemma handle_general_demo_ok (qi : question_info) :
  answer_ok (handle_general_demo draw qi).
Proof.
  unfold handle_general_demo.
  match goal with |- context [choice draw ?l] =>
    pose proof (choice_in l ltac:(discriminate)) as Hin;
    remember (choice draw l) as c eqn:Hc end.
  clear Hc. simpl in Hin.
  destruct Hin as [<-|[<-|[<-|[<-|[]]]]]; (split; [discriminate|]); simpl; lia.
Qed.

Lemma generate_answer_ok (qi : question_info) :
  answer_ok (generate_answer hash draw qi).
Proof.
  unfold generate_answer. cbv zeta.
  repeat match goal with
         | |- context [if ?b then _ else _] => destruct b
         end;
    try apply handle_scraping_demo_ok;
    try apply handle_general_question_ok;
    try apply handle_general_demo_ok;
    try (unfold handle_sum_demo, handle_counting_question, handle_sum_calculation;
         match goal with |- context [randint draw ?a ?b] =>
           pose proof (randint_range a b ltac:(lia)) end; lia);
    try (split; [discriminate|simpl; lia]).
Qed.

(** The string form of a generated answer has at most 29 characters. *)
Lemma generate_answer_short (qi : question_info) :
  (length (str_of_answer (generate_answer hash draw qi)) <= 29)%nat.
Proof.
  pose proof (generate_answer_ok qi) as H.
  destruct (generate_answer hash draw qi) as [n|s]; cbn [str_of_answer].
  - pose proof (str_of_int_short n H). lia.
  - tauto.
Qed.

(** X10. Every answer [generate_answer] returns is short: an integer
    from 1 to 5000, or a text that is not empty and has at most 29
    characters, whatever the question, the hash and the random draw. *)
Theorem generate_answer_range (qi : question_info) :
  match generate_answer hash draw qi with
  | AInt n => 1 <= n <= 5000
  | AStr s => s <> [] /\ (length s <= 29)%nat
  end.
Proof. exact (generate_answer_ok qi). Qed.

Lemma contains_trans (a b c : str) :
  contains a b = true -> contains b c = true -> contains a c = true.
Proof.
  intros Hab Hbc. apply contains_iff in Hab as (x & y & ->).
  apply contains_iff in Hbc as (u & v & ->).
  apply contains_iff. exists (u ++ x), (y ++ v). rewrite <- !app_assoc. reflexivity.
Qed.

Lemma no_demo_marker (marker url : str) :
  contains (lit "demo") marker = true ->
  contains (lit "demo") url = false -> contains marker url = false.
Proof.
  intros Hm Hu. destruct (contains marker url) eqn:E; [|reflexivity].
  rewrite (contains_trans _ _ _ Hm E) in Hu. discriminate.
Qed.

(** X11. When the current URL contains demo, the answer depends on the
    URL, the hash and the random draw only: the question and the task
    type found by [parse_question] play no part. *)
Theorem generate_answer_demo (qi qi' : question_info) :
  contains (lit "demo") (current_url_of qi) = true ->
  current_url_of qi' = current_url_of qi ->
  generate_answer hash draw qi' = generate_answer hash draw qi.
Proof.
  intros Hdemo Hurl. unfold generate_answer. cbv zeta. rewrite Hurl, Hdemo.
  unfold handle_scraping_demo, handle_audio_demo, handle_sum_demo,
    handle_file_demo, handle_api_demo, handle_general_demo.
  rewrite Hurl. reflexivity.
Qed.

(** X12. Away from the demo URLs a page of the task type api_call is
    answered by the handler of general questions, exactly like a page of
    the type general: the type api_call has no handler of its own. *)
Theorem generate_answer_api_call (qi : question_info) :
  contains (lit "demo") (current_url_of qi) = false ->
  task_type qi = lit "api_call" \/ task_type qi = lit "general" ->
  generate_answer hash draw qi = handle_general_question hash draw qi.
Proof.
  intros Hdemo Hty. unfold generate_answer. cbv zeta.
  rewrite (no_demo_marker (lit "demo-scrape") _ eq_refl Hdemo).
  rewrite (no_demo_marker (lit "demo-audio") _ eq_refl Hdemo).
  rewrite (no_demo_marker (lit "demo-sum") _ eq_refl Hdemo).
  rewrite (no_demo_marker (lit "demo-file") _ eq_refl Hdemo).
  rewrite (no_demo_marker (lit "demo-api") _ eq_refl Hdemo), Hdemo.
  destruct Hty as [-> | ->]; reflexivity.
Qed.

End GeneratedAnswers.

Section GeneratedAnswersExamples.

Lemma generate_answer_demo_witness :
  generate_answer (fun _ => 41) 7
    (set_current_url (parse_question (lit "Please sum the numbers of the table."))
       (lit "https://example.com/demo-audio/1")) =
  generate_answer (fun _ => 41) 7
    (set_current_url (parse_question (lit "Download the file and count the rows."))
       (lit "https://example.com/demo-audio/1")).
Proof.
  apply (generate_answer_demo (fun _ => 41) 7); vm_compute; reflexivity.
Defined.

Lemma generate_answer_api_call_witness :
  generate_answer (fun _ => 41) 2
    (set_current_url (parse_question (lit "Call the API and report the result."))
       (lit "https://example.com/tasks/3")) = AStr (lit "executed_42").
Proof.
  rewrite (generate_answer_api_call (fun _ => 41) 2).
  - vm_compute. reflexivity.
  - vm_compute. reflexivity.
  - left. vm_compute. reflexivity.
Defined.

End GeneratedAnswersExamples.

(** ** More on the chain driver *)

Section ChainMore.

Variable extract_base64_instructions : str -> str.
Variable w : World.
Variables (email secret : str) (max_attempts : Z).

Local Abbreviation exec :=
  (run extract_base64_instructions w email secret max_attempts).
Local Abbreviation final :=
  (chain_run extract_base64_instructions w email secret max_attempts).
Local Abbreviation chain :=
  (solve_quiz_chain extract_base64_instructions w email secret max_attempts).

(** The answer generated, in the attempt numbered [i], for the page
    [html] fetched at [u], and the payload built with it. *)
Local Abbreviation answer_for i html u :=
  (Spec.planned_answer (hash w) (draw (attempt w i))
     (extract_base64_instructions html) u).
Local Abbreviation payload_for i html u :=
  {| p_email := email; p_secret := secret; p_url := u;
     p_answer := answer_for i html u |}.

Lemma found_url_http (t v : str) :
  In v (findall url_pattern t) -> startswith (lit "http") v = true.
Proof.
  intros Hin. destruct (findall_sound _ _ _ _ Hin) as ((g & Hm) & _).
  apply url_head_matches in Hm. exact (proj1 Hm).
Qed.

Lemma first_submit_url_http (t : str) :
  match List.filter mentions_submit (findall url_pattern t) with
  | [] => True
  | v :: _ => startswith (lit "http") v = true
  end.
Proof.
  destruct (List.filter mentions_submit (findall url_pattern t)) as [|v rest] eqn:Hf;
    [exact I|].
  assert (Hin : In v (List.filter mentions_submit (findall url_pattern t)))
    by (rewrite Hf; left; reflexivity).
  apply filter_In in Hin as [Hin _]. apply (found_url_http t v Hin).
Qed.

(** The URL posted to is never empty: it starts with http, or it is the
    origin followed by /submit. *)
Lemma submit_target_shape (text u : str) :
  Spec.submit_target text u <> [] /\
  (startswith (lit "http") (Spec.submit_target text u) = true \/
   Spec.submit_target text u = origin_of u ++ lit "/submit").
Proof.
  assert (Hcases : startswith (lit "http") (Spec.submit_target text u) = true \/
                   Spec.submit_target text u = origin_of u ++ lit "/submit").
  { unfold Spec.submit_target, parse_question, extract_submit_url. cbn [submit_url].
    pose proof (first_submit_url_http (clean text)) as H1.
    pose proof (first_submit_url_http text) as H2.
    destruct (List.filter mentions_submit (findall url_pattern (clean text)))
      as [|v rest].
    - destruct (List.filter mentions_submit (findall url_pattern text)) as [|v' rest'];
        [right; reflexivity|left; exact H2].
    - destruct v as [|c v]; [discriminate H1|left; exact H1]. }
  split; [|exact Hcases].
  destruct Hcases as [H|H]; intros E; rewrite E in H.
  - discriminate H.
  - destruct (origin_of u); discriminate H.
Qed.

(** Where a POST of the trace comes from: it stands right after the GET
    of the URL its payload carries; the attempt that made that GET, the
    one numbered by the GETs made before it, fetched a page; the payload
    is the one built for that page, after the size check, and the URL
    posted to is the submit URL found for it. *)
Lemma post_provenance (url : str) (n : nat) (pre post : list event)
  (sub : str) (p : payload) :
  trace (exec n (initial url)) = pre ++ Post sub p :: post ->
  exists pre' html,
    pre = pre' ++ [Fetch (p_url p)] /\
    page (attempt w (Spec.fetches pre')) = Returns html /\
    p = check_payload_size (payload_for (Spec.fetches pre') html (p_url p)) /\
    sub = Spec.submit_target (extract_base64_instructions html) (p_url p).
Proof.
  intros E.
  destruct (run_shape extract_base64_instructions w email secret max_attempts url n)
    as (_ & _ & _ & Hposts & _).
  destruct (Hposts pre sub p post E) as (pre' & html & Hpre & Hpage & Hp).
  exists pre', html. split; [exact Hpre|]. split; [exact Hpage|].
  injection Hp as Hs Hp. split; [exact Hp|exact Hs].
Qed.

Lemma check_payload_size_short (p0 : payload) :
  (length (str_of_answer (p_answer p0)) <= 1000)%nat ->
  str_of_answer (p_answer (check_payload_size p0)) = str_of_answer (p_answer p0) /\
  payload_size p0 <= payload_size (check_payload_size p0).
Proof.
  intros Hshort.
  assert (Hcut : firstn 1000 (str_of_answer (p_answer p0)) = str_of_answer (p_answer p0))
    by (apply firstn_all2; lia).
  unfold check_payload_size.
  destruct (Config.MAX_PAYLOAD_BYTES <? payload_size p0); [|split; [reflexivity|lia]].
  cbn [p_answer str_of_answer]. rewrite Hcut.
  split; [reflexivity|]. rewrite !payload_size_parts.
  cbn [p_answer p_email p_secret p_url json_answer].
  pose proof (json_string_length (str_of_answer (p_answer p0))) as Hj.
  destruct (p_answer p0) as [k|s]; cbn [str_of_answer json_answer] in *; lia.
Qed.



(** What the size check does to a payload the driver builds: the answer
    generated has at most 29 characters, so its text is not cut, and the
    payload is over the limit after the check exactly when it was over
    the limit as built. *)
Lemma built_payload_check (i : nat) (html u : str) :
  let p0 := payload_for i html u in
  (length (str_of_answer (p_answer p0)) <= 29)%nat /\
  firstn 1000 (str_of_answer (p_answer p0)) = str_of_answer (p_answer p0) /\
  str_of_answer (p_answer (check_payload_size p0)) = str_of_answer (p_answer p0) /\
  payload_size p0 <= payload_size (check_payload_size p0) /\
  (Config.MAX_PAYLOAD_BYTES < payload_size p0 <->
   Config.MAX_PAYLOAD_BYTES < payload_size (check_payload_size p0)).
Proof.
  cbv zeta. cbn [p_answer].
  pose proof (generate_answer_short (hash w) (draw (attempt w i))
                (set_current_url
                   (parse_question (extract_base64_instructions html)) u)) as Hs.
  fold (answer_for i html u) in Hs.
  destruct (check_payload_size_short (payload_for i html u)) as [H1 H2];
    [cbn [p_answer]; lia|].
  cbn [p_answer] in H1.
  split; [exact Hs|]. split; [apply firstn_all2; lia|]. split; [exact H1|].
  split; [exact H2|]. split; [lia|].
  intros Hover.
  destruct (Z.le_gt_cases (payload_size (payload_for i html u))
              Config.MAX_PAYLOAD_BYTES) as [Hle|Hgt]; [|exact Hgt].
  rewrite (proj1 (check_payload_size_cases _) Hle) in Hover. exact Hover.
Qed.


(** X13. In the driver the size check never helps.  The payload of
    every POST comes from the check of the payload built with the answer
    generated for the page just fetched; that answer has at most 29
    characters, so the text of the answer posted is the text of the
    answer generated, the payload posted is at least as large as the
    payload built, and it is over the limit exactly when the payload
    built is. *)
Theorem driver_size_check_effect (url : str) (n : nat) (pre post : list event)
  (sub : str) (p : payload) :
  trace (exec n (initial url)) = pre ++ Post sub p :: post ->
  exists pre' html,
    pre = pre' ++ [Fetch (p_url p)] /\
    page (attempt w (Spec.fetches pre')) = Returns html /\
    let a := answer_for (Spec.fetches pre') html (p_url p) in
    let p0 := {| p_email := email; p_secret := secret;
                 p_url := p_url p; p_answer := a |} in
    (length (str_of_answer a) <= 29)%nat /\
    str_of_answer (p_answer p) = str_of_answer a /\
    payload_size p0 <= payload_size p /\
    (Config.MAX_PAYLOAD_BYTES < payload_size p0 <->
     Config.MAX_PAYLOAD_BYTES < payload_size p).
Proof.
  intros E.
  destruct (post_provenance url n pre post sub p E)
    as (pre' & html & Hpre & Hpage & Hp & _).
  exists pre', html. split; [exact Hpre|]. split; [exact Hpage|]. cbv zeta.
  destruct (built_payload_check (Spec.fetches pre') html (p_url p))
    as (Hshort & _ & Htext & Hsize & Hover).
  cbv zeta in Hshort, Htext, Hsize, Hover. cbn [p_answer] in Hshort, Htext.
  rewrite <- Hp in Htext, Hsize, Hover.
  split; [exact Hshort|]. split; [exact Htext|]. split; [exact Hsize|exact Hover].
Qed.

(** X14. The driver never posts to an empty URL: the URL of every POST
    starts with http, or is the origin of the page, what precedes the
    last slash of its URL, followed by /submit. *)
Theorem driver_submit_url (url : str) (n : nat) (sub : str) (p : payload) :
  In (Post sub p) (trace (exec n (initial url))) ->
  sub <> [] /\
  (startswith (lit "http") sub = true \/
   sub = origin_of (p_url p) ++ lit "/submit").
Proof.
  intros Hin. apply in_split in Hin as (pre & post & E).
  destruct (post_provenance url n pre post sub p E)
    as (pre' & html & _ & _ & _ & ->).
  apply submit_target_shape.
Qed.

(** X15. In the trace of the driver every POST comes right after the GET
    of the page whose URL it carries in its payload: nothing is posted
    for a page that was not just fetched. *)
Theorem driver_posts_follow_fetches (url : str) (n : nat)
  (pre post : list event) (sub : str) (p : payload) :
  trace (exec n (initial url)) = pre ++ Post sub p :: post ->
  exists pre', pre = pre' ++ [Fetch (p_url p)].
Proof.
  intros E.
  destruct (post_provenance url n pre post sub p E) as (pre' & html & Hpre & _).
  exists pre'. exact Hpre.
Qed.

Lemma summary_chain (tail : list entry) : forall es,
  Forall Spec.goes_on es -> summary (es ++ tail) = summary tail.
Proof.
  induction es as [|e es IH]; intros Hgo; [reflexivity|].
  inversion Hgo as [|e' es' He Hes]; subst.
  destruct e as [u msg|u ans r]; [destruct He|].
  cbn in He. destruct r as [|b|k|x|s|l|items]; try discriminate He.
  cbn [app summary get]. apply IH, Hes.
Qed.

(** The entries the last attempt leaves: either the summary passes them
    and they are a chain from the URL of the attempt, or they are a
    submission answered with JSON that is not an object and the error of
    reading it, at which the summary raises the same error. *)
Lemma last_entries_summary (u : json) (tail : list entry) :
  Spec.last_entries u tail ->
  (summary tail = Returns tt /\ Spec.linked u tail) \/
  (exists a v,
     tail = [Submitted u a v; Failed u (no_attribute v (lit "get"))] /\
     is_dict v = false /\
     summary tail = Raises (no_attribute v (lit "get"))).
Proof.
  intros [e|a items|a r e Hc|a v Hv].
  - left. split; [reflexivity|]. split; reflexivity.
  - left. split; [reflexivity|]. split; [reflexivity|left; reflexivity].
  - left. split.
    + destruct r as [|b|k|x|s|l|items]; try discriminate Hc. reflexivity.
    + split; [reflexivity|]. right. split; [exact Hc|]. split; reflexivity.
  - right. exists a, v. split; [reflexivity|]. split; [exact Hv|].
    destruct v as [|b|k|x|s|l|items]; try reflexivity. discriminate Hv.
Qed.

(** The two ways in which [solve_quiz_chain] ends. *)
Lemma chain_outcome (url : str) :
  (chain url = Returns (results (final url)) /\
   Spec.linked (JStr url) (results (final url))) \/
  (exists es u a v,
     results (final url) =
       es ++ [Submitted u a v; Failed u (no_attribute v (lit "get"))] /\
     is_dict v = false /\
     chain url = Raises (no_attribute v (lit "get")) /\
     Spec.linked (JStr url) (es ++ [Submitted u a v])).
Proof.
  unfold solve_quiz_chain. cbv zeta. unfold chain_run.
  destruct (run_shape extract_base64_instructions w email secret max_attempts url
              (S (Z.to_nat max_attempts)))
    as (_ & _ & _ & _ & es & tail & Hr & Hgo & Hl & _ & Htail).
  cbv zeta in Hr, Htail. rewrite Hr, summary_chain by exact Hgo.
  destruct Htail as [[-> _]|(_ & Hlast & _)].
  - left. rewrite app_nil_r. split; [reflexivity|exact Hl].
  - destruct (last_entries_summary _ _ Hlast) as [[Hs Hlk]|(a & v & -> & Hv & Hs)].
    + left. rewrite Hs. split; [reflexivity|].
      apply linked_extend; [exact Hgo|exact Hl|exact Hlk].
    + right. exists es, (Spec.last_url (JStr url) es), a, v.
      split; [reflexivity|]. split; [exact Hv|]. rewrite Hs.
      split; [reflexivity|].
      apply linked_extend; [exact Hgo|exact Hl|].
      split; [reflexivity|left; reflexivity].
Qed.

Lemma linked_before_last (u : json) (a : answer) (v : json) (x : entry) :
  forall es u0,
    Spec.linked u0 (es ++ [Submitted u a v; x]) -> Spec.continuing v = true.
Proof.
  induction es as [|e es IH]; intros u0 H.
  - destruct H as [_ [H|[H _]]]; [discriminate H|exact H].
  - destruct e as [u' msg|u' ans r].
    + destruct H as [_ H]. destruct es; discriminate H.
    + destruct H as [_ [H|[_ H]]]; [destruct es; discriminate H|].
      apply (IH _ H).
Qed.

(** X16. The results [solve_quiz_chain] returns form a chain from the
    start URL: the first entry is for the start URL; an entry is followed
    by another only if it is a submission the grader found correct and
    answered with a next URL, and the entry that follows is for that
    URL; an error entry is always the last.  The function returns the
    results of the loop unless the grader answered the last submission
    with JSON that is not an object: it then raises, in the summary after
    the loop, the error of reading that answer, and the results of the
    loop are a chain that ends with the submission, followed by an error
    entry for the same URL. *)
Theorem results_form_a_chain (url : str) :
  (forall rs,
     chain url = Returns rs ->
     rs = results (final url) /\ Spec.linked (JStr url) rs) /\
  (forall msg,
     chain url = Raises msg ->
     exists es u a v,
       results (final url) = es ++ [Submitted u a v; Failed u msg] /\
       is_dict v = false /\ msg = no_attribute v (lit "get") /\
       Spec.linked (JStr url) (es ++ [Submitted u a v])) /\
  (forall es u a v x,
     results (final url) = es ++ [Submitted u a v; x] ->
     is_dict v = false ->
     chain url = Raises (no_attribute v (lit "get"))).
Proof.
  destruct (chain_outcome url) as [[Hc Hl]|(es & u & a & v & Hr & Hv & Hc & Hl)];
    rewrite Hc; (split; [|split]).
  - intros rs E. injection E as <-. split; [reflexivity|exact Hl].
  - intros msg E. discriminate E.
  - intros es u a v x Hr Hv. rewrite Hr in Hl.
    apply linked_before_last in Hl.
    destruct v as [|b|k|y|s|l|items]; try discriminate Hl. discriminate Hv.
  - intros rs E. discriminate E.
  - intros msg E. injection E as <-. exists es, u, a, v.
    split; [exact Hr|]. split; [exact Hv|]. split; [reflexivity|exact Hl].
  - intros es' u' a' v' x Hr' _. rewrite Hr in Hr'.
    change (es ++ [Submitted u a v; Failed u (no_attribute v (lit "get"))])
      with (es ++ [Submitted u a v] ++ [Failed u (no_attribute v (lit "get"))]) in Hr'.
    change (es' ++ [Submitted u' a' v'; x])
      with (es' ++ [Submitted u' a' v'] ++ [x]) in Hr'.
    rewrite !app_assoc in Hr'. apply app_inj_tail in Hr' as [Hr' _].
    apply app_inj_tail in Hr' as [_ Hr']. injection Hr' as _ _ ->. reflexivity.
Qed.

(** X17. Every attempt leaves an entry in the results, and the results
    have at most one entry more than attempts were made, hence at most
    [max_attempts + 1] entries: the extra entry is the error raised
    after a recorded submission.  The results are those of the loop,
    which [solve_quiz_chain] returns whenever it returns. *)
Theorem results_length (url : str) :
  let n := Z.of_nat (length (results (final url))) in
  attempts (final url) <= n <= attempts (final url) + 1 /\
  n <= Z.max 0 max_attempts + 1 /\
  (forall rs, chain url = Returns rs -> rs = results (final url)).
Proof.
  cbv zeta. unfold chain_run.
  destruct (run_shape extract_base64_instructions w email secret max_attempts url
              (S (Z.to_nat max_attempts)))
    as (Ha & _ & _ & _ & es & tail & Hr & _ & _ & _ & Htail).
  cbv zeta in Ha, Hr, Htail. rewrite Hr, length_app.
  assert (Hn : attempts (exec (S (Z.to_nat max_attempts)) (initial url))
               <= Z.of_nat (length es + length tail)
               <= attempts (exec (S (Z.to_nat max_attempts)) (initial url)) + 1).
  { destruct Htail as [[-> Hlen]|(_ & Hlast & Hlen)]; [cbn [length]; lia|].
    destruct Hlast; cbn [length]; lia. }
  split; [exact Hn|]. split; [lia|].
  intros rs E.
  destruct (chain_outcome url) as [[Hc _]|(es' & u & a & v & _ & _ & Hc & _)];
    rewrite Hc in E; [|discriminate E].
  injection E as <-. unfold chain_run. exact Hr.
Qed.

End ChainMore.

Section ChainMoreExamples.

Import Examples.

Local Abbreviation over_limit_payload :=
  (check_payload_size
     {| p_email := my_email; p_secret := my_secret; p_url := long_url;
        p_answer := Spec.planned_answer (hash endless_world) 7
                      next_page_text long_url |}).

Lemma long_url_turn :
  trace (run plain_instructions endless_world my_email my_secret 5 1
           (initial long_url)) =
    [Fetch long_url] ++
    Post (Spec.submit_target next_page_text long_url) over_limit_payload :: [].
Proof. apply (endless_first_turn long_url long_url_not_empty). Qed.

Lemma built_payload_url (e s u : str) (a : answer) :
  p_url {| p_email := e; p_secret := s; p_url := u; p_answer := a |} = u.
Proof. reflexivity. Qed.

Lemma over_limit_payload_url (a : answer) :
  p_url {| p_email := my_email; p_secret := my_secret;
           p_url := p_url over_limit_payload; p_answer := a |} = long_url.
Proof.
  rewrite built_payload_url.
  rewrite (proj2 (proj2 (check_payload_size_fields _))).
  apply built_payload_url.
Qed.


Lemma driver_size_check_effect_witness :
  exists a : answer,
    (length (str_of_answer a) <= 29)%nat /\
    str_of_answer (p_answer over_limit_payload) = str_of_answer a /\
    Config.MAX_PAYLOAD_BYTES < payload_size over_limit_payload.
Proof.
  destruct (driver_size_check_effect plain_instructions endless_world my_email
              my_secret 5 long_url 1 [Fetch long_url] []
              (Spec.submit_target next_page_text long_url) over_limit_payload
              long_url_turn)
    as (pre' & html & _ & _ & Hshort & Htext & _ & Hover).
  eexists. split; [exact Hshort|]. split; [exact Htext|].
  refine (proj1 Hover _).
  apply over_limit_by_url. apply over_limit_payload_url.
Defined.

Lemma driver_submit_url_witness :
  startswith (lit "http") (lit "https://example.com/tasks/submit") = true \/
  lit "https://example.com/tasks/submit" = origin_of page_url ++ lit "/submit".
Proof.
  apply (driver_submit_url plain_instructions endless_world my_email
           my_secret 5 page_url 1 (lit "https://example.com/tasks/submit")
           {| p_email := my_email; p_secret := my_secret; p_url := page_url;
              p_answer := AInt 107 |}).
  vm_compute. right. left. reflexivity.
Defined.

Lemma driver_posts_follow_fetches_witness :
  exists pre', [Fetch page_url] = pre' ++ [Fetch page_url].
Proof.
  apply (driver_posts_follow_fetches plain_instructions endless_world my_email
           my_secret 5 page_url 1 [Fetch page_url] []
           (lit "https://example.com/tasks/submit")
           {| p_email := my_email; p_secret := my_secret; p_url := page_url;
              p_answer := AInt 107 |}).
  vm_compute. reflexivity.
Defined.

(** The bound on the number of entries is reached: one attempt, two
    entries. *)
Example results_one_more_than_attempts :
  attempts (chain_run plain_instructions hasty_world my_email my_secret 1 page_url)
    = 1 /\
  length (results (chain_run plain_instructions hasty_world my_email my_secret 1
                     page_url)) = 2%nat.
Proof. split; vm_compute; reflexivity. Qed.

(** A grader that answers with a JSON array: the submission and the
    error of reading its answer are recorded for the same URL, and
    [solve_quiz_chain] raises that error. *)
Example chain_raises_on_array :
  results (chain_run plain_instructions array_world my_email my_secret 5 page_url) =
    [Submitted (JStr page_url) (AInt 107) (JList [JBool true]);
     Failed (JStr page_url) (lit "'list' object has no attribute 'get'")] /\
  solve_quiz_chain plain_instructions array_world my_email my_secret 5 page_url =
    Raises (lit "'list' object has no attribute 'get'").
Proof. split; vm_compute; reflexivity. Qed.

(** A grader that names a number as the next URL: the next attempt is
    counted, nothing is fetched, and the refusal is recorded for the
    number. *)
Example chain_refuses_number :
  attempts (chain_run plain_instructions numbered_world my_email my_secret 5
              page_url) = 2 /\
  Spec.fetch_count (chain_run plain_instructions numbered_world my_email my_secret 5
                      page_url) = 1 /\
  solve_quiz_chain plain_instructions numbered_world my_email my_secret 5 page_url =
    Returns
      [Submitted (JStr page_url) (AInt 107)
         (JDict [(lit "correct", JBool true); (lit "url", JInt 5)]);
       Failed (JInt 5) (lit "400: Fetch failed: Invalid URL")].
Proof. split; [|split]; vm_compute; reflexivity. Qed.

End ChainMoreExamples.

(** ** The synchronous endpoint and the test endpoint *)

Section SyncEndpoint.

Variable extract_base64_instructions : str -> str.
Variable http_error_text : Z -> str -> str.
Variable hash : str -> Z.

Local Abbreviation sync :=
  (solve_quiz_sync extract_base64_instructions http_error_text hash).
Local Abbreviation verified req :=
  (verify_credentials (QuizRequest.email req) (QuizRequest.secret req)).

(** What the synchronous endpoint does after a page was fetched. *)
Local Abbreviation sync_done req a html :=
  [Fetch (QuizRequest.url req);
   Post (Spec.sync_target (extract_base64_instructions html) (QuizRequest.url req))
        {| p_email := QuizRequest.email req;
           p_secret := QuizRequest.secret req;
           p_url := QuizRequest.url req;
           p_answer := Spec.planned_answer hash (draw a)
                         (extract_base64_instructions html) (QuizRequest.url req) |}].

(** The paths through the handler. *)
Lemma sync_cases (req : QuizRequest.t) (a : Attempt) :
  (verified req = false /\
   exists d, sync req a = (Raised 403 (DetailDict d), [])) \/
  (verified req = true /\ exists e,
     page a = Raises e /\
     sync req a = sync_failure e [Fetch (QuizRequest.url req)]) \/
  (verified req = true /\ exists html,
     page a = Returns html /\
     ((exists e, sync req a = sync_failure e (sync_done req a html) /\
                 forall r, response a <> Returns (200, Returns r)) \/
      (exists r, response a = Returns (200, Returns r) /\
                 sync req a = (Returned r, sync_done req a html)))).
Proof.
  unfold solve_quiz_sync. cbv zeta.
  destruct (verified req) eqn:Hv; cbn [negb].
  - right. destruct (page a) as [html|e] eqn:Hp.
    + right. split; [reflexivity|]. exists html. split; [reflexivity|].
      fold (Spec.sync_target (extract_base64_instructions html) (QuizRequest.url req)).
      fold (Spec.planned_answer hash (draw a) (extract_base64_instructions html)
              (QuizRequest.url req)).
      destruct (response a) as [[status body]|e] eqn:Hr.
      * destruct (status =? 200) eqn:Hs; cbn [negb].
        -- apply Z.eqb_eq in Hs. subst status.
           destruct body as [r|e].
           ++ right. exists r. split; reflexivity.
           ++ left. exists e. split; [reflexivity|]. intros r E. discriminate E.
        -- left. eexists. split; [reflexivity|]. intros r E.
           injection E as -> _. discriminate Hs.
      * left. exists e. split; [reflexivity|]. intros r E. discriminate E.
    + left. split; [reflexivity|]. exists e. split; reflexivity.
  - left. split; [reflexivity|]. eexists. reflexivity.
Qed.


Lemma sync_target_shape (text u : str) :
  Spec.sync_target text u <> [] /\
  (startswith (lit "http") (Spec.sync_target text u) = true \/
   Spec.sync_target text u = sync_origin u ++ lit "/submit").
Proof.
  assert (Hcases : startswith (lit "http") (Spec.sync_target text u) = true \/
                   Spec.sync_target text u = sync_origin u ++ lit "/submit").
  { unfold Spec.sync_target, parse_question, extract_submit_url. cbn [submit_url].
    pose proof (first_submit_url_http (clean text)) as H1.
    pose proof (first_submit_url_http text) as H2.
    destruct (List.filter mentions_submit (findall url_pattern (clean text)))
      as [|v rest].
    - destruct (List.filter mentions_submit (findall url_pattern text)) as [|v' rest'];
        [right; reflexivity|left; exact H2].
    - destruct v as [|c v]; [discriminate H1|left; exact H1]. }
  split; [|exact Hcases].
  destruct Hcases as [H|H]; intros E; rewrite E in H.
  - discriminate H.
  - destruct (sync_origin u); discriminate H.
Qed.

(** X19. What the synchronous endpoint posts: only after the credentials
    were verified and the page was fetched, once, right after the fetch,
    to a URL that is not empty, and with the payload as it was built from
    the request, which is not passed through the size check. *)
Theorem sync_post (req : QuizRequest.t) (a : Attempt) (sub : str) (p : payload) :
  In (Post sub p) (snd (sync req a)) ->
  verified req = true /\
  snd (sync req a) = [Fetch (QuizRequest.url req); Post sub p] /\
  sub <> [] /\
  exists html,
    page a = Returns html /\
    sub = Spec.sync_target (extract_base64_instructions html) (QuizRequest.url req) /\
    p = {| p_email := QuizRequest.email req;
           p_secret := QuizRequest.secret req;
           p_url := QuizRequest.url req;
           p_answer := Spec.planned_answer hash (draw a)
                         (extract_base64_instructions html) (QuizRequest.url req) |}.
Proof.
  intros Hin.
  assert (Hdone : forall html,
            In (Post sub p) (sync_done req a html) ->
            sync_done req a html = [Fetch (QuizRequest.url req); Post sub p] /\
            sub <> [] /\
            sub = Spec.sync_target (extract_base64_instructions html)
                    (QuizRequest.url req) /\
            p = {| p_email := QuizRequest.email req;
                   p_secret := QuizRequest.secret req;
                   p_url := QuizRequest.url req;
                   p_answer := Spec.planned_answer hash (draw a)
                                 (extract_base64_instructions html)
                                 (QuizRequest.url req) |}).
  { intros html [E|[E|[]]]; [discriminate E|]. injection E as <- <-.
    split; [reflexivity|]. split; [apply sync_target_shape|].
    split; reflexivity. }
  destruct (sync_cases req a)
    as [(Hv & d & E)|[(Hv & e & _ & E)|(Hv & html & Hp & [(e & E & _)|(r & _ & E)])]];
    rewrite E in Hin |- *; cbn [fst snd sync_failure] in Hin |- *.
  - destruct Hin.
  - destruct Hin as [H|[]]. discriminate H.
  - destruct (Hdone html Hin) as (H1 & H2 & H3 & H4).
    split; [exact Hv|]. split; [exact H1|]. split; [exact H2|].
    exists html. split; [exact Hp|]. split; [exact H3|exact H4].
  - destruct (Hdone html Hin) as (H1 & H2 & H3 & H4).
    split; [exact Hv|]. split; [exact H1|]. split; [exact H2|].
    exists html. split; [exact Hp|]. split; [exact H3|exact H4].
Qed.

(** X20. Every error reply of the synchronous endpoint has status 403 or
    400: 403 for refused credentials, before anything was done, and 400
    for every failure afterwards, a failed fetch, a failed submission or
    a status other than 200, with a detail that starts with
    [Quiz processing failed: ]. *)
Theorem sync_failure_status (req : QuizRequest.t) (a : Attempt)
  (status_code : Z) (detail : http_detail) :
  fst (sync req a) = Raised status_code detail ->
  (status_code = 403 /\ verified req = false /\ snd (sync req a) = []) \/
  (status_code = 400 /\ verified req = true /\
   exists done, snd (sync req a) = Fetch (QuizRequest.url req) :: done /\
   exists e, detail = DetailText (lit "Quiz processing failed: " ++ e)).
Proof.
  intros H.
  destruct (sync_cases req a)
    as [(Hv & d & E)|[(Hv & e & _ & E)|(Hv & html & Hp & [(e & E & _)|(r & _ & E)])]];
    rewrite E in H |- *; cbn [fst snd sync_failure] in H |- *.
  - injection H as <- _. left. split; [reflexivity|]. split; [exact Hv|reflexivity].
  - injection H as <- <-. right. split; [reflexivity|]. split; [exact Hv|].
    exists []. split; [reflexivity|]. exists e. reflexivity.
  - injection H as <- <-. right. split; [reflexivity|]. split; [exact Hv|].
    eexists. split; [reflexivity|]. exists e. reflexivity.
  - discriminate H.
Qed.

(** X21. The synchronous endpoint returns a result exactly when the
    credentials are verified, the page is fetched, and the submission is
    answered with status 200 and a body that parses: the result is that
    body.  Any other status, 201 as well, is an error. *)
Theorem sync_success (req : QuizRequest.t) (a : Attempt) (r : json) :
  fst (sync req a) = Returned r <->
  (verified req = true /\
   (exists html, page a = Returns html) /\
   response a = Returns (200, Returns r)).
Proof.
  destruct (sync_cases req a)
    as [(Hv & d & E)|[(Hv & e & Hp & E)|(Hv & html & Hp & [(e & E & Hno)|(r' & Hr & E)])]];
    rewrite E; cbn [fst snd sync_failure]; split.
  - intros H. discriminate H.
  - intros (Hv' & _). rewrite Hv in Hv'. discriminate Hv'.
  - intros H. discriminate H.
  - intros (_ & (html & Hh) & _). rewrite Hp in Hh. discriminate Hh.
  - intros H. discriminate H.
  - intros (_ & _ & Hr). destruct (Hno r Hr).
  - intros H. injection H as ->. split; [exact Hv|].
    split; [exists html; exact Hp|exact Hr].
  - intros (_ & _ & Hr'). rewrite Hr in Hr'. injection Hr' as ->. reflexivity.
Qed.

(** X22. The three endpoints that take a request accept the same
    credentials: the test endpoint succeeds exactly when the quiz
    endpoint starts the chain, and exactly when the synchronous endpoint
    does not reply with status 403. *)
Theorem endpoints_agree_on_credentials (req : QuizRequest.t)
  (background_tasks : list task) (a : Attempt) :
  Spec.accepted (test_endpoint req) = verified req /\
  Spec.accepted (fst (solve_quiz req background_tasks)) = verified req /\
  (verified req = false <->
   exists detail, fst (sync req a) = Raised 403 detail).
Proof.
  split; [|split].
  - unfold test_endpoint. destruct (verified req); reflexivity.
  - unfold solve_quiz. destruct (verified req); reflexivity.
  - destruct (sync_cases req a)
      as [(Hv & d & E)|[(Hv & e & _ & E)|(Hv & html & _ & [(e & E & _)|(r & _ & E)])]];
      rewrite E, Hv; cbn [fst snd sync_failure]; split; intros H;
      try discriminate H; try reflexivity.
    + eexists. reflexivity.
    + destruct H as [d H]. discriminate H.
    + destruct H as [d H]. discriminate H.
    + destruct H as [d H]. discriminate H.
Qed.

End SyncEndpoint.

Section SyncEndpointExamples.

Import Examples.

Local Abbreviation sync_example :=
  (solve_quiz_sync plain_instructions status_and_detail (fun _ => 41)).

Lemma sync_post_witness :
  snd (sync_example exact_request graded_page) =
    [Fetch (QuizRequest.url exact_request);
     Post (lit "https://example.com/quiz/submit")
          {| p_email := QuizRequest.email exact_request;
             p_secret := QuizRequest.secret exact_request;
             p_url := QuizRequest.url exact_request;
             p_answer := AStr (lit "finished_42") |}].
Proof.
  apply (sync_post plain_instructions status_and_detail (fun _ => 41)
           exact_request graded_page).
  vm_compute. right. left. reflexivity.
Defined.

Lemma sync_failure_status_witness :
  exists done,
    snd (sync_example exact_request refused_page) =
      Fetch (QuizRequest.url exact_request) :: done.
Proof.
  destruct (sync_failure_status plain_instructions status_and_detail (fun _ => 41)
              exact_request refused_page 400
              (DetailText (lit "Quiz processing failed: 400: Submission failed: 500")))
    as [(H & _)|(_ & _ & done & Hd & _)].
  - vm_compute. reflexivity.
  - discriminate H.
  - exists done. exact Hd.
Defined.

End SyncEndpointExamples.

(** ** The fallback submit URL of the two endpoints *)

Section FallbackTargets.

Lemma rsplit1_head_shorter (d : ascii) (s : str) :
  existsb (eqc d) s = true -> (length (rsplit1_head d s) < length s)%nat.
Proof.
  induction s as [|c s IH]; intros H; [discriminate H|].
  cbn [rsplit1_head]. cbn [existsb] in H.
  destruct (existsb (eqc d) s) eqn:Hs.
  - cbn [length]. specialize (IH eq_refl). lia.
  - rewrite orb_false_r in H. apply eqc_eq in H. subst c.
    rewrite eqc_refl. cbn [length]. lia.
Qed.

Lemma no_submit_url_targets (text url : str) :
  submit_url (parse_question text) = [] ->
  List.filter mentions_submit (findall url_pattern text) = [] ->
  Spec.submit_target text url = origin_of url ++ lit "/submit" /\
  Spec.sync_target text url = sync_origin url ++ lit "/submit".
Proof.
  intros Hq Ht. unfold Spec.submit_target, Spec.sync_target, extract_submit_url.
  rewrite Hq. cbv zeta. rewrite Ht. split; reflexivity.
Qed.

(** X23. When the instructions name no submit URL, the two endpoints
    post the answer for the same page to different URLs: for a URL with
    a slash and without /demo, the chain driver posts to what precedes
    the last slash followed by /submit, the synchronous endpoint to the
    whole URL followed by /submit. *)
Theorem fallback_targets_differ (text url : str) :
  submit_url (parse_question text) = [] ->
  List.filter mentions_submit (findall url_pattern text) = [] ->
  contains (lit "/") url = true ->
  contains (lit "/demo") url = false ->
  Spec.submit_target text url = origin_of url ++ lit "/submit" /\
  Spec.sync_target text url = url ++ lit "/submit" /\
  Spec.submit_target text url <> Spec.sync_target text url.
Proof.
  intros Hq Ht Hslash Hdemo.
  destruct (no_submit_url_targets text url Hq Ht) as [Hc Hs].
  unfold sync_origin in Hs. rewrite Hdemo in Hs.
  split; [exact Hc|]. split; [exact Hs|].
  rewrite Hc, Hs. intros E. apply (f_equal (@length ascii)) in E.
  rewrite !length_app in E.
  unfold origin_of in E. rewrite Hslash in E.
  change (lit "/") with ["/"%char] in Hslash. rewrite contains_char in Hslash.
  pose proof (rsplit1_head_shorter _ _ Hslash). lia.
Qed.

(** X24. For a URL that has no path, a scheme, [://] and a host without
    any slash, the fallback of the chain driver loses the host: the
    origin is cut at the last slash, which is the second slash of
    [://], and the answer is posted to the scheme followed by
    [://submit]. *)
Theorem fallback_for_bare_host (text scheme host : str) :
  submit_url (parse_question text) = [] ->
  List.filter mentions_submit (findall url_pattern text) = [] ->
  contains (lit "/") host = false ->
  Spec.submit_target text (scheme ++ lit "://" ++ host) =
    scheme ++ lit "://submit".
Proof.
  intros Hq Ht Hhost.
  destruct (no_submit_url_targets text (scheme ++ lit "://" ++ host) Hq Ht) as [-> _].
  destruct (origin_of_spec (scheme ++ lit "://" ++ host)) as [_ Ho].
  rewrite (Ho (scheme ++ lit ":/") host).
  - rewrite <- app_assoc. reflexivity.
  - rewrite <- app_assoc. reflexivity.
  - exact Hhost.
Qed.

End FallbackTargets.

Section FallbackTargetsExamples.

Import Examples.

Lemma fallback_targets_differ_witness :
  Spec.submit_target plain_text page_url = origin_of page_url ++ lit "/submit" /\
  Spec.sync_target plain_text page_url = page_url ++ lit "/submit" /\
  Spec.submit_target plain_text page_url <> Spec.sync_target plain_text page_url.
Proof.
  apply (fallback_targets_differ plain_text page_url); vm_compute; reflexivity.
Defined.

Lemma fallback_for_bare_host_witness :
  Spec.submit_target plain_text (lit "https" ++ lit "://" ++ lit "example.com") =
    lit "https" ++ lit "://submit".
Proof.
  apply (fallback_for_bare_host plain_text (lit "https") (lit "example.com"));
    vm_compute; reflexivity.
Defined.

End FallbackTargetsExamples.

(** ** More on the rendering-based solver *)

Section SolverMore.

Import Solver.

Lemma matches_group_inside (pat : list rx) : forall (w g : str),
  Spec.matches pat w (Some g) -> exists a b, w = a ++ g ++ b.
Proof.
  induction pat as [|item pat IH]; intros w g H.
  - destruct H as [_ H]. discriminate H.
  - destruct item as [l|c|p|p|p|ls]; cbn [Spec.matches] in H.
    + destruct H as (w' & -> & H). destruct (IH _ _ H) as (a & b & ->).
      exists (l ++ a), b. rewrite <- app_assoc. reflexivity.
    + destruct H as [H|(w' & -> & H)].
      * apply (IH _ _ H).
      * destruct (IH _ _ H) as (a & b & ->). exists (c :: a), b. reflexivity.
    + destruct H as (u & w' & -> & _ & H). destruct (IH _ _ H) as (a & b & ->).
      exists (u ++ a), b. rewrite <- app_assoc. reflexivity.
    + destruct H as (u & w' & -> & _ & _ & H). destruct (IH _ _ H) as (a & b & ->).
      exists (u ++ a), b. rewrite <- app_assoc. reflexivity.
    + destruct H as (u & w' & g' & -> & _ & _ & E & _). injection E as ->.
      exists [], w'. reflexivity.
    + destruct H as (l & w' & _ & -> & H). destruct (IH _ _ H) as (a & b & ->).
      exists (l ++ a), b. rewrite <- app_assoc. reflexivity.
Qed.

Lemma inside_trans (s t u : str) :
  (exists a b, s = a ++ t ++ b) -> (exists a b, t = a ++ u ++ b) ->
  exists a b, s = a ++ u ++ b.
Proof.
  intros (a & b & ->) (a' & b' & ->). exists (a ++ a'), (b' ++ b).
  rewrite <- !app_assoc. reflexivity.
Qed.

Lemma lstrip_lstrip (s : str) : lstrip (lstrip s) = lstrip s.
Proof.
  induction s as [|c s IH]; [reflexivity|].
  simpl. destruct (isspace c) eqn:Hc; [exact IH|]. simpl. rewrite Hc. reflexivity.
Qed.

Lemma rstrip_cons_solid (c : ascii) (t : str) :
  isspace c = false -> rstrip (c :: t) = c :: rstrip t.
Proof.
  intros Hc. unfold rstrip. cbn [rev]. rewrite lstrip_app_cases.
  destruct (forallb isspace (rev t)) eqn:Ht.
  - rewrite (lstrip_all_spaces _ Ht). simpl. rewrite Hc. reflexivity.
  - rewrite rev_app_distr. reflexivity.
Qed.

Lemma strip_strip (s : str) : strip (strip s) = strip s.
Proof.
  unfold strip. destruct (lstrip s) as [|c t] eqn:Hs; [reflexivity|].
  assert (Hc : isspace c = false).
  { pose proof (lstrip_lstrip s) as H. rewrite Hs in H. simpl in H.
    destruct (isspace c); [|reflexivity].
    apply (f_equal (@length ascii)) in H.
    destruct (lstrip_suffix t) as (a & Ha). rewrite Ha in H at 2.
    cbn [length] in H. rewrite length_app in H. lia. }
  rewrite (rstrip_cons_solid c t Hc). cbn [lstrip]. rewrite Hc.
  rewrite <- (rstrip_cons_solid c t Hc).
  unfold rstrip. rewrite rev_involutive, lstrip_lstrip. reflexivity.
Qed.

Lemma first_secret_inside (html : str) : forall (pats : list (list rx)) (s : str),
  first_secret pats html = Some s ->
  (exists a b, html = a ++ s ++ b) /\ strip s = s.
Proof.
  induction pats as [|pat pats IH]; intros s H; [discriminate H|].
  cbn [first_secret] in H.
  destruct (search pat html) as [m|] eqn:Hm; [|apply (IH s H)].
  injection H as <-. split; [|apply strip_strip].
  destruct (search_sound _ _ _ Hm) as (Hl & Hin).
  apply (inside_trans html (fst m)); [exact Hin|].
  apply (inside_trans (fst m) (group1 m)); [|apply strip_inside].
  unfold group1. destruct (snd m) as [g|].
  - apply (matches_group_inside _ _ _ Hl).
  - exists [], (fst m). reflexivity.
Qed.

(** X25. The secret [solve_quiz_page] returns is never made up: it is
    the text UNKNOWN_SECRET, or a part of the HTML of the page; in both
    cases it has no white space at either end. *)
Theorem extract_secret_provenance (url : str) (page : Page) :
  let s := secret_of (solve_quiz_page url page) in
  (s = UNKNOWN_SECRET \/ exists a b, html page = a ++ s ++ b) /\
  strip s = s.
Proof.
  cbv zeta. unfold solve_quiz_page. cbn [secret_of]. unfold extract_secret.
  destruct (first_secret secret_patterns (html page)) as [s|] eqn:Hs.
  - destruct (first_secret_inside _ _ _ Hs) as [Hin Hstrip].
    destruct s as [|c s].
    + split; [left; reflexivity|reflexivity].
    + split; [right; exact Hin|exact Hstrip].
  - split; [left; reflexivity|reflexivity].
Qed.

Lemma count_from_nonneg (sub : str) : forall (s : str) (skip : nat),
  0 <= count_from sub skip s.
Proof.
  induction s as [|c s IH]; intros skip; cbn [count_from].
  - destruct skip; [destruct (startswith sub [])|]; lia.
  - destruct skip as [|k]; [|apply IH].
    destruct (startswith sub (c :: s)).
    + specialize (IH (Nat.pred (length sub))). lia.
    + apply IH.
Qed.

Lemma contains_count (sub s : str) :
  contains sub s = true -> 1 <= count sub s.
Proof.
  unfold count. induction s as [|c s IH]; intros H.
  - simpl in H. rewrite orb_false_r in H. cbn [count_from]. rewrite H. lia.
  - cbn [count_from]. cbn [contains] in H.
    destruct (startswith sub (c :: s)).
    + pose proof (count_from_nonneg sub s (Nat.pred (length sub))). lia.
    + apply IH. exact H.
Qed.

Lemma startswith_length (p s : str) :
  startswith p s = true -> (length p <= length s)%nat.
Proof.
  intros H. apply startswith_iff in H as [t ->]. rewrite length_app. lia.
Qed.

Lemma count_from_bound (sub : str) : sub <> [] ->
  forall (s : str) (skip : nat),
    Z.of_nat (length sub) * count_from sub skip s
      <= Z.max 0 (Z.of_nat (length s) - Z.of_nat skip).
Proof.
  intros Hsub. induction s as [|c s IH]; intros skip; cbn [count_from].
  - destruct skip.
    + destruct sub; [contradiction|]. cbn [startswith]. lia.
    + lia.
  - destruct skip as [|k].
    + destruct (startswith sub (c :: s)) eqn:Hst.
      * apply startswith_length in Hst. cbn [length] in Hst |- *.
        specialize (IH (Nat.pred (length sub))).
        destruct sub as [|x sub]; [contradiction|]. cbn [length Nat.pred] in *. nia.
      * specialize (IH O). cbn [length]. lia.
    + specialize (IH k). cbn [length]. lia.
Qed.

(** X26. For a count task the answer of [solve_quiz_page] is never zero:
    the words that make the task a count task contain the word counted.
    It is an integer from 1 up to one third of the length of the text. *)
Theorem count_task_answer (url : str) (page : Page) :
  contains (lit "count the") (lower (text page)) = true ->
  exists n, answer_of (solve_quiz_page url page) = AInt n /\
            1 <= n /\ 3 * n <= Z.of_nat (length (text page)).
Proof.
  intros H. unfold solve_quiz_page, detect_task_type. cbn [answer_of]. rewrite H.
  exists (count (lit "the") (lower (text page))).
  split; [reflexivity|]. split.
  - apply contains_count.
    apply (contains_trans (lit "the") (lit "count the")); [reflexivity|exact H].
  - pose proof (count_from_bound (lit "the") ltac:(discriminate)
                  (lower (text page)) O) as Hb.
    unfold lower in Hb. rewrite length_map in Hb.
    change (Z.of_nat (length (lit "the"))) with 3 in Hb.
    unfold count, lower. lia.
Qed.

End SolverMore.

Section SolverMoreExamples.

Import Solver.

Lemma count_task_answer_witness :
  exists n,
    answer_of (solve_quiz_page (lit "https://example.com/q")
                 {| html := []; text := lit "Count the words of the page";
                    hrefs := []; scripts := [] |}) = AInt n /\
    1 <= n /\ 3 * n <= 27.
Proof.
  apply (count_task_answer (lit "https://example.com/q")
           {| html := []; text := lit "Count the words of the page";
              hrefs := []; scripts := [] |}).
  vm_compute. reflexivity.
Defined.

End SolverMoreExamples.

(** ** The size check, applied again *)

Section PayloadSizeMore.

(** X27. The size check is idempotent: a payload that went through it
    is left as it is by a second check, also when it is still over the
    limit. *)
Theorem check_payload_size_idempotent (p : payload) :
  check_payload_size (check_payload_size p) = check_payload_size p.
Proof.
  destruct (Config.MAX_PAYLOAD_BYTES <? payload_size p) eqn:Hp.
  - assert (E : check_payload_size p =
                {| p_email := p_email p; p_secret := p_secret p; p_url := p_url p;
                   p_answer := AStr (firstn 1000 (str_of_answer (p_answer p))) |})
      by (unfold check_payload_size; rewrite Hp; reflexivity).
    rewrite E. clear E Hp. unfold check_payload_size.
    destruct (Config.MAX_PAYLOAD_BYTES <? payload_size _); [|reflexivity].
    cbn [p_email p_secret p_url p_answer str_of_answer].
    rewrite firstn_firstn. reflexivity.
  - assert (E : check_payload_size p = p)
      by (unfold check_payload_size; rewrite Hp; reflexivity).
    rewrite !E. reflexivity.
Qed.

End PayloadSizeMore.
